(** * Quanzhong scoring engine: a shallow embedding and its properties

    This development embeds the scoring core of [scripts/quanzhong_model.py],
    the layer builder [association-centrality-skill/scripts/build_circle_layers.py]
    and the ranking entry point [quanzhong-skill/scripts/quanzhong_rank.py].

    Modelling conventions.
    - Python floats are modelled by exact rationals [Q]; rounding error is
      not modelled.  [Qred] only normalises the representation of a stored
      value (it does not change it up to [==]) and keeps iterated
      computations small.
    - A Python [dict] keyed by strings is a [gmap string _]; a Python [set]
      of strings is a [gset string].
    - Python strings are ASCII [string]s; [strip], [lower] and [upper] act on
      ASCII as the Python methods do on ASCII text.
    - A JSON field that is absent or [null] is [None]; a present string is
      [Some s] (its truthiness is [s <> ""]). *)

From Stdlib Require Import QArith Qabs Qround Qminmax Lqa Ascii String Sorted Permutation.
From stdpp Require Import base gmap strings list.

Local Open Scope Q_scope.

(* ------------------------------------------------------------------ *)
(** ** Python helpers *)

Module Py.

(** Python truthiness of an optional string field: [a or b]. *)
Definition or_str (a b : option string) : option string :=
  match a with
  | Some s => if String.eqb s "" then b else a
  | None => b
  end.

(** [str(x or "")] for an optional string field. *)
Definition str_or_empty (a : option string) : string :=
  match a with Some s => s | None => "" end.

(** [str.isspace()] on an ASCII character. *)
Definition is_space (c : Ascii.ascii) : bool :=
  match Ascii.nat_of_ascii c with
  | 9 | 10 | 11 | 12 | 13 | 28 | 29 | 30 | 31 | 32 => true
  | _ => false
  end%nat.

(** The ASCII whitespace that [int(str)] and [float(str)] skip around the
    number (the separators 28-31 are not among it). *)
Definition is_num_space (c : Ascii.ascii) : bool :=
  match Ascii.nat_of_ascii c with
  | 9 | 10 | 11 | 12 | 13 | 32 => true
  | _ => false
  end%nat.

Fixpoint lstrip_with (sp : Ascii.ascii -> bool) (s : string) : string :=
  match s with
  | String.String c r => if sp c then lstrip_with sp r else s
  | String.EmptyString => String.EmptyString
  end.

Definition rstrip_with (sp : Ascii.ascii -> bool) (s : string) : string :=
  String.string_of_list_ascii
    (rev (String.list_ascii_of_string (lstrip_with sp
      (String.string_of_list_ascii (rev (String.list_ascii_of_string s)))))).

Definition strip_with (sp : Ascii.ascii -> bool) (s : string) : string :=
  rstrip_with sp (lstrip_with sp s).

(** [str.strip()] *)
Definition strip (s : string) : string := strip_with is_space s.

(** The stripping done by [int(str)] and [float(str)]. *)
Definition num_strip (s : string) : string := strip_with is_num_space s.

Definition lower_char (c : Ascii.ascii) : Ascii.ascii :=
  let n := Ascii.nat_of_ascii c in
  if (65 <=? n)%nat && (n <=? 90)%nat then Ascii.ascii_of_nat (n + 32) else c.


Fixpoint map_chars (f : Ascii.ascii -> Ascii.ascii) (s : string) : string :=
  match s with
  | String.String c r => String.String (f c) (map_chars f r)
  | String.EmptyString => String.EmptyString
  end.

(** [str.lower()] and [str.upper()] *)
Definition lower (s : string) : string := map_chars lower_char s.

(** [min(values)] on a non-empty list: the running minimum is replaced
    when a strictly smaller value is met. *)
Fixpoint min_from (cur : Q) (l : list Q) : Q :=
  match l with
  | [] => cur
  | v :: r => min_from (if Qlt_le_dec v cur then v else cur) r
  end.

(** [max(values)] on a non-empty list. *)
Fixpoint max_from (cur : Q) (l : list Q) : Q :=
  match l with
  | [] => cur
  | v :: r => max_from (if Qlt_le_dec cur v then v else cur) r
  end.

(** [sum(values)] *)
Definition sum (l : list Q) : Q := fold_right Qplus 0 l.

End Py.

(* ------------------------------------------------------------------ *)
(** ** Normaliser: [_minmax] (quanzhong_model.py) and [minmax]
    (build_circle_layers.py); the two bodies are identical. *)

Definition minmax (values : list Q) : list Q :=
  match values with
  | [] => []
  | v0 :: rest =>
      let lo := Py.min_from v0 rest in
      let hi := Py.max_from v0 rest in
      if Qle_bool hi lo then map (fun _ => 0) values
      else map (fun v => (v - lo) / (hi - lo)) values
  end.

(* ------------------------------------------------------------------ *)
(** ** PageRank: [_pagerank] (quanzhong_model.py) and [pagerank]
    (build_circle_layers.py); the two bodies are identical. *)

(** [{k: v for k in keys}] *)
Definition dict_const (keys : list string) (v : Q) : gmap string Q :=
  fold_left (fun m k => <[k := v]> m) keys ∅.

(** [m[k] = m.get(k, d) + c]; with [d] irrelevant this is also
    [m[k] += c] on a key that is present. *)
Definition add_at (m : gmap string Q) (k : string) (d c : Q) : gmap string Q :=
  <[k := Qred (default d (m !! k) + c)]> m.

(** The visit of one [src] in an iteration: it spreads
    [damping * pr[src]] over its out-set, or over all nodes when it has
    none.  [pr[src]] is always present, since [pr] has every node id as a
    key. *)
Definition pagerank_visit (node_ids : list string) (out_map : gmap string (gset string))
    (damping base : Q) (pr : gmap string Q) (nxt : gmap string Q) (src : string)
    : gmap string Q :=
  let n := length node_ids in
  let outs := default ∅ (out_map !! src) in
  let p := default 0 (pr !! src) in
  if decide (outs = ∅) then
    let share := damping * p / inject_Z (Z.of_nat n) in
    fold_left (fun nxt dst => add_at nxt dst 0 share) node_ids nxt
  else
    let share := damping * p / inject_Z (Z.of_nat (size outs)) in
    fold_left (fun nxt dst => add_at nxt dst base share) (elements outs) nxt.

(** One iteration: [nxt] starts at [base] on every node, then every [src]
    is visited in list order. *)
Definition pagerank_step (node_ids : list string) (out_map : gmap string (gset string))
    (damping base : Q) (pr : gmap string Q) : gmap string Q :=
  fold_left (pagerank_visit node_ids out_map damping base pr)
    node_ids (dict_const node_ids base).

Definition pagerank (node_ids : list string) (out_map : gmap string (gset string))
    (damping : Q) (iterations : nat) : gmap string Q :=
  let n := length node_ids in
  if decide (n = 0%nat) then ∅
  else
    let base := Qred ((1 - damping) / inject_Z (Z.of_nat n)) in
    let pr := dict_const node_ids (Qred (1 / inject_Z (Z.of_nat n))) in
    Nat.iter iterations (pagerank_step node_ids out_map damping base) pr.

(** The call with the default arguments [damping=0.85, iterations=30]. *)
Definition pagerank_default (node_ids : list string) (out_map : gmap string (gset string))
    : gmap string Q :=
  pagerank node_ids out_map (85 # 100) 30.

(* ------------------------------------------------------------------ *)
(** ** Python floats *)

(** A Python float: a finite value, kept as a rational, an infinity, or
    NaN.  The sign of a zero is not kept; no modelled code looks at it. *)
Inductive PyFloat :=
| Fin (q : Q)
| PosInf
| NegInf
| NaN.

(** [2^e] for an integer [e]. *)
Definition pow2 (e : Z) : Q :=
  if (0 <=? e)%Z then inject_Z (2 ^ e) else / inject_Z (2 ^ (- e)).

(** The integer nearest to [y], ties to even. *)
Definition round_half_even (y : Q) : Z :=
  let f := Qfloor y in
  let r := y - inject_Z f in
  if Qlt_le_dec r (1 # 2) then f
  else if Qlt_le_dec (1 # 2) r then (f + 1)%Z
  else if Z.even f then f else (f + 1)%Z.

(** [floor(log2 x)] for [x > 0]. *)
Definition qlog2_floor (x : Q) : Z :=
  let k := (Z.log2 (Qnum x) - Z.log2 (Zpos (Qden x)))%Z in
  if Qle_bool (pow2 k) x then k else (k - 1)%Z.

(** Rounding of a positive rational to binary64, to nearest with ties to
    even: a 53-bit significand at the exponent of [x], exponents going down
    to the subnormal step [2^-1074]; a result of [2^1024] or more overflows
    to infinity. *)
Definition round_pos (x : Q) : PyFloat :=
  let e := Z.max (-1074) (qlog2_floor x - 52) in
  let v := inject_Z (round_half_even (x / pow2 e)) * pow2 e in
  if Qle_bool (pow2 1024) v then PosInf else Fin (Qred v).

(** The binary64 value nearest to [x] (the rounding of [float()] on a
    decimal text or an int, and of each IEEE operation). *)
Definition round64 (x : Q) : PyFloat :=
  let x := Qred x in
  match Qcompare x 0 with
  | Eq => Fin 0
  | Gt => round_pos x
  | Lt => match round_pos (- x) with
          | Fin v => Fin (- v)
          | PosInf => NegInf
          | f => f
          end
  end.

(** Arithmetic on floats.  Finite operands give the exact result, as
    everywhere in this development; infinities and NaN follow IEEE 754. *)
Definition fneg (a : PyFloat) : PyFloat :=
  match a with
  | Fin x => Fin (- x)
  | PosInf => NegInf
  | NegInf => PosInf
  | NaN => NaN
  end.

Definition fadd (a b : PyFloat) : PyFloat :=
  match a, b with
  | NaN, _ | _, NaN => NaN
  | PosInf, NegInf | NegInf, PosInf => NaN
  | PosInf, _ | _, PosInf => PosInf
  | NegInf, _ | _, NegInf => NegInf
  | Fin x, Fin y => Fin (Qred (x + y))
  end.

Definition fsub (a b : PyFloat) : PyFloat := fadd a (fneg b).

(** A finite [x] times an infinity [i]. *)
Definition inf_times (x : Q) (i : PyFloat) : PyFloat :=
  match Qcompare x 0 with
  | Eq => NaN
  | Gt => i
  | Lt => fneg i
  end.

Definition fmul (a b : PyFloat) : PyFloat :=
  match a, b with
  | NaN, _ | _, NaN => NaN
  | Fin x, Fin y => Fin (Qred (x * y))
  | Fin x, _ => inf_times x b
  | _, Fin y => inf_times y a
  | PosInf, PosInf | NegInf, NegInf => PosInf
  | _, _ => NegInf
  end.

(** [a / b].  Python raises [ZeroDivisionError] for a zero divisor; the one
    division modelled, in [minmax], never has one (it divides by
    [hi - lo] only when [hi > lo]), and NaN stands in for it. *)
Definition fdiv (a b : PyFloat) : PyFloat :=
  match a, b with
  | NaN, _ | _, NaN => NaN
  | Fin x, Fin y => if Qeq_bool y 0 then NaN else Fin (Qred (x / y))
  | Fin _, _ => Fin 0
  | _, Fin y => if Qeq_bool y 0 then NaN else inf_times y a
  | _, _ => NaN
  end.

(** The comparisons [<], [<=] and [==]: false as soon as NaN is involved. *)
Definition flt (a b : PyFloat) : bool :=
  match a, b with
  | NaN, _ | _, NaN => false
  | NegInf, NegInf | PosInf, PosInf => false
  | NegInf, _ | _, PosInf => true
  | PosInf, _ | _, NegInf => false
  | Fin x, Fin y => negb (Qle_bool y x)
  end.

Definition fle (a b : PyFloat) : bool :=
  match a, b with
  | NaN, _ | _, NaN => false
  | NegInf, _ | _, PosInf => true
  | PosInf, _ | _, NegInf => false
  | Fin x, Fin y => Qle_bool x y
  end.

Definition feq (a b : PyFloat) : bool :=
  match a, b with
  | Fin x, Fin y => Qeq_bool x y
  | PosInf, PosInf | NegInf, NegInf => true
  | _, _ => false
  end.

Definition is_fin (a : PyFloat) : bool :=
  match a with Fin _ => true | _ => false end.

(** The value of a finite float ([0] for the others, never used on them). *)
Definition fin_val (a : PyFloat) : Q :=
  match a with Fin q => q | _ => 0 end.

(** [min(values)] and [max(values)] on floats: the running value is
    replaced when a strictly smaller (larger) value is met; a NaN is never
    met that way, but a NaN in first place stays. *)
Fixpoint fmin_from (cur : PyFloat) (l : list PyFloat) : PyFloat :=
  match l with
  | [] => cur
  | v :: r => fmin_from (if flt v cur then v else cur) r
  end.

Fixpoint fmax_from (cur : PyFloat) (l : list PyFloat) : PyFloat :=
  match l with
  | [] => cur
  | v :: r => fmax_from (if flt cur v then v else cur) r
  end.

(** [minmax] of build_circle_layers.py on float values. *)
Definition minmax_f (values : list PyFloat) : list PyFloat :=
  match values with
  | [] => []
  | v0 :: rest =>
      let lo := fmin_from v0 rest in
      let hi := fmax_from v0 rest in
      if fle hi lo then map (fun _ => Fin 0) values
      else map (fun v => fdiv (fsub v lo) (fsub hi lo)) values
  end.

(* ------------------------------------------------------------------ *)
(** ** Raw graph records *)

(** A raw link endpoint: a bare string, a JSON object from which [id],
    [handle] or [name] is taken, or JSON [null]. *)
Inductive EVal :=
| EStr (s : string)
| EObj (id handle name : option string)
| ENull.

(** A raw link [weight] field (used only by build_circle_layers.py): a JSON
    integer, a JSON float as [json.load] reads it (NaN and the infinities
    included), a string, a boolean, [null], or a list or dict. *)
Inductive WVal :=
| WInt (z : Z)
| WFloat (f : PyFloat)
| WStr (s : string)
| WBool (b : bool)
| WNull
| WOther.

(** A raw link: a JSON object with optional [source], [target] and
    [weight] fields, or any other JSON value. *)
Inductive LinkVal :=
| LinkDict (source target : option EVal) (weight : option WVal)
| LinkOther.

(** The node fields the modelled code reads. *)
Record Node := mkNode {
  n_id : option string;
  n_handle : option string;
  n_name : option string;
}.

(** A raw node: a JSON object or any other JSON value. *)
Inductive NodeVal :=
| NodeDict (nd : Node)
| NodeOther.

(** [endpoint(value)] *)
Definition endpoint (v : option EVal) : string :=
  match v with
  | Some (EObj i h nm) =>
      match Py.or_str i (Py.or_str h nm) with
      | Some s => if String.eqb s "" then "" else Py.strip s
      | None => ""
      end
  | Some (EStr s) => Py.strip s
  | Some ENull | None => ""
  end.

(** [str(node.get("id") or node.get("handle") or "").strip()] *)
Definition node_key (nd : Node) : string :=
  Py.strip (Py.str_or_empty (Py.or_str (n_id nd) (n_handle nd))).

(** The node loop shared by [compute_quanzhong_metrics] and [build_layers]:
    non-dict records and records without a key are skipped; a repeated key
    is appended again to [node_ids] and overwrites [node_map]. *)
Definition index_nodes (nodes : list NodeVal) : list string * gmap string Node :=
  fold_left
    (fun '(node_ids, node_map) nv =>
       match nv with
       | NodeDict nd =>
           let nid := node_key nd in
           if String.eqb nid "" then (node_ids, node_map)
           else (node_ids ++ [nid], <[nid := nd]> node_map)
       | NodeOther => (node_ids, node_map)
       end)
    nodes ([], ∅).

(** The resolved endpoints of a raw link; [None] for a non-dict link. *)
Definition link_endpoints (l : LinkVal) : option (string * string) :=
  match l with
  | LinkDict src tgt _ => Some (endpoint src, endpoint tgt)
  | LinkOther => None
  end.

(** The acceptance test: both endpoints non-empty, no self-loop, both
    endpoints known node ids. *)
Definition accept_pair (node_map : gmap string Node) (p : string * string) : bool :=
  let '(s, t) := p in
  negb (String.eqb s "") && negb (String.eqb t "") && negb (String.eqb s t)
  && bool_decide (is_Some (node_map !! s)) && bool_decide (is_Some (node_map !! t)).

Definition accept (node_map : gmap string Node) (l : LinkVal) : option (string * string) :=
  match link_endpoints l with
  | Some p => if accept_pair node_map p then Some p else None
  | None => None
  end.

(** [m[k].add(v)] on a [defaultdict(set)]. *)
Definition set_add (m : gmap string (gset string)) (k v : string) : gmap string (gset string) :=
  <[k := {[ v ]} ∪ default ∅ (m !! k)]> m.

(** State of the link loop of [compute_quanzhong_metrics]:
    [out_map], [in_map] and [link_pairs]. *)
Record LinkState := mkLinkState {
  ls_out : gmap string (gset string);
  ls_in : gmap string (gset string);
  ls_pairs : list (string * string);
}.

(** Lines 149-163 of quanzhong_model.py. *)
Definition quanzhong_links (node_map : gmap string Node) (links : list LinkVal) : LinkState :=
  fold_left
    (fun st l =>
       match accept node_map l with
       | Some (s, t) =>
           mkLinkState (set_add (ls_out st) s t) (set_add (ls_in st) t s)
                       (ls_pairs st ++ [(s, t)])
       | None => st
       end)
    links (mkLinkState ∅ ∅ []).

(** Cross-follow signal (lines 190-193): one count per accepted raw link
    whose reverse edge exists. *)
Definition reciprocal_counts (node_ids : list string) (out_map : gmap string (gset string))
    (link_pairs : list (string * string)) : gmap string nat :=
  fold_left
    (fun rc '(s, t) =>
       if decide (s ∈ default ∅ (out_map !! t))
       then <[s := S (default 0%nat (rc !! s))]> rc else rc)
    link_pairs
    (fold_left (fun m k => <[k := 0%nat]> m) node_ids ∅).

(** [_jaccard(a, b)] *)
Definition jaccard (a b : gset string) : Q :=
  if bool_decide (a = ∅) && bool_decide (b = ∅) then 0
  else
    let union := a ∪ b in
    if decide (union = ∅) then 0
    else inject_Z (Z.of_nat (size (a ∩ b))) / inject_Z (Z.of_nat (size union)).

(** Python's [round(x, 6)] on the exact value: nearest multiple of
    [10^-6], ties to even. *)
Definition round6 (x : Q) : Q :=
  let y := x * inject_Z 1000000 in
  let f := Qfloor y in
  let r := y - inject_Z f in
  let z := if Qlt_le_dec r (1 # 2) then f
           else if Qlt_le_dec (1 # 2) r then (f + 1)%Z
           else if Z.even f then f else (f + 1)%Z in
  inject_Z z / inject_Z 1000000.

(** A weighted link record. *)
Record WLink := mkWLink {
  wl_source : string;
  wl_target : string;
  wl_weight : Q;
  wl_structural : Q;
  wl_semantic_similarity : Q;
  wl_reciprocal : Z;
}.

(** The per-edge computation of lines 202-209: the record and the unrounded
    [edge_weight] added to both endpoints' weighted degree. *)
Definition edge_record (out_map in_map token_map : gmap string (gset string))
    (p : string * string) : WLink * Q :=
  let '(s, t) := p in
  let reciprocal := if decide (s ∈ default ∅ (out_map !! t)) then 1 else 0 in
  let shared_out := jaccard (default ∅ (out_map !! s)) (default ∅ (out_map !! t)) in
  let shared_in := jaccard (default ∅ (in_map !! s)) (default ∅ (in_map !! t)) in
  let semantic_sim := jaccard (default ∅ (token_map !! s)) (default ∅ (token_map !! t)) in
  let structural := 0.50 * reciprocal + 0.25 * shared_out + 0.25 * shared_in in
  let edge_weight := 0.65 * structural + 0.35 * semantic_sim in
  let edge_weight := Qmax 0.02 (Qmin 1.0 edge_weight) in
  (mkWLink s t (round6 edge_weight) (round6 structural) (round6 semantic_sim)
     (if decide (s ∈ default ∅ (out_map !! t)) then 1%Z else 0%Z),
   edge_weight).

(** Lines 199-222: the weighted link list and the weighted degree. *)
Definition weighted_stage (node_ids : list string) (out_map in_map token_map : gmap string (gset string))
    (link_pairs : list (string * string)) : list WLink * gmap string Q :=
  fold_left
    (fun '(wls, wd) '(s, t) =>
       let '(rec, w) := edge_record out_map in_map token_map (s, t) in
       (wls ++ [rec], add_at (add_at wd s 0 w) t 0 w))
    link_pairs ([], dict_const node_ids 0).

(* ------------------------------------------------------------------ *)
(** ** Decimal text *)

Module Dec.

Definition is_digit (c : Ascii.ascii) : bool :=
  let n := Ascii.nat_of_ascii c in (48 <=? n)%nat && (n <=? 57)%nat.


Definition digit_value (c : Ascii.ascii) : Z := Z.of_nat (Ascii.nat_of_ascii c) - 48.

(** The integer value of a run of digits. *)
Definition digits_value (ds : list Ascii.ascii) : Z :=
  fold_left (fun acc d => acc * 10 + digit_value d)%Z ds 0%Z.


End Dec.

(** [digitpart ::= digit (["_"] digit)*]: the digits after a first one, and
    the rest of the text. *)
Fixpoint digitpart_rest (l : list Ascii.ascii) : list Ascii.ascii * list Ascii.ascii :=
  match l with
  | c :: r =>
      if Dec.is_digit c then let '(ds, rest) := digitpart_rest r in (c :: ds, rest)
      else if Ascii.eqb c "_"%char then
        match r with
        | d :: r' => if Dec.is_digit d then let '(ds, rest) := digitpart_rest r' in (d :: ds, rest)
                     else ([], l)
        | [] => ([], l)
        end
      else ([], l)
  | [] => ([], [])
  end.

(** A [digitpart] at the start of the text: its digits and the rest. *)
Definition digitpart (l : list Ascii.ascii) : option (list Ascii.ascii * list Ascii.ascii) :=
  match l with
  | c :: r => if Dec.is_digit c then let '(ds, rest) := digitpart_rest r in Some (c :: ds, rest)
              else None
  | [] => None
  end.

(** [floatnumber ::= number [exponent]], [number ::= [digitpart] "." digitpart
    | digitpart ["."]], [exponent ::= ("e" | "E") [sign] digitpart], for the
    whole text: the integer digits, the fraction digits and the exponent. *)
Definition float_number (l : list Ascii.ascii) : option (list Ascii.ascii * list Ascii.ascii * Z) :=
  let mant :=
    match digitpart l with
    | Some (ip, "."%char :: r) =>
        match digitpart r with
        | Some (fp, r') => Some (ip, fp, r')
        | None => Some (ip, [], r)
        end
    | Some (ip, r) => Some (ip, [], r)
    | None =>
        match l with
        | "."%char :: r =>
            match digitpart r with
            | Some (fp, r') => Some ([], fp, r')
            | None => None
            end
        | _ => None
        end
    end in
  match mant with
  | Some (ip, fp, []) => Some (ip, fp, 0%Z)
  | Some (ip, fp, e :: r) =>
      if Ascii.eqb e "e"%char || Ascii.eqb e "E"%char then
        let '(esign, r) := match r with
                           | "-"%char :: r' => ((-1)%Z, r')
                           | "+"%char :: r' => (1%Z, r')
                           | _ => (1%Z, r)
                           end in
        match digitpart r with
        | Some (ed, []) => Some (ip, fp, (esign * Dec.digits_value ed)%Z)
        | _ => None
        end
      else None
  | None => None
  end.

(** The exact value of [ip.fp] times [10^e]. *)
Definition decimal_exp_value (ip fp : list Ascii.ascii) (e : Z) : Q :=
  let m := Dec.digits_value (ip ++ fp) in
  let k := (e - Z.of_nat (length fp))%Z in
  if (0 <=? k)%Z then inject_Z (m * 10 ^ k) else inject_Z m / inject_Z (10 ^ (- k)).

(** [float(s)] on a string: surrounding whitespace, an optional sign, then
    [inf], [infinity] or [nan] in any case, or a decimal number, rounded to
    binary64; [None] stands for the [ValueError] raised on any other text. *)
Definition py_float_str (s : string) : option PyFloat :=
  let l := String.list_ascii_of_string (Py.num_strip s) in
  let '(neg, l) := match l with
                   | "-"%char :: r => (true, r)
                   | "+"%char :: r => (false, r)
                   | _ => (false, l)
                   end in
  let word := Py.lower (String.string_of_list_ascii l) in
  if String.eqb word "inf" || String.eqb word "infinity" then Some (if neg then NegInf else PosInf)
  else if String.eqb word "nan" then Some NaN
  else
    match float_number l with
    | Some (ip, fp, e) =>
        let f := round64 (decimal_exp_value ip fp e) in
        Some (if neg then fneg f else f)
    | None => None
    end.

(* ------------------------------------------------------------------ *)
(** ** [to_int] (quanzhong_model.py, lines 59-77) *)



(** [int(x)] of a number: truncation toward zero. *)
Definition q_trunc (q : Q) : Z :=
  if Qle_bool 0 q then Qfloor q else Z.opp (Qfloor (- q)).












(** [w = lk.get("weight", 1.0)], [float(w)] with [1.0] on failure
    ([TypeError] for [null], a list or a dict, [ValueError] for a text that
    is no float, [OverflowError] for an int too large for a float), and
    [1.0] when [w <= 0], which is false for NaN. *)
Definition link_weight (w : option WVal) : PyFloat :=
  let f := match w with
           | None => Some (Fin 1)
           | Some (WInt z) => match round64 (inject_Z z) with
                              | Fin q => Some (Fin q)
                              | _ => None
                              end
           | Some (WFloat f) => Some f
           | Some (WStr s) => py_float_str s
           | Some (WBool b) => Some (Fin (if b then 1 else 0))
           | Some WNull | Some WOther => None
           end in
  match f with
  | Some f => if fle f (Fin 0) then Fin 1 else f
  | None => Fin 1
  end.

(** [d[k] += c] on a dict of floats whose key [k] is present. *)
Definition fadd_at (m : gmap string PyFloat) (k : string) (c : PyFloat) : gmap string PyFloat :=
  <[k := fadd (default (Fin 0) (m !! k)) c]> m.

(** State of the link loop of [build_layers]: [out_map], [in_map] and
    [weighted_degree]. *)
Record LayerState := mkLayerState {
  lay_out : gmap string (gset string);
  lay_in : gmap string (gset string);
  lay_wd : gmap string PyFloat;
}.

(** Lines 80-104 of build_circle_layers.py. *)
Definition layer_links (node_ids : list string) (node_map : gmap string Node)
    (links : list LinkVal) : LayerState :=
  fold_left
    (fun st l =>
       match accept node_map l, l with
       | Some (s, t), LinkDict _ _ wf =>
           let w := link_weight wf in
           mkLayerState (set_add (lay_out st) s t) (set_add (lay_in st) t s)
                        (fadd_at (fadd_at (lay_wd st) s w) t w)
       | _, _ => st
       end)
    links (mkLayerState ∅ ∅ (fold_left (fun m k => <[k := Fin 0]> m) node_ids ∅)).

(** Lines 106-109 of build_circle_layers.py: reciprocity counted over the
    out-sets. *)
Definition layer_reciprocal (node_ids : list string) (out_map : gmap string (gset string))
    : gmap string nat :=
  fold_left
    (fun rc s =>
       fold_left
         (fun rc t =>
            if decide (s ∈ default ∅ (out_map !! t))
            then <[s := S (default 0%nat (rc !! s))]> rc else rc)
         (elements (default ∅ (out_map !! s))) rc)
    node_ids
    (fold_left (fun m k => <[k := 0%nat]> m) node_ids ∅).

(** Removal of repeated raw links: a dict link whose resolved
    [(source, target)] pair was already met is dropped; other links are
    kept in order. *)
Fixpoint dedup_links_from (seen : list (string * string)) (links : list LinkVal) : list LinkVal :=
  match links with
  | [] => []
  | l :: r =>
      match link_endpoints l with
      | Some e => if decide (e ∈ seen) then dedup_links_from seen r
                  else l :: dedup_links_from (e :: seen) r
      | None => l :: dedup_links_from seen r
      end
  end.

Definition dedup_links (links : list LinkVal) : list LinkVal := dedup_links_from [] links.

(** The adjacency map built by [set_add] from a list of pairs. *)
Definition adj_from (m : gmap string (gset string)) (P : list (string * string))
    : gmap string (gset string) :=
  fold_left (fun m p => set_add m p.1 p.2) P m.

Definition swap_pair (p : string * string) : string * string := (p.2, p.1).

(** The quanzhong pipeline up to the weighted link stage, for a given token
    map. *)
Definition quanzhong_weighted (nodes : list NodeVal) (links : list LinkVal)
    (token_map : gmap string (gset string)) : list WLink * gmap string Q :=
  let '(node_ids, node_map) := index_nodes nodes in
  let st := quanzhong_links node_map links in
  weighted_stage node_ids (ls_out st) (ls_in st) token_map (ls_pairs st).

(* ------------------------------------------------------------------ *)
(** ** Indicator weights and grey relational analysis (quanzhong_model.py,
    lines 273-310)

    [ind_raw] holds the indicator columns in the order of [ind_names], each
    with one value per entry of [node_ids]; [wd] is the weighted degree per
    entry of [node_ids].  [sqrt] is [math.sqrt] as [statistics.pstdev] uses
    it; it is a parameter of the model, since the square root of a rational
    is in general not rational. *)

Definition q_len {A} (l : list A) : Q := inject_Z (Z.of_nat (length l)).

(** [statistics.fmean] on a non-empty list. *)
Definition fmean (vals : list Q) : Q := Py.sum vals / q_len vals.

(** [statistics.pvariance]: mean squared deviation from the mean. *)
Definition pvariance (vals : list Q) : Q :=
  let mu := fmean vals in
  Py.sum (map (fun x => (x - mu) * (x - mu)) vals) / q_len vals.

Definition pstdev (sqrt : Q -> Q) (vals : list Q) : Q := sqrt (pvariance vals).

(** Python's [1e-9]. *)
Definition eps9 : Q := 1 # 1000000000.

(** Lines 277-280: the coefficient of variation of one indicator. *)
Definition cv_of (sqrt : Q -> Q) (vals : list Q) : Q :=
  let avg := match vals with [] => 0 | _ => fmean vals end in
  let sd := if (1 <? length vals)%nat then pstdev sqrt vals else 0 in
  if Qlt_le_dec eps9 avg then sd / avg else 0.

(** Lines 281-285: [k_weight], in the order of [ind_names]. *)
Definition k_weights (sqrt : Q -> Q) (ind_norm : list (list Q)) : list Q :=
  let cvs := map (cv_of sqrt) ind_norm in
  let total_cv := Py.sum cvs in
  if Qle_bool total_cv eps9 then map (fun _ => 1 / q_len ind_norm) ind_norm
  else map (fun c => c / total_cv) cvs.

(** Lines 288-294: all deviations from the reference value 1. *)
Definition all_deltas (ind_norm : list (list Q)) : list Q :=
  concat (map (map (fun x => Qabs (1 - x))) ind_norm).

Definition delta_min (ind_norm : list (list Q)) : Q :=
  match all_deltas ind_norm with [] => 0 | d :: r => Py.min_from d r end.

Definition delta_max (ind_norm : list (list Q)) : Q :=
  let m := match all_deltas ind_norm with [] => 1 | d :: r => Py.max_from d r end in
  if Qle_bool m eps9 then 1 else m.

(** Line 302: the grey relational coefficient of one value. *)
Definition gamma (dmin dmax rho x : Q) : Q :=
  (dmin + rho * dmax) / (Qabs (1 - x) + rho * dmax).

(** Lines 300-304: [gamma_sum] of the node at position [i]. *)
Definition gamma_sum (kw : list Q) (ind_norm : list (list Q)) (dmin dmax rho : Q)
    (i : nat) : Q :=
  fold_left (fun acc '(w, col) => acc + w * gamma dmin dmax rho (nth i col 0))
    (combine kw ind_norm) 0.

Record GraOut := mkGraOut {
  k_weight : list Q;
  grey_relation : list Q;
  final_score : list Q
}.

(** Lines 273-310 from [ind_raw] and [wd]: the weights, and the grey
    relation and final score per position of [node_ids]. *)
Definition gra (sqrt : Q -> Q) (rho : Q) (ind_raw : list (list Q)) (wd : list Q) : GraOut :=
  let ind_norm := map minmax ind_raw in
  let kw := k_weights sqrt ind_norm in
  let dmin := delta_min ind_norm in
  let dmax := delta_max ind_norm in
  let wd_norm := minmax wd in
  let idx := seq 0 (length wd) in
  mkGraOut kw
    (map (gamma_sum kw ind_norm dmin dmax rho) idx)
    (map (fun i => 0.75 * gamma_sum kw ind_norm dmin dmax rho i + 0.25 * nth i wd_norm 0) idx).

(** A square root to six decimal places, rounded down: one admissible
    [sqrt] for evaluating the model on examples. *)
Definition qsqrt (x : Q) : Q :=
  inject_Z (Z.sqrt (Qfloor (x * inject_Z 1000000000000))) / inject_Z 1000000.

(* ------------------------------------------------------------------ *)
(** ** The ranking rows of [quanzhong_rank.py] *)

(** The scores [main] reads from [node_metrics] (lines 59-61). *)
Record RankMetrics := mkRankMetrics {
  m_quanzhong_score : Q;
  m_grey_relation : Q;
  m_association_weight : Q;
}.

(** The row fields that enter the sort key, with the row's [id] and
    [name]. *)
Record RankRow := mkRankRow {
  r_id : string;
  r_name : string;
  r_handle : string;
  r_quanzhong_score : Q;
  r_grey_relation : Q;
  r_association_weight : Q;
}.

(** Lines 46-71, for a list of dict records: a record without a key is
    skipped; every other record gives one row, a repeated key included;
    scores missing from [node_metrics] default to [0.0]. *)
Definition rank_rows (node_metrics : gmap string RankMetrics) (nodes : list Node) : list RankRow :=
  flat_map
    (fun node =>
       let nid := node_key node in
       if String.eqb nid "" then []
       else
         let m := node_metrics !! nid in
         [mkRankRow nid
            (Py.str_or_empty (Py.or_str (n_name node) (Some nid)))
            (Py.str_or_empty (Py.or_str (n_handle node) (Some nid)))
            (match m with Some m => m_quanzhong_score m | None => 0 end)
            (match m with Some m => m_grey_relation m | None => 0 end)
            (match m with Some m => m_association_weight m | None => 0 end)])
    nodes.

(** The sort key of lines 73-78. *)
Definition rank_key (r : RankRow) : Q * Q * Q * string :=
  (- r_quanzhong_score r, - r_grey_relation r, - r_association_weight r,
   Py.lower (r_handle r)).

(** Python's [<] on two keys: the first components that are not equal
    decide; floats compare by value, strings by character code. *)
Definition key_lt (k1 k2 : Q * Q * Q * string) : bool :=
  let '(a1, b1, c1, s1) := k1 in
  let '(a2, b2, c2, s2) := k2 in
  match Qcompare a1 a2 with
  | Lt => true
  | Gt => false
  | Eq =>
      match Qcompare b1 b2 with
      | Lt => true
      | Gt => false
      | Eq =>
          match Qcompare c1 c2 with
          | Lt => true
          | Gt => false
          | Eq => match String.compare s1 s2 with Lt => true | _ => false end
          end
      end
  end.

(** Two rows tie under the sort when neither key is below the other. *)
Definition rank_tie (r1 r2 : RankRow) : bool :=
  negb (key_lt (rank_key r1) (rank_key r2)) && negb (key_lt (rank_key r2) (rank_key r1)).

(* ------------------------------------------------------------------ *)
(** ** Stable sorting *)

(** [list.sort] and [sorted] with a key: Python's sort is stable, so its
    result is the stable sorted permutation, which insertion that places a
    new element after every element it is not below computes. *)
Fixpoint insert_by {A} (lt : A -> A -> bool) (x : A) (l : list A) : list A :=
  match l with
  | [] => [x]
  | y :: r => if lt x y then x :: l else y :: insert_by lt x r
  end.

Definition sort_by {A} (lt : A -> A -> bool) (l : list A) : list A :=
  fold_left (fun acc x => insert_by lt x acc) l [].

(** Python's [<] on floats. *)
Definition q_lt (a b : Q) : bool := negb (Qle_bool b a).

(* ------------------------------------------------------------------ *)
(** ** Circle layers: [build_layers] (build_circle_layers.py, lines 56-188) *)

(** [quantile_threshold(sorted_vals, q)] (lines 56-60). *)
Definition quantile_threshold (sorted_vals : list Q) (q : Q) : Q :=
  match sorted_vals with
  | [] => 0
  | _ =>
      let n := Z.of_nat (length sorted_vals) in
      let idx := q_trunc (inject_Z (n - 1) * q) in
      nth (Z.to_nat (Z.max 0 (Z.min (n - 1) idx))) sorted_vals 0
  end.

(** Python's [round(x, d)] on the exact value: nearest multiple of
    [10^-d], ties to even. *)
Definition round_digits (d : Z) (x : Q) : Q :=
  let y := x * inject_Z (10 ^ d) in
  let f := Qfloor y in
  let r := y - inject_Z f in
  let z := if Qlt_le_dec r (1 # 2) then f
           else if Qlt_le_dec (1 # 2) r then (f + 1)%Z
           else if Z.even f then f else (f + 1)%Z in
  inject_Z z / inject_Z (10 ^ d).

(** [{nid: v for nid, v in zip(node_ids, values)}] *)
Definition zip_dict (ks : list string) (vs : list Q) : gmap string Q :=
  fold_left (fun m kv => <[kv.1 := kv.2]> m) (combine ks vs) ∅.

(** The same for float values. *)
Definition zip_dict_f (ks : list string) (vs : list PyFloat) : gmap string PyFloat :=
  fold_left (fun m kv => <[kv.1 := kv.2]> m) (combine ks vs) ∅.

(** [round(x, 6)] on a float: an infinity or NaN is returned as it is. *)
Definition fround6 (f : PyFloat) : PyFloat :=
  match f with Fin q => Fin (round6 q) | _ => f end.

(** A row of [build_layers] before ranking (lines 130-143).  The scores
    that depend on the link weights are floats that may be infinite or
    NaN; the others are always finite. *)
Record LayerRow := mkLayerRow {
  lr_id : string;
  lr_name : string;
  lr_handle : string;
  lr_association : PyFloat;
  lr_centrality : Q;
  lr_influence : PyFloat;
  lr_weighted_degree : PyFloat;
  lr_cross_follow_ratio : Q;
  lr_pagerank : Q;
  lr_degree : nat;
  lr_bridge : nat;
}.

(** Lines 112-144: degree, bridge degree and cross-follow ratio, their
    min-max normalisations, and the association, centrality and influence
    of each entry of [node_ids], in that order. *)
Definition layer_score_rows (alpha beta : Q) (node_ids : list string)
    (node_map : gmap string Node) (st : LayerState) (rc : gmap string nat)
    (pr : gmap string Q) : list LayerRow :=
  let outs nid := default ∅ (lay_out st !! nid) in
  let ins nid := default ∅ (lay_in st !! nid) in
  let wdeg nid := default (Fin 0) (lay_wd st !! nid) in
  let deg nid := (size (ins nid) + size (outs nid))%nat in
  let bridge nid := size (outs nid ∖ ins nid) in
  let cross nid := inject_Z (Z.of_nat (default 0%nat (rc !! nid)))
                   / inject_Z (Z.of_nat (Nat.max 1 (size (outs nid)))) in
  let prv nid := default 0 (pr !! nid) in
  let norm (f : string -> Q) := zip_dict node_ids (minmax (map f node_ids)) in
  let wd_n := zip_dict_f node_ids (minmax_f (map wdeg node_ids)) in
  let cr_n := norm cross in
  let pr_n := norm prv in
  let deg_n := norm (fun nid => inject_Z (Z.of_nat (deg nid))) in
  let bri_n := norm (fun nid => inject_Z (Z.of_nat (bridge nid))) in
  map (fun nid =>
         let association := fadd (fmul (Fin 0.7) (default (Fin 0) (wd_n !! nid)))
                                 (Fin (0.3 * default 0 (cr_n !! nid))) in
         let centrality := 0.5 * default 0 (pr_n !! nid) + 0.35 * default 0 (deg_n !! nid)
                           + 0.15 * default 0 (bri_n !! nid) in
         let influence := fadd (fmul (Fin alpha) association) (Fin (beta * centrality)) in
         let '(name, handle) :=
           match node_map !! nid with
           | Some nd => (Py.str_or_empty (Py.or_str (n_name nd) (Some nid)),
                         Py.str_or_empty (Py.or_str (n_handle nd) (Some nid)))
           | None => (nid, nid)
           end in
         mkLayerRow nid name handle (fround6 association) (round6 centrality)
           (fround6 influence) (fround6 (wdeg nid)) (round6 (cross nid))
           (round_digits 8 (prv nid)) (deg nid) (bridge nid))
    node_ids.

(** The sort key of line 146, [(-influence_score, id)], compared as Python
    compares tuples: the ids decide when the scores are [==]. *)
Definition layer_row_lt (r1 r2 : LayerRow) : bool :=
  let a := fneg (lr_influence r1) in
  let b := fneg (lr_influence r2) in
  if feq a b then String.ltb (lr_id r1) (lr_id r2) else flt a b.

(** Lines 156-175: the layer of a score. *)
Definition layer_index_of (q80 q60 q40 q20 score : Q) : nat :=
  if Qle_bool q80 score then 1
  else if Qle_bool q60 score then 2
  else if Qle_bool q40 score then 3
  else if Qle_bool q20 score then 4
  else 5.

Definition layer_name (i : nat) : string :=
  match i with
  | 1 => "core"
  | 2 => "inner_core"
  | 3 => "middle_core"
  | 4 => "outer_core"
  | _ => "surface"
  end%nat.

(** A ranked row: the row, its [rank], [layer] and [layer_index]. *)
Record LayeredRow := mkLayeredRow {
  ly_row : LayerRow;
  ly_rank : nat;
  ly_layer : string;
  ly_layer_index : nat;
}.

(** The influence score of a row whose score is finite. *)
Definition infl (r : LayerRow) : Q := fin_val (lr_influence r).

(** The rows of [build_layers] before [rows.sort] (lines 63-144). *)
Definition layer_rows (alpha beta : Q) (nodes : list NodeVal) (links : list LinkVal) : list LayerRow :=
  let '(node_ids, node_map) := index_nodes nodes in
  let st := layer_links node_ids node_map links in
  let rc := layer_reciprocal node_ids (lay_out st) in
  let pr := pagerank_default node_ids (lay_out st) in
  layer_score_rows alpha beta node_ids node_map st rc pr.

(** [build_layers(nodes, links, alpha, beta)["nodes"]] (lines 63-188; the
    [model] and [layers] entries of the result are constants).  When an
    influence score is not finite, the result is [None]: the scores are
    then NaN (an infinity does not arise, see
    [layer_influence_finite_or_nan]), and [rows.sort] compares NaN keys,
    which makes the order depend on CPython's sorting algorithm; the model
    does not follow it there.  With finite scores the sort key is a strict
    weak order, and any stable sort, [sort_by] included, gives the one
    result of [rows.sort]. *)
Definition build_layers (alpha beta : Q) (nodes : list NodeVal) (links : list LinkVal)
    : option (list LayeredRow) :=
  let rows0 := layer_rows alpha beta nodes links in
  if forallb (fun r => is_fin (lr_influence r)) rows0 then
    let rows := sort_by layer_row_lt rows0 in
    let vals := sort_by q_lt (map infl rows) in
    let q80 := quantile_threshold vals 0.80 in
    let q60 := quantile_threshold vals 0.60 in
    let q40 := quantile_threshold vals 0.40 in
    let q20 := quantile_threshold vals 0.20 in
    Some (map (fun '(i, r) =>
                 let li := layer_index_of q80 q60 q40 q20 (infl r) in
                 mkLayeredRow r i (layer_name li) li)
            (combine (seq 1 (length rows)) rows))
  else None.

(* ------------------------------------------------------------------ *)
(** ** The ranking output of [quanzhong_rank.py] (lines 72-87) *)

(** A row of [top300] with its [rank]. *)
Record RankedRow := mkRankedRow {
  rk_row : RankRow;
  rk_rank : nat;
}.

(** Lines 72-81 and [rows[:300]] of line 87. *)
Definition top300 (node_metrics : gmap string RankMetrics) (nodes : list Node) : list RankedRow :=
  let rows := sort_by (fun r1 r2 => key_lt (rank_key r1) (rank_key r2)) (rank_rows node_metrics nodes) in
  firstn 300 (map (fun '(i, r) => mkRankedRow r i) (combine (seq 1 (length rows)) rows)).

(** [cross_follow_ratio] of [compute_quanzhong_metrics] (lines 194-197). *)
Definition quanzhong_cross_ratio (out_map : gmap string (gset string)) (rc : gmap string nat)
    (nid : string) : Q :=
  inject_Z (Z.of_nat (default 0%nat (rc !! nid)))
  / inject_Z (Z.of_nat (Nat.max 1 (size (default ∅ (out_map !! nid))))).

(** The records the node loop keeps (lines 138-147 of quanzhong_model.py,
    69-78 of build_circle_layers.py): dict records with a non-empty key. *)
Definition node_record (nv : NodeVal) : option Node :=
  match nv with
  | NodeDict nd => if String.eqb (node_key nd) "" then None else Some nd
  | NodeOther => None
  end.

(** The raw links accepted by the link loop of [build_layers] (lines
    85-104), with the weight each one adds to both endpoints. *)
Definition layer_link_weights (node_map : gmap string Node) (links : list LinkVal)
    : list (string * string * PyFloat) :=
  omap (fun l => match accept node_map l, l with
                 | Some (s, t), LinkDict _ _ wf => Some (s, t, link_weight wf)
                 | _, _ => None
                 end) links.

(** The sum of floats from [0.0], left to right, as repeated [+=]. *)
Definition fsum (l : list PyFloat) : PyFloat := fold_left fadd l (Fin 0).

(* ------------------------------------------------------------------ *)
(** ** Auxiliary definitions for the properties *)

(** The sort key of [build_layers] on rows whose influence is finite, on
    the rational scores. *)
Definition layer_row_lt_fin (r1 r2 : LayerRow) : bool :=
  if Qeq_bool (- infl r1) (- infl r2) then String.ltb (lr_id r1) (lr_id r2)
  else negb (Qle_bool (- infl r2) (- infl r1)).

(** Invariant of the iteration: every stored value is non-negative and
    every node id has a value of at least [b]. *)
Definition pr_inv (b : Q) (L : list string) (m : gmap string Q) : Prop :=
  (forall k v, m !! k = Some v -> 0 <= v)
  /\ (forall k, k ∈ L -> exists v, m !! k = Some v /\ b <= v).

(** Sum of the values of [m] at the keys [L]. *)
Definition sumL (L : list string) (m : gmap string Q) : Q :=
  Py.sum (map (fun k => default 0 (m !! k)) L).

(** The keys of [m] are exactly the elements of [L]. *)
Definition keys_exact (L : list string) (m : gmap string Q) : Prop :=
  forall k, is_Some (m !! k) <-> k ∈ L.

(** Two indicators over three nodes; node 0 is best on both. *)
Definition ex_ind_raw : list (list Q) := [[2; 1; 0]; [5; 0; 3]].
Definition ex_wd : list Q := [1; 0; 0.5].






(* ================================================================== *)
(** * Properties *)

(* ------------------------------------------------------------------ *)
(** ** Facts about [min] and [max] *)

Lemma min_from_le_cur (cur : Q) (l : list Q) : Py.min_from cur l <= cur.
Proof.
  revert cur; induction l as [|v r IH]; intros cur; simpl; [apply Qle_refl|].
  destruct (Qlt_le_dec v cur) as [Hlt|Hle].
  - eapply Qle_trans; [apply IH|]. apply Qlt_le_weak, Hlt.
  - apply IH.
Qed.

Lemma min_from_le (cur : Q) (l : list Q) (x : Q) :
  In x (cur :: l) -> Py.min_from cur l <= x.
Proof.
  revert cur; induction l as [|v r IH]; intros cur Hin; simpl.
  - destruct Hin as [<-|[]]. apply Qle_refl.
  - destruct Hin as [->|[->|Hin]].
    + destruct (Qlt_le_dec v x) as [Hlt|Hle].
      * eapply Qle_trans; [apply min_from_le_cur|]. apply Qlt_le_weak, Hlt.
      * apply min_from_le_cur.
    + destruct (Qlt_le_dec x cur) as [Hlt|Hle]; [apply min_from_le_cur|].
      eapply Qle_trans; [apply min_from_le_cur|exact Hle].
    + destruct (Qlt_le_dec v cur); apply IH; now right.
Qed.

Lemma min_from_in (cur : Q) (l : list Q) : In (Py.min_from cur l) (cur :: l).
Proof.
  revert cur; induction l as [|v r IH]; intros cur; simpl; [now left|].
  destruct (Qlt_le_dec v cur).
  - right. apply IH.
  - destruct (IH cur) as [E|H]; [left; exact E|right; right; exact H].
Qed.

Lemma max_from_ge_cur (cur : Q) (l : list Q) : cur <= Py.max_from cur l.
Proof.
  revert cur; induction l as [|v r IH]; intros cur; simpl; [apply Qle_refl|].
  destruct (Qlt_le_dec cur v) as [Hlt|Hle].
  - eapply Qle_trans; [apply Qlt_le_weak, Hlt|]. apply IH.
  - apply IH.
Qed.

Lemma max_from_ge (cur : Q) (l : list Q) (x : Q) :
  In x (cur :: l) -> x <= Py.max_from cur l.
Proof.
  revert cur; induction l as [|v r IH]; intros cur Hin; simpl.
  - destruct Hin as [<-|[]]. apply Qle_refl.
  - destruct Hin as [->|[->|Hin]].
    + destruct (Qlt_le_dec x v) as [Hlt|Hle].
      * eapply Qle_trans; [apply Qlt_le_weak, Hlt|]. apply max_from_ge_cur.
      * apply max_from_ge_cur.
    + destruct (Qlt_le_dec cur x) as [Hlt|Hle]; [apply max_from_ge_cur|].
      eapply Qle_trans; [exact Hle|apply max_from_ge_cur].
    + destruct (Qlt_le_dec cur v); apply IH; now right.
Qed.

Lemma max_from_in (cur : Q) (l : list Q) : In (Py.max_from cur l) (cur :: l).
Proof.
  revert cur; induction l as [|v r IH]; intros cur; simpl; [now left|].
  destruct (Qlt_le_dec cur v).
  - right. apply IH.
  - destruct (IH cur) as [E|H]; [left; exact E|right; right; exact H].
Qed.

Lemma minmax_length (values : list Q) : length (minmax values) = length values.
Proof.
  destruct values as [|v0 rest]; [reflexivity|]. unfold minmax.
  destruct (Qle_bool _ _); now rewrite length_map.
Qed.

Lemma Qle_bool_false (x y : Q) : Qle_bool x y = false -> y < x.
Proof.
  intros E. apply Qnot_le_lt. intros H. apply Qle_bool_iff in H. congruence.
Qed.

Lemma scale_bounds (lo hi v : Q) :
  lo < hi -> lo <= v -> v <= hi -> 0 <= (v - lo) / (hi - lo) <= 1.
Proof.
  intros Hlt H1 H2. assert (Hp : 0 < hi - lo) by lra. split.
  - apply Qle_shift_div_l; [exact Hp|]. lra.
  - apply Qle_shift_div_r; [exact Hp|]. lra.
Qed.

(** Every output of [minmax] lies in [0, 1]. *)
Lemma minmax_bounds (values : list Q) :
  Forall (fun z => 0 <= z <= 1) (minmax values).
Proof.
  destruct values as [|v0 rest]; [constructor|]. unfold minmax.
  destruct (Qle_bool _ _) eqn:E.
  - apply List.Forall_forall. intros z Hz. apply in_map_iff in Hz as [? [<- _]].
    split; [apply Qle_refl|]. discriminate.
  - apply Qle_bool_false in E.
    apply List.Forall_forall. intros z Hz. apply in_map_iff in Hz as [v [<- Hv]].
    apply scale_bounds; [exact E|apply min_from_le, Hv|apply max_from_ge, Hv].
Qed.

Lemma minmax_nonconstant (values : list Q) :
  (exists x y, In x values /\ In y values /\ ~ x == y) ->
  (exists z, In z (minmax values) /\ z == 0)
  /\ (exists z, In z (minmax values) /\ z == 1).
Proof.
  intros (x & y & Hx & Hy & Hxy).
  destruct values as [|v0 rest]; [destruct Hx|].
  set (lo := Py.min_from v0 rest). set (hi := Py.max_from v0 rest).
  assert (Hlt : lo < hi).
  { apply Qnot_le_lt. intros Hle. apply Hxy.
    pose proof (min_from_le v0 rest x Hx). pose proof (max_from_ge v0 rest x Hx).
    pose proof (min_from_le v0 rest y Hy). pose proof (max_from_ge v0 rest y Hy).
    subst lo hi. lra. }
  assert (Hm : minmax (v0 :: rest) = map (fun v => (v - lo) / (hi - lo)) (v0 :: rest)).
  { unfold minmax. fold lo hi. destruct (Qle_bool hi lo) eqn:E; [|reflexivity].
    apply Qle_bool_iff in E. lra. }
  rewrite Hm. split.
  - exists ((lo - lo) / (hi - lo)). split.
    + apply (in_map (fun v => (v - lo) / (hi - lo))), min_from_in.
    + field. lra.
  - exists ((hi - lo) / (hi - lo)). split.
    + apply (in_map (fun v => (v - lo) / (hi - lo))), max_from_in.
    + field. lra.
Qed.

(** C7 (normaliser contract).  For every list of rationals, [minmax]
    returns a list of the same length; the empty list gives the empty
    list; when [max <= min] every output is [0]; otherwise every output is
    [(v - min) / (max - min)]; and for a non-constant input some output is
    [0], some output is [1] and every output lies in [0, 1], so the output
    minimum is 0 and the output maximum is 1. *)
Theorem minmax_contract (values : list Q) :
  length (minmax values) = length values
  /\ (values = [] -> minmax values = [])
  /\ (forall v0 rest, values = v0 :: rest ->
       let lo := Py.min_from v0 rest in
       let hi := Py.max_from v0 rest in
       (hi <= lo -> minmax values = map (fun _ => 0) values)
       /\ (lo < hi -> minmax values = map (fun v => (v - lo) / (hi - lo)) values))
  /\ ((exists x y, In x values /\ In y values /\ ~ x == y) ->
       (exists z, In z (minmax values) /\ z == 0)
       /\ (exists z, In z (minmax values) /\ z == 1)
       /\ Forall (fun z => 0 <= z <= 1) (minmax values)).
Proof.
  split; [apply minmax_length|]. split; [now intros ->|]. split.
  - intros v0 rest -> lo hi. unfold minmax. fold lo hi. split.
    + intros Hle. apply Qle_bool_iff in Hle. now rewrite Hle.
    + intros Hlt. destruct (Qle_bool hi lo) eqn:E; [|reflexivity].
      apply Qle_bool_iff in E. lra.
  - intros Hnc. split; [apply minmax_nonconstant, Hnc|].
    split; [apply minmax_nonconstant, Hnc|apply minmax_bounds].
Qed.

(* ------------------------------------------------------------------ *)
(** ** PageRank: the teleport floor *)

Lemma dict_const_fold_lookup {A} (L : list string) (v : A) (m : gmap string A) (k : string) :
  fold_left (fun m k => <[k := v]> m) L m !! k
  = if decide (k ∈ L) then Some v else m !! k.
Proof.
  revert m; induction L as [|x L IH]; intros m; cbn [fold_left].
  - destruct (decide (k ∈ [])) as [H|H]; [set_solver|reflexivity].
  - rewrite IH. rewrite lookup_insert.
    destruct (decide (k ∈ L)), (decide (x = k)), (decide (k ∈ x :: L));
      subst; try reflexivity; set_solver.
Qed.

Lemma dict_const_lookup (L : list string) (v : Q) (k : string) :
  dict_const L v !! k = if decide (k ∈ L) then Some v else None.
Proof. unfold dict_const. rewrite dict_const_fold_lookup. now case_decide. Qed.

Lemma Qdiv_nonneg (a b : Q) : 0 <= a -> 0 <= b -> 0 <= a / b.
Proof.
  intros Ha Hb. unfold Qdiv. apply Qmult_le_0_compat; [exact Ha|].
  apply Qinv_le_0_compat, Hb.
Qed.

Lemma inject_nat_nonneg (n : nat) : 0 <= inject_Z (Z.of_nat n).
Proof. change 0 with (inject_Z 0). rewrite <- Zle_Qle. lia. Qed.

Lemma inject_nat_pos (n : nat) : (n <> 0)%nat -> 0 < inject_Z (Z.of_nat n).
Proof. intros H. change 0 with (inject_Z 0). rewrite <- Zlt_Qlt. lia. Qed.

Lemma add_at_inv (b : Q) (L : list string) (m : gmap string Q) (k : string) (d c : Q) :
  0 <= d -> 0 <= c -> pr_inv b L m -> pr_inv b L (add_at m k d c).
Proof.
  intros Hd Hc [Hnn Hfl]. unfold add_at. split.
  - intros k' v'. rewrite lookup_insert. case_decide.
    + intros [= <-]. rewrite Qred_correct.
      destruct (m !! k) as [v|] eqn:E; simpl.
      * pose proof (Hnn k v E). lra.
      * lra.
    + apply Hnn.
  - intros k' Hk'. rewrite lookup_insert. case_decide.
    + subst k'. destruct (Hfl k Hk') as (v & Hv & Hb).
      rewrite Hv. simpl. eexists; split; [reflexivity|].
      rewrite Qred_correct. lra.
    + apply Hfl, Hk'.
Qed.

Lemma fold_add_at_inv (b : Q) (L ks : list string) (m : gmap string Q) (d c : Q) :
  0 <= d -> 0 <= c -> pr_inv b L m ->
  pr_inv b L (fold_left (fun m k => add_at m k d c) ks m).
Proof.
  intros Hd Hc. revert m; induction ks as [|k ks IH]; intros m Hm; simpl; [exact Hm|].
  apply IH, add_at_inv; assumption.
Qed.

Lemma fold_left_invariant {A B : Type} (P : A -> Prop) (f : A -> B -> A) (l : list B) (a : A) :
  (forall acc x, In x l -> P acc -> P (f acc x)) -> P a -> P (fold_left f l a).
Proof.
  revert a; induction l as [|x l IH]; intros a Hf Ha; simpl; [exact Ha|].
  apply IH; [intros; apply Hf; [now right|assumption]|apply Hf; [now left|exact Ha]].
Qed.

Lemma visit_inv (L : list string) (out_map : gmap string (gset string)) (damping base : Q)
    (pr nxt : gmap string Q) (src : string) :
  0 <= damping -> 0 <= base -> (forall k v, pr !! k = Some v -> 0 <= v) ->
  pr_inv base L nxt -> pr_inv base L (pagerank_visit L out_map damping base pr nxt src).
Proof.
  intros Hdmp Hbase Hnn Hnxt.
  assert (Hp : 0 <= default 0 (pr !! src)).
  { destruct (pr !! src) eqn:E; simpl; [eapply Hnn; eauto|apply Qle_refl]. }
  unfold pagerank_visit. case_decide.
  - apply fold_add_at_inv; [apply Qle_refl| |exact Hnxt].
    apply Qdiv_nonneg; [apply Qmult_le_0_compat; auto|apply inject_nat_nonneg].
  - apply fold_add_at_inv; [exact Hbase| |exact Hnxt].
    apply Qdiv_nonneg; [apply Qmult_le_0_compat; auto|apply inject_nat_nonneg].
Qed.

Lemma step_inv (L : list string) (out_map : gmap string (gset string)) (damping base : Q)
    (pr : gmap string Q) :
  0 <= damping -> 0 <= base -> pr_inv base L pr ->
  pr_inv base L (pagerank_step L out_map damping base pr).
Proof.
  intros Hdmp Hbase [Hnn _]. unfold pagerank_step.
  apply fold_left_invariant.
  - intros acc src _ Hacc. apply visit_inv; assumption.
  - split.
    + intros k v. rewrite dict_const_lookup. case_decide; [intros [= <-]; exact Hbase|discriminate].
    + intros k Hk. rewrite dict_const_lookup. case_decide; [|contradiction].
      eexists; split; [reflexivity|apply Qle_refl].
Qed.

Lemma pagerank_inv (L : list string) (out_map : gmap string (gset string)) (damping : Q)
    (iterations : nat) :
  L <> [] -> 0 <= damping <= 1 ->
  pr_inv (Qred ((1 - damping) / inject_Z (Z.of_nat (length L)))) L
    (pagerank L out_map damping iterations).
Proof.
  intros HL Hd. unfold pagerank.
  assert (Hn : length L <> 0%nat) by (destruct L; simpl; congruence).
  case_decide; [contradiction|].
  pose proof (inject_nat_pos _ Hn) as Hpos.
  set (base := Qred ((1 - damping) / inject_Z (Z.of_nat (length L)))).
  assert (Hbase : 0 <= base).
  { unfold base. rewrite Qred_correct. apply Qdiv_nonneg; [lra|apply Qlt_le_weak, Hpos]. }
  induction iterations as [|it IH]; simpl.
  - split.
    + intros k v. rewrite dict_const_lookup. case_decide; [|discriminate].
      intros [= <-]. rewrite Qred_correct. apply Qdiv_nonneg; [lra|apply Qlt_le_weak, Hpos].
    + intros k Hk. rewrite dict_const_lookup. case_decide; [|contradiction].
      eexists; split; [reflexivity|]. unfold base. rewrite !Qred_correct.
      unfold Qdiv. apply Qmult_le_compat_r; [lra|].
      apply Qinv_le_0_compat, Qlt_le_weak, Hpos.
  - apply step_inv; [lra|exact Hbase|exact IH].
Qed.

(** C4 (PageRank teleport floor).  For every non-empty list of node ids
    and every out-adjacency map, every node's value in the mapping returned
    by PageRank with its defaults ([damping = 0.85], 30 iterations) is
    present and at least the teleport base [(1 - 0.85) / n]; in particular
    it is positive, also for a node with no outgoing edge. *)
Theorem pagerank_teleport_floor (node_ids : list string)
    (out_map : gmap string (gset string)) (nid : string) :
  node_ids <> [] -> nid ∈ node_ids ->
  exists v, pagerank_default node_ids out_map !! nid = Some v
    /\ (1 - 0.85) / inject_Z (Z.of_nat (length node_ids)) <= v
    /\ 0 < v.
Proof.
  intros HL Hnid. unfold pagerank_default.
  destruct (pagerank_inv node_ids out_map (85 # 100) 30 HL) as [_ Hfl].
  { split; discriminate. }
  destruct (Hfl nid Hnid) as (v & Hv & Hb). rewrite Qred_correct in Hb.
  exists v. split; [exact Hv|]. split; [exact Hb|].
  assert (Hn : length node_ids <> 0%nat) by (destruct node_ids; simpl; congruence).
  pose proof (inject_nat_pos _ Hn) as Hpos.
  eapply Qlt_le_trans; [|exact Hb].
  apply Qlt_shift_div_l; [exact Hpos|]. lra.
Qed.

(** Witness for C4: the four-node scenario [A -> B], [B -> A], [A -> C],
    [C -> D]; the sink [D] keeps at least its teleport floor. *)
Lemma pagerank_teleport_floor_witness :
  ["A"; "B"; "C"; "D"] <> [] /\ "D" ∈ ["A"; "B"; "C"; "D"] /\
  exists v, pagerank_default ["A"; "B"; "C"; "D"]
              {[ "A" := {[ "B"; "C" ]}; "B" := {[ "A" ]}; "C" := {[ "D" ]} ]} !! "D" = Some v
    /\ (1 - 0.85) / inject_Z (Z.of_nat 4) <= v /\ 0 < v.
Proof.
  split; [discriminate|]. split; [set_solver|].
  apply (pagerank_teleport_floor ["A"; "B"; "C"; "D"]); [discriminate|set_solver].
Defined.

(* ------------------------------------------------------------------ *)
(** ** PageRank: conservation of mass *)

Lemma sumL_insert_notin (L : list string) (m : gmap string Q) (k : string) (v : Q) :
  k ∉ L -> sumL L (<[k := v]> m) = sumL L m.
Proof.
  intros Hk. unfold sumL. f_equal. apply map_ext_in. intros x Hx.
  rewrite lookup_insert_ne; [reflexivity|]. intros ->. apply Hk, list_elem_of_In, Hx.
Qed.

Lemma sumL_cons (x : string) (L : list string) (m : gmap string Q) :
  sumL (x :: L) m = default 0 (m !! x) + sumL L m.
Proof. reflexivity. Qed.

Lemma sumL_add_at (L : list string) (m : gmap string Q) (k : string) (d c : Q) :
  NoDup L -> k ∈ L -> is_Some (m !! k) -> sumL L (add_at m k d c) == sumL L m + c.
Proof.
  intros Hnd Hk [v Hv]. induction L as [|x L IH]; [set_solver|].
  apply NoDup_cons in Hnd as [Hx Hnd]. rewrite !sumL_cons.
  destruct (decide (x = k)) as [->|Hne].
  - unfold add_at. rewrite lookup_insert_eq, sumL_insert_notin by exact Hx.
    rewrite Hv. simpl. rewrite Qred_correct. ring.
  - unfold add_at at 1. rewrite lookup_insert_ne by congruence.
    rewrite IH; [ring|exact Hnd|set_solver].
Qed.

Lemma add_at_keys (L : list string) (m : gmap string Q) (k : string) (d c : Q) :
  k ∈ L -> keys_exact L m -> keys_exact L (add_at m k d c).
Proof.
  intros Hk Hm k'. unfold add_at. rewrite lookup_insert. case_decide; [subst; split; auto|apply Hm].
Qed.

Lemma inject_S (n : nat) : inject_Z (Z.of_nat (S n)) == 1 + inject_Z (Z.of_nat n).
Proof. rewrite Nat2Z.inj_succ, <- Z.add_1_l, inject_Z_plus. reflexivity. Qed.

Lemma sumL_fold_add (L ks : list string) (m : gmap string Q) (d c : Q) :
  NoDup L -> NoDup ks -> (forall k, k ∈ ks -> k ∈ L) -> keys_exact L m ->
  sumL L (fold_left (fun m k => add_at m k d c) ks m)
    == sumL L m + inject_Z (Z.of_nat (length ks)) * c
  /\ keys_exact L (fold_left (fun m k => add_at m k d c) ks m).
Proof.
  intros HL. revert m; induction ks as [|k ks IH]; intros m Hks Hsub Hm; simpl.
  - split; [ring|exact Hm].
  - apply NoDup_cons in Hks as [_ Hks].
    assert (HkL : k ∈ L) by (apply Hsub; left).
    destruct (IH (add_at m k d c)) as [Hs Hk']; [exact Hks|set_solver|now apply add_at_keys|].
    split; [|exact Hk']. rewrite Hs, sumL_add_at; [|exact HL|exact HkL|now apply Hm].
    rewrite inject_S. ring.
Qed.

Lemma sumL_all (L : list string) (m : gmap string Q) (v : Q) :
  (forall k, k ∈ L -> m !! k = Some v) -> sumL L m == inject_Z (Z.of_nat (length L)) * v.
Proof.
  induction L as [|x L IH]; intros H; [reflexivity|].
  rewrite sumL_cons, (H x) by (left). simpl. rewrite IH by (intros; apply H; now right).
  rewrite inject_S. ring.
Qed.

Lemma dict_const_keys (L : list string) (v : Q) : keys_exact L (dict_const L v).
Proof.
  intros k. rewrite dict_const_lookup. case_decide; split; auto.
  - intros [? ?]; discriminate.
  - contradiction.
Qed.

Section Conservation.

Variable L : list string.
Variable out_map : gmap string (gset string).
Variables damping : Q.
Hypothesis HL_nodup : NoDup L.
Hypothesis HL_ne : L <> [].
(** Every target of the out-adjacency map is a node id. *)
Hypothesis HL_targets : forall s T t, out_map !! s = Some T -> t ∈ T -> t ∈ L.

Lemma length_nz : length L <> 0%nat.
Proof. destruct L; simpl; congruence. Qed.

Lemma visit_sum (base : Q) (pr nxt : gmap string Q) (src : string) :
  keys_exact L nxt ->
  sumL L (pagerank_visit L out_map damping base pr nxt src)
    == sumL L nxt + damping * default 0 (pr !! src)
  /\ keys_exact L (pagerank_visit L out_map damping base pr nxt src).
Proof.
  intros Hnxt. unfold pagerank_visit. case_decide as Hout.
  - destruct (sumL_fold_add L L nxt 0 (damping * default 0 (pr !! src)
      / inject_Z (Z.of_nat (length L)))) as [Hs Hk]; auto.
    split; [|exact Hk]. rewrite Hs.
    pose proof (inject_nat_pos _ length_nz). field. lra.
  - set (outs := default ∅ (out_map !! src)) in *.
    assert (Hsz : size outs <> 0%nat).
    { intros E. apply Hout. apply leibniz_equiv, size_empty_iff, E. }
    destruct (sumL_fold_add L (elements outs) nxt base (damping * default 0 (pr !! src)
      / inject_Z (Z.of_nat (size outs)))) as [Hs Hk]; auto.
    + apply NoDup_elements.
    + intros k Hk. apply elem_of_elements in Hk. unfold outs in Hk, Hout.
      destruct (out_map !! src) as [T|] eqn:E; simpl in *; [eapply HL_targets; eauto|set_solver].
    + split; [|exact Hk]. rewrite Hs.
      change (length (elements outs)) with (size outs).
      pose proof (inject_nat_pos _ Hsz). field. lra.
Qed.

Lemma step_sum (base : Q) (pr : gmap string Q) :
  sumL L (pagerank_step L out_map damping base pr)
    == inject_Z (Z.of_nat (length L)) * base + damping * sumL L pr
  /\ keys_exact L (pagerank_step L out_map damping base pr).
Proof.
  unfold pagerank_step.
  assert (Hgen : forall srcs nxt, keys_exact L nxt ->
    sumL L (fold_left (pagerank_visit L out_map damping base pr) srcs nxt)
      == sumL L nxt + damping * sumL srcs pr
    /\ keys_exact L (fold_left (pagerank_visit L out_map damping base pr) srcs nxt)).
  { intros srcs. induction srcs as [|src srcs IH]; intros nxt Hnxt; simpl.
    - split; [unfold sumL; simpl; ring|exact Hnxt].
    - destruct (visit_sum base pr nxt src Hnxt) as [Hs Hk].
      destruct (IH _ Hk) as [Hs' Hk']. split; [|exact Hk'].
      rewrite Hs', Hs, sumL_cons. ring. }
  destruct (Hgen L (dict_const L base) (dict_const_keys L base)) as [Hs Hk].
  split; [|exact Hk]. rewrite Hs, (sumL_all L (dict_const L base) base); [reflexivity|].
  intros k Hk'. rewrite dict_const_lookup. now case_decide.
Qed.

Lemma pagerank_sum (iterations : nat) :
  sumL L (pagerank L out_map damping iterations) == 1
  /\ keys_exact L (pagerank L out_map damping iterations).
Proof.
  unfold pagerank. case_decide as Hn; [exfalso; exact (length_nz Hn)|].
  pose proof (inject_nat_pos _ length_nz) as Hpos.
  induction iterations as [|it [IHs IHk]]; simpl.
  - split; [|apply dict_const_keys].
    rewrite (sumL_all L _ (Qred (1 / inject_Z (Z.of_nat (length L))))).
    + rewrite Qred_correct. field. lra.
    + intros k Hk. rewrite dict_const_lookup. now case_decide.
  - destruct (step_sum (Qred ((1 - damping) / inject_Z (Z.of_nat (length L))))
      (Nat.iter it (pagerank_step L out_map damping
         (Qred ((1 - damping) / inject_Z (Z.of_nat (length L)))))
         (dict_const L (Qred (1 / inject_Z (Z.of_nat (length L))))))) as [Hs Hk].
    split; [|exact Hk]. rewrite Hs, IHs, Qred_correct. field. lra.
Qed.

End Conservation.

(** C3 (PageRank mass, as the code guarantees it).  With no node ids
    PageRank returns the empty mapping.  For a non-empty list of distinct
    node ids and an out-adjacency map whose targets are all node ids (as the
    graph builder produces them from distinct node records), the returned
    mapping has exactly the node ids as keys and its values sum to exactly
    [1] in exact arithmetic, after the default 30 iterations with damping
    0.85. *)
Theorem pagerank_mass_conservation (node_ids : list string)
    (out_map : gmap string (gset string)) :
  (node_ids = [] -> pagerank_default node_ids out_map = ∅)
  /\ (node_ids <> [] -> NoDup node_ids ->
      (forall s T t, out_map !! s = Some T -> t ∈ T -> t ∈ node_ids) ->
      dom (pagerank_default node_ids out_map) = list_to_set node_ids
      /\ sumL node_ids (pagerank_default node_ids out_map) == 1).
Proof.
  split.
  - intros ->. reflexivity.
  - intros Hne Hnd Htgt. unfold pagerank_default.
    destruct (pagerank_sum node_ids out_map (0.85) Hnd Hne Htgt 30) as [Hs Hk].
    split; [|exact Hs].
    apply leibniz_equiv. intros k. rewrite elem_of_dom, elem_of_list_to_set. apply Hk.
Qed.

(** Counterexample for C3 as stated ("for every node list and every
    out-adjacency map").  (1) With node list [["a"]] and an out-map whose
    target ["b"] is not a node id, [nxt.get(dst, base)] creates the key
    ["b"]; the returned values are [0.15] and [0.2775] and sum to
    [0.4275].  (2) With the node list [["a"; "a"]] (two node records with
    the same id) and no edges, the dangling mass of ["a"] is added twice per
    visit and visited twice per iteration, and after 30 iterations the value
    of ["a"] exceeds one million. *)
Lemma pagerank_mass_conservation_counterexample :
  map_to_list (pagerank_default ["a"] {[ "a" := {[ "b" ]} ]})
    = [("a", 3 # 20); ("b", 111 # 400)]
  /\ Py.sum (map snd (map_to_list (pagerank_default ["a"] {[ "a" := {[ "b" ]} ]})))
       == 4275 # 10000
  /\ exists v, pagerank_default ["a"; "a"] ∅ !! "a" = Some v /\ 1000000 < v.
Proof.
  split; [vm_compute; reflexivity|]. split; [vm_compute; reflexivity|].
  eexists; split; [vm_compute; reflexivity|vm_compute; reflexivity].
Qed.

(* ------------------------------------------------------------------ *)
(** ** Graph builder: repeated raw links *)

Lemma quanzhong_links_spec (node_map : gmap string Node) (links : list LinkVal) :
  quanzhong_links node_map links =
  mkLinkState (adj_from ∅ (omap (accept node_map) links))
              (adj_from ∅ (map swap_pair (omap (accept node_map) links)))
              (omap (accept node_map) links).
Proof.
  unfold quanzhong_links. induction links as [|l links IH] using rev_ind; [reflexivity|].
  rewrite fold_left_app, IH. simpl. rewrite omap_app. simpl.
  destruct (accept node_map l) as [[s t]|]; simpl; rewrite ?app_nil_r; [|reflexivity].
  unfold adj_from. rewrite map_app, !fold_left_app. reflexivity.
Qed.

Lemma layer_links_adj (node_ids : list string) (node_map : gmap string Node)
    (links : list LinkVal) :
  lay_out (layer_links node_ids node_map links) = adj_from ∅ (omap (accept node_map) links)
  /\ lay_in (layer_links node_ids node_map links)
     = adj_from ∅ (map swap_pair (omap (accept node_map) links)).
Proof.
  unfold layer_links. induction links as [|l links IH] using rev_ind; [split; reflexivity|].
  rewrite fold_left_app, omap_app. destruct IH as [IHo IHi]. simpl.
  destruct (accept node_map l) as [[s t]|] eqn:E; simpl; rewrite ?app_nil_r.
  - destruct l as [src tgt wf|]; [|discriminate]. simpl.
    unfold adj_from. rewrite map_app, !fold_left_app. simpl.
    unfold adj_from in IHo, IHi. rewrite IHo, IHi. split; reflexivity.
  - destruct l; simpl; split; assumption.
Qed.

Lemma adj_from_spec (P : list (string * string)) (m : gmap string (gset string)) (s : string) :
  (adj_from m P !! s = None <-> m !! s = None /\ forall t, (s, t) ∉ P)
  /\ (forall T, adj_from m P !! s = Some T ->
       forall t, t ∈ T <-> t ∈ default ∅ (m !! s) \/ (s, t) ∈ P).
Proof.
  revert m. induction P as [|[a b] P IH]; intros m; simpl.
  - split; [split; [intros H; split; [exact H|set_solver]|intros [H _]; exact H]|].
    intros T HT t. rewrite HT. simpl. set_solver.
  - destruct (IH (set_add m a b)) as [IHn IHs]. unfold adj_from in *. simpl in *. split.
    + rewrite IHn. unfold set_add. rewrite lookup_insert. case_decide as Hs.
      * subst. split; [intros [H _]; discriminate|].
        intros [_ H]. exfalso. apply (H b). left.
      * split.
        -- intros [H1 H2]. split; [exact H1|]. intros t Ht.
           apply elem_of_cons in Ht as [Ht|Ht]; [congruence|exact (H2 t Ht)].
        -- intros [H1 H2]. split; [exact H1|]. intros t Ht. apply (H2 t). now right.
    + intros T HT t. rewrite (IHs T HT t). unfold set_add. rewrite lookup_insert.
      case_decide as Hs.
      * subst. simpl. rewrite elem_of_union, elem_of_singleton, elem_of_cons.
        split; [intros [[->|H]|H]; auto|intros [H|[H|H]]; auto].
        left; left. congruence.
      * rewrite elem_of_cons. split; [intros [H|H]; auto|intros [H|[H|H]]; auto].
        congruence.
Qed.

Lemma adj_from_equiv (P1 P2 : list (string * string)) :
  (forall p, p ∈ P1 <-> p ∈ P2) -> adj_from ∅ P1 = adj_from ∅ P2.
Proof.
  intros HP. apply map_eq. intros s.
  destruct (adj_from_spec P1 ∅ s) as [N1 S1]. destruct (adj_from_spec P2 ∅ s) as [N2 S2].
  destruct (adj_from ∅ P1 !! s) as [T1|] eqn:E1, (adj_from ∅ P2 !! s) as [T2|] eqn:E2.
  - f_equal. apply set_eq. intros t. rewrite (S1 T1 eq_refl t), (S2 T2 eq_refl t), HP.
    reflexivity.
  - exfalso. destruct (proj1 N2 eq_refl) as [_ H].
    assert (Hn : Some T1 = None).
    { apply N1. split; [reflexivity|]. intros t Ht. apply (H t), HP, Ht. }
    discriminate.
  - exfalso. destruct (proj1 N1 eq_refl) as [_ H].
    assert (Hn : Some T2 = None).
    { apply N2. split; [reflexivity|]. intros t Ht. apply (H t), HP, Ht. }
    discriminate.
  - reflexivity.
Qed.

Lemma accept_some (node_map : gmap string Node) (l : LinkVal) (p : string * string) :
  accept node_map l = Some p <-> link_endpoints l = Some p /\ accept_pair node_map p = true.
Proof.
  unfold accept. destruct (link_endpoints l) as [e|]; [|split; [discriminate|intros [? _]; discriminate]].
  destruct (accept_pair node_map e) eqn:E; split.
  - intros [= <-]. auto.
  - intros [[= <-] _]. reflexivity.
  - discriminate.
  - intros [[= <-] H]. congruence.
Qed.

Lemma omap_accept_mem (node_map : gmap string Node) (L : list LinkVal) (p : string * string) :
  p ∈ omap (accept node_map) L
  <-> (accept_pair node_map p = true /\ exists l, l ∈ L /\ link_endpoints l = Some p).
Proof.
  rewrite list_elem_of_omap. split.
  - intros (l & Hl & Ha). apply accept_some in Ha as [He Hp]. eauto.
  - intros (Hp & l & Hl & He). exists l. split; [exact Hl|]. apply accept_some. auto.
Qed.

Lemma dedup_from_endpoints (seen : list (string * string)) (L : list LinkVal) (e : string * string) :
  (exists l, l ∈ dedup_links_from seen L /\ link_endpoints l = Some e)
  <-> (e ∉ seen) /\ (exists l, l ∈ L /\ link_endpoints l = Some e).
Proof.
  revert seen. induction L as [|l L IH]; intros seen; simpl.
  - split; [intros (? & H & _); inversion H|intros (_ & ? & H & _); inversion H].
  - destruct (link_endpoints l) as [e0|] eqn:E0.
    + case_decide as Hin.
      * rewrite IH. split.
        -- intros [Hs (l' & Hl' & He)]. split; [exact Hs|]. exists l'. split; [right; exact Hl'|exact He].
        -- intros [Hs (l' & Hl' & He)]. split; [exact Hs|].
           apply elem_of_cons in Hl' as [->|Hl']; [congruence|eauto].
      * split.
        -- intros (l' & Hl' & He). apply elem_of_cons in Hl' as [->|Hl'].
           ++ rewrite E0 in He. injection He as <-. split; [exact Hin|]. exists l. split; [left|exact E0].
           ++ destruct (proj1 (IH (e0 :: seen)) (ex_intro _ l' (conj Hl' He))) as [Hs (l'' & H1 & H2)].
              split; [set_solver|]. exists l''. split; [right; exact H1|exact H2].
        -- intros [Hs (l' & Hl' & He)]. destruct (decide (e = e0)) as [->|Hne].
           ++ exists l. split; [left|exact E0].
           ++ apply elem_of_cons in Hl' as [->|Hl']; [congruence|].
              destruct (proj2 (IH (e0 :: seen))) as (l'' & H1 & H2).
              { split; [set_solver|]. eauto. }
              exists l''. split; [right; exact H1|exact H2].
    + split.
      * intros (l' & Hl' & He). apply elem_of_cons in Hl' as [->|Hl']; [congruence|].
        destruct (proj1 (IH seen) (ex_intro _ l' (conj Hl' He))) as [Hs (l'' & H1 & H2)].
        split; [exact Hs|]. exists l''. split; [right; exact H1|exact H2].
      * intros [Hs (l' & Hl' & He)]. apply elem_of_cons in Hl' as [->|Hl']; [congruence|].
        destruct (proj2 (IH seen)) as (l'' & H1 & H2); [eauto|].
        exists l''. split; [right; exact H1|exact H2].
Qed.

Lemma dedup_pairs_mem (node_map : gmap string Node) (L : list LinkVal) (p : string * string) :
  p ∈ omap (accept node_map) (dedup_links L) <-> p ∈ omap (accept node_map) L.
Proof.
  rewrite !omap_accept_mem. unfold dedup_links. rewrite dedup_from_endpoints. set_solver.
Qed.

Lemma dedup_pairs_nodup (node_map : gmap string Node) (seen : list (string * string))
    (L : list LinkVal) :
  NoDup (omap (accept node_map) (dedup_links_from seen L))
  /\ forall p, p ∈ omap (accept node_map) (dedup_links_from seen L) -> p ∉ seen.
Proof.
  revert seen. induction L as [|l L IH]; intros seen; simpl.
  - split; [constructor|intros p Hp; inversion Hp].
  - unfold accept at 1. destruct (link_endpoints l) as [e|] eqn:E.
    + case_decide as Hin; [apply IH|]. simpl. unfold accept at 1. rewrite E.
      destruct (IH (e :: seen)) as [Hnd Hnot].
      destruct (accept_pair node_map e).
      * split.
        -- apply NoDup_cons. split; [|exact Hnd]. intros He. apply (Hnot e He). left.
        -- intros p Hp. apply elem_of_cons in Hp as [->|Hp]; [exact Hin|].
           intros Hs. apply (Hnot p Hp). now right.
      * split; [exact Hnd|]. intros p Hp Hs. apply (Hnot p Hp). now right.
    + simpl. unfold accept at 1. rewrite E. apply IH.
Qed.

Lemma weighted_stage_links (node_ids : list string) (out_map in_map token_map : gmap string (gset string))
    (P : list (string * string)) :
  (weighted_stage node_ids out_map in_map token_map P).1
  = map (fun p => (edge_record out_map in_map token_map p).1) P.
Proof.
  unfold weighted_stage.
  enough (H : forall acc wd, (fold_left (fun '(wls, wd) '(s, t) =>
      let '(rec, w) := edge_record out_map in_map token_map (s, t) in
      (wls ++ [rec], add_at (add_at wd s 0 w) t 0 w)) P (acc, wd)).1
    = acc ++ map (fun p => (edge_record out_map in_map token_map p).1) P)
    by apply H.
  induction P as [|[s t] P IH]; intros acc wd; simpl; [now rewrite app_nil_r|].
  destruct (edge_record out_map in_map token_map (s, t)) as [r w] eqn:E.
  rewrite IH, <- app_assoc. reflexivity.
Qed.

(* ------------------------------------------------------------------ *)
(** ** Weighted degrees *)

Lemma sum_cons (x : Q) (l : list Q) : Py.sum (x :: l) = x + Py.sum l.
Proof. reflexivity. Qed.

Lemma sum_app (l1 l2 : list Q) : Py.sum (l1 ++ l2) == Py.sum l1 + Py.sum l2.
Proof.
  induction l1 as [|x l1 IH]; simpl app.
  - unfold Py.sum at 2. simpl. ring.
  - rewrite !sum_cons, IH. ring.
Qed.

Lemma accept_pair_true (node_map : gmap string Node) (s t : string) :
  accept_pair node_map (s, t) = true ->
  s <> t /\ is_Some (node_map !! s) /\ is_Some (node_map !! t).
Proof.
  unfold accept_pair. intros H.
  apply andb_prop in H as [H Ht]. apply andb_prop in H as [H Hs].
  apply andb_prop in H as [_ Hst].
  apply bool_decide_eq_true_1 in Hs, Ht.
  apply negb_true_iff, String.eqb_neq in Hst. auto.
Qed.

Lemma add_at_lookup (m : gmap string Q) (k : string) (d c : Q) (k' : string) :
  add_at m k d c !! k' = if decide (k = k') then Some (Qred (default d (m !! k) + c)) else m !! k'.
Proof.
  unfold add_at. case_decide as H.
  - subst. apply lookup_insert_eq.
  - apply lookup_insert_ne, H.
Qed.

Lemma omap_single {A B} (f : A -> option B) (x : A) :
  omap f [x] = match f x with Some y => [y] | None => [] end.
Proof. reflexivity. Qed.

Lemma add_at2_step (m : gmap string Q) (s t k : string) (w v1 : Q) :
  s <> t ->
  add_at (add_at m s 0 w) t 0 w !! k = Some v1 ->
  exists v0, default 0 (m !! k) = v0
    /\ v1 == v0 + (if String.eqb s k || String.eqb t k then w else 0).
Proof.
  intros Hst Hv. exists (default 0 (m !! k)). split; [reflexivity|].
  rewrite !add_at_lookup in Hv.
  destruct (decide (t = k)) as [<-|Htk].
  - injection Hv as <-. rewrite Qred_correct, decide_False by exact Hst.
    rewrite String.eqb_refl, orb_true_r. reflexivity.
  - rewrite (proj2 (String.eqb_neq t k) Htk), orb_false_r.
    destruct (decide (s = k)) as [<-|Hsk].
    + injection Hv as <-. rewrite Qred_correct, String.eqb_refl. reflexivity.
    + rewrite (proj2 (String.eqb_neq s k) Hsk). rewrite Hv. simpl. ring.
Qed.

(** Adding each edge weight to both endpoints, as lines 220-221 do. *)
Lemma degree_fold (ids : list string) (P : list (string * string * Q)) (m : gmap string Q) :
  keys_exact ids m ->
  (forall e, In e P -> e.1.1 ∈ ids /\ e.1.2 ∈ ids /\ e.1.1 <> e.1.2) ->
  let m' := fold_left (fun m e => add_at (add_at m e.1.1 0 e.2) e.1.2 0 e.2) P m in
  keys_exact ids m'
  /\ (forall k v, m' !! k = Some v ->
        v == default 0 (m !! k)
             + Py.sum (map (fun e => if String.eqb e.1.1 k || String.eqb e.1.2 k then e.2 else 0) P))
  /\ (NoDup ids -> sumL ids m' == sumL ids m + 2 * Py.sum (map snd P)).
Proof.
  revert m. induction P as [|e P IH]; intros m Hk HP; cbv zeta; cbn [fold_left].
  - split; [exact Hk|]. split.
    + intros k v Hv. rewrite Hv. unfold Py.sum. simpl. ring.
    + intros _. unfold Py.sum. simpl. ring.
  - destruct (HP e (or_introl eq_refl)) as (Hs & Ht & Hst).
    set (m1 := add_at (add_at m e.1.1 0 e.2) e.1.2 0 e.2).
    assert (Hk1 : keys_exact ids m1) by (apply add_at_keys; [exact Ht|apply add_at_keys; assumption]).
    destruct (IH m1 Hk1 (fun e' He' => HP e' (or_intror He'))) as (IH1 & IH2 & IH3).
    split; [exact IH1|]. split.
    + intros k v Hv. rewrite (IH2 k v Hv). simpl map. rewrite sum_cons.
      assert (Hin' : k ∈ ids).
      { destruct (decide (k ∈ ids)) as [Hin|Hin]; [exact Hin|].
        exfalso. assert (Hn : fold_left (fun m e => add_at (add_at m e.1.1 0 e.2) e.1.2 0 e.2) P m1 !! k = None).
        { apply eq_None_not_Some. intros Hs'. apply Hin, IH1, Hs'. }
        rewrite Hn in Hv. discriminate. }
      destruct (proj2 (Hk1 k) Hin') as [v1 Hv1].
      destruct (add_at2_step m e.1.1 e.1.2 k e.2 v1 Hst Hv1) as (v0 & Ev0 & E1).
      rewrite Hv1. simpl. rewrite E1, <- Ev0. ring.
    + intros Hnd. rewrite (IH3 Hnd). simpl map. rewrite sum_cons.
      unfold m1. rewrite sumL_add_at; [|exact Hnd|exact Ht|].
      * rewrite sumL_add_at; [ring|exact Hnd|exact Hs|apply Hk, Hs].
      * apply (add_at_keys ids m e.1.1 0 e.2 Hs Hk e.1.2), Ht.
Qed.

Lemma weighted_stage_degree (node_ids : list string) (out_map in_map token_map : gmap string (gset string))
    (P : list (string * string)) :
  (weighted_stage node_ids out_map in_map token_map P).2
  = fold_left (fun m e => add_at (add_at m e.1.1 0 e.2) e.1.2 0 e.2)
      (map (fun p => (p.1, p.2, (edge_record out_map in_map token_map p).2)) P)
      (dict_const node_ids 0).
Proof.
  unfold weighted_stage. generalize (dict_const node_ids 0) as wd. generalize (@nil WLink) at 2 as wls.
  induction P as [|[s t] P IH]; intros wls wd; [reflexivity|].
  cbn [fold_left map].
  destruct (edge_record out_map in_map token_map (s, t)) as [r w] eqn:E. apply IH.
Qed.

Lemma index_nodes_snoc (nodes : list NodeVal) (nv : NodeVal) :
  index_nodes (nodes ++ [nv])
  = match node_record nv with
    | Some nd => ((index_nodes nodes).1 ++ [node_key nd], <[node_key nd := nd]> (index_nodes nodes).2)
    | None => index_nodes nodes
    end.
Proof.
  unfold index_nodes at 1. rewrite fold_left_app. fold (index_nodes nodes).
  destruct (index_nodes nodes) as [ids nm]. cbn [fold_left].
  destruct nv as [nd|]; simpl; [|reflexivity].
  destruct (String.eqb (node_key nd) ""); reflexivity.
Qed.

Lemma layer_links_snoc (node_ids : list string) (node_map : gmap string Node)
    (links : list LinkVal) (l : LinkVal) :
  layer_links node_ids node_map (links ++ [l])
  = match accept node_map l, l with
    | Some (s, t), LinkDict _ _ wf =>
        let st := layer_links node_ids node_map links in
        mkLayerState (set_add (lay_out st) s t) (set_add (lay_in st) t s)
                     (fadd_at (fadd_at (lay_wd st) s (link_weight wf)) t (link_weight wf))
    | _, _ => layer_links node_ids node_map links
    end.
Proof. unfold layer_links. rewrite fold_left_app. reflexivity. Qed.

Lemma index_nodes_dom (nodes : list NodeVal) (k : string) :
  is_Some ((index_nodes nodes).2 !! k) <-> k ∈ (index_nodes nodes).1.
Proof.
  induction nodes as [|nv nodes IH] using rev_ind.
  - cbn. rewrite lookup_empty. split; [intros [? E]; discriminate|intros E; apply elem_of_nil in E; contradiction].
  - rewrite index_nodes_snoc. destruct (node_record nv) as [nd|]; [|exact IH].
    cbn [fst snd]. rewrite elem_of_app, list_elem_of_singleton, <- IH.
    destruct (decide (node_key nd = k)) as [<-|Hne].
    + rewrite lookup_insert_eq. split; [intros _; right; reflexivity|intros _; eexists; reflexivity].
    + rewrite lookup_insert_ne by exact Hne. split; [intros H; left; exact H|intros [H|H]; [exact H|congruence]].
Qed.

(** The weighted degree of [compute_quanzhong_metrics], for a node map
    whose keys are the node ids. *)
Lemma quanzhong_degree_gen (ids : list string) (nm : gmap string Node) (links : list LinkVal)
    (token_map : gmap string (gset string)) :
  (forall k, is_Some (nm !! k) <-> k ∈ ids) ->
  let st := quanzhong_links nm links in
  let w := fun p => (edge_record (ls_out st) (ls_in st) token_map p).2 in
  let wd := (weighted_stage ids (ls_out st) (ls_in st) token_map (ls_pairs st)).2 in
  (forall k, k ∈ ids -> exists v, wd !! k = Some v
     /\ v == Py.sum (map (fun p => if String.eqb p.1 k || String.eqb p.2 k then w p else 0) (ls_pairs st)))
  /\ (NoDup ids -> sumL ids wd == 2 * Py.sum (map w (ls_pairs st))).
Proof.
  intros Hnm. cbv zeta.
  set (st := quanzhong_links nm links).
  rewrite weighted_stage_degree.
  assert (HP : forall e, In e (map (fun p => (p.1, p.2, (edge_record (ls_out st) (ls_in st) token_map p).2))
                                   (ls_pairs st)) ->
               e.1.1 ∈ ids /\ e.1.2 ∈ ids /\ e.1.1 <> e.1.2).
  { intros e He. apply in_map_iff in He as ([s t] & <- & Hp). simpl.
    unfold st in Hp. rewrite quanzhong_links_spec in Hp. simpl in Hp.
    apply list_elem_of_In, list_elem_of_omap in Hp as (l & _ & Hl).
    apply accept_some in Hl as [_ Hl]. apply accept_pair_true in Hl as (Hst & Hs & Ht).
    split; [apply Hnm, Hs|]. split; [apply Hnm, Ht|exact Hst]. }
  destruct (degree_fold ids _ (dict_const ids 0) (dict_const_keys ids 0) HP) as (H1 & H2 & H3).
  cbv zeta in H1, H2, H3. split.
  - intros k Hk. destruct (proj2 (H1 k) Hk) as [v Hv]. exists v. split; [exact Hv|].
    rewrite (H2 k v Hv). rewrite dict_const_lookup. case_decide; [|contradiction]. simpl.
    rewrite map_map. simpl. ring.
  - intros Hnd. rewrite (H3 Hnd).
    rewrite (sumL_all ids (dict_const ids 0) 0).
    + rewrite map_map. simpl. ring.
    + intros k Hk. rewrite dict_const_lookup. case_decide; [reflexivity|contradiction].
Qed.

Lemma fadd_at_lookup (m : gmap string PyFloat) (k k' : string) (c : PyFloat) :
  fadd_at m k c !! k' = if decide (k = k') then Some (fadd (default (Fin 0) (m !! k)) c) else m !! k'.
Proof.
  unfold fadd_at. case_decide as H.
  - subst. apply lookup_insert_eq.
  - apply lookup_insert_ne, H.
Qed.

(** Adding each weight to both endpoints, as lines 103-104 of
    build_circle_layers.py do: a key present in the map receives, in
    order, the weights of the entries that have it as an endpoint. *)
Lemma fadd_fold_lookup (P : list (string * string * PyFloat)) (m : gmap string PyFloat)
    (k : string) (v0 : PyFloat) :
  (forall e, In e P -> e.1.1 <> e.1.2) -> m !! k = Some v0 ->
  fold_left (fun m e => fadd_at (fadd_at m e.1.1 e.2) e.1.2 e.2) P m !! k
  = Some (fold_left fadd (map snd (List.filter (fun e => String.eqb e.1.1 k || String.eqb e.1.2 k) P)) v0).
Proof.
  revert m v0. induction P as [|e P IH]; intros m v0 HP Hm; [exact Hm|].
  assert (Hst : e.1.1 <> e.1.2) by (apply HP; left; reflexivity).
  assert (HP' : forall e', In e' P -> e'.1.1 <> e'.1.2) by (intros e' He'; apply HP; right; exact He').
  cbn [fold_left List.filter].
  destruct (String.eqb e.1.1 k || String.eqb e.1.2 k) eqn:E.
  - cbn [map fold_left]. apply IH; [exact HP'|].
    rewrite !fadd_at_lookup.
    destruct (decide (e.1.2 = k)) as [<-|Htk].
    + rewrite decide_False by exact Hst. rewrite Hm. reflexivity.
    + destruct (decide (e.1.1 = k)) as [<-|Hsk]; [rewrite Hm; reflexivity|].
      exfalso. apply orb_true_iff in E as [E|E]; apply String.eqb_eq in E; contradiction.
  - apply IH; [exact HP'|].
    apply orb_false_iff in E as [E1 E2]. apply String.eqb_neq in E1, E2.
    rewrite !fadd_at_lookup, !decide_False by assumption. exact Hm.
Qed.

Lemma layer_link_weights_pairs (node_map : gmap string Node) (links : list LinkVal) :
  map fst (layer_link_weights node_map links) = omap (accept node_map) links.
Proof.
  induction links as [|l links IH]; [reflexivity|].
  unfold layer_link_weights in *. simpl.
  destruct (accept node_map l) as [[s t]|] eqn:E; destruct l as [src tgt wf|]; simpl.
  - f_equal. exact IH.
  - unfold accept in E. simpl in E. discriminate E.
  - exact IH.
  - exact IH.
Qed.

Lemma layer_link_weights_distinct (node_map : gmap string Node) (links : list LinkVal) e :
  In e (layer_link_weights node_map links) ->
  e.1.1 <> e.1.2 /\ is_Some (node_map !! e.1.1) /\ is_Some (node_map !! e.1.2).
Proof.
  intros He. unfold layer_link_weights in He.
  apply list_elem_of_In, list_elem_of_omap in He as (l & _ & Hl).
  destruct (accept node_map l) as [[s t]|] eqn:Ea; [|discriminate].
  destruct l as [src tgt wf|]; [|discriminate].
  injection Hl as <-. apply accept_some in Ea as [_ Ea]. apply accept_pair_true in Ea. exact Ea.
Qed.

Lemma layer_wd_fold (ids : list string) (nm : gmap string Node) (links : list LinkVal) :
  lay_wd (layer_links ids nm links)
  = fold_left (fun m e => fadd_at (fadd_at m e.1.1 e.2) e.1.2 e.2) (layer_link_weights nm links)
      (fold_left (fun m k => <[k := Fin 0]> m) ids ∅).
Proof.
  induction links as [|l links IH] using rev_ind; [reflexivity|].
  rewrite layer_links_snoc. unfold layer_link_weights in *.
  rewrite omap_app, fold_left_app, omap_single.
  destruct (accept nm l) as [[s t]|]; [|exact IH].
  destruct l as [src tgt wf|]; [|exact IH].
  cbn [fold_left lay_wd fst snd]. rewrite IH. reflexivity.
Qed.

(** The weighted degree of a node id in [build_layers]: the float sum,
    from [0.0] and in link order, of the weights of the accepted raw links
    that have the node as an endpoint. *)
Lemma layer_wd_lookup (ids : list string) (nm : gmap string Node) (links : list LinkVal) (k : string) :
  k ∈ ids ->
  lay_wd (layer_links ids nm links) !! k
  = Some (fsum (map snd (List.filter (fun e => String.eqb e.1.1 k || String.eqb e.1.2 k)
                                      (layer_link_weights nm links)))).
Proof.
  intros Hk. rewrite layer_wd_fold. apply fadd_fold_lookup.
  - intros e He. apply (layer_link_weights_distinct nm links e He).
  - rewrite dict_const_fold_lookup. case_decide; [reflexivity|contradiction].
Qed.

(** C1 (repeated raw links, as the code treats them).  Removing the raw
    links whose resolved [(source, target)] pair repeats an earlier one
    changes neither the adjacency maps [out_map] and [in_map] (of
    [compute_quanzhong_metrics] and of [build_layers]), nor PageRank, nor
    the per-pair record and edge weight computed from the maps and the token
    map, nor the reciprocity counts of [build_layers]; the accepted pairs
    are the same set, listed once each after removal.  The weighted link
    list of [compute_quanzhong_metrics] keeps one record per accepted raw
    link, in link order, so repeated raw links are repeated there.  The
    weighted degrees add one weight per accepted raw link: in [build_layers]
    the weighted degree of a node id is the float sum, from [0.0] in link
    order, of the weights of the accepted raw links (one entry each in
    [layer_link_weights]) that have the node as an endpoint; in
    [compute_quanzhong_metrics] it is the sum of the edge weights of the
    accepted pairs, one per accepted raw link, that have the node as an
    endpoint. *)
Theorem duplicate_links_coalesce (nodes : list NodeVal) (links : list LinkVal) :
  let '(node_ids, node_map) := index_nodes nodes in
  let st := quanzhong_links node_map links in
  let st' := quanzhong_links node_map (dedup_links links) in
  let lay := layer_links node_ids node_map links in
  let lay' := layer_links node_ids node_map (dedup_links links) in
  ls_out st = ls_out st' /\ ls_in st = ls_in st'
  /\ pagerank_default node_ids (ls_out st) = pagerank_default node_ids (ls_out st')
  /\ (forall token_map p, edge_record (ls_out st) (ls_in st) token_map p
                          = edge_record (ls_out st') (ls_in st') token_map p)
  /\ (forall p, p ∈ ls_pairs st <-> p ∈ ls_pairs st') /\ NoDup (ls_pairs st')
  /\ ls_pairs st = omap (accept node_map) links
  /\ (forall token_map, (weighted_stage node_ids (ls_out st) (ls_in st) token_map (ls_pairs st)).1
        = map (fun p => (edge_record (ls_out st) (ls_in st) token_map p).1) (ls_pairs st))
  /\ lay_out lay = lay_out lay' /\ lay_in lay = lay_in lay'
  /\ layer_reciprocal node_ids (lay_out lay) = layer_reciprocal node_ids (lay_out lay')
  /\ map fst (layer_link_weights node_map links) = omap (accept node_map) links
  /\ (forall k, k ∈ node_ids ->
        lay_wd lay !! k
        = Some (fsum (map snd (List.filter (fun e => String.eqb e.1.1 k || String.eqb e.1.2 k)
                                            (layer_link_weights node_map links)))))
  /\ (forall token_map k, k ∈ node_ids ->
        exists v, (weighted_stage node_ids (ls_out st) (ls_in st) token_map (ls_pairs st)).2 !! k = Some v
        /\ v == Py.sum (map (fun p => if String.eqb p.1 k || String.eqb p.2 k
                                       then (edge_record (ls_out st) (ls_in st) token_map p).2 else 0)
                             (ls_pairs st))).
Proof.
  pose proof (index_nodes_dom nodes) as Hdom.
  destruct (index_nodes nodes) as [node_ids node_map]. cbn [fst snd] in Hdom.
  pose proof (fun tm => proj1 (quanzhong_degree_gen node_ids node_map links tm Hdom)) as HQ.
  cbv zeta in HQ.
  pose proof (fun k => layer_wd_lookup node_ids node_map links k) as HL.
  pose proof (layer_link_weights_pairs node_map links) as HW.
  revert HQ HL HW.
  rewrite !quanzhong_links_spec. simpl. intros HQ HL HW.
  destruct (layer_links_adj node_ids node_map links) as [Lo Li].
  destruct (layer_links_adj node_ids node_map (dedup_links links)) as [Lo' Li'].
  assert (Hmem : forall p, p ∈ omap (accept node_map) links
                           <-> p ∈ omap (accept node_map) (dedup_links links)).
  { intros p. symmetry. apply dedup_pairs_mem. }
  assert (Hout : adj_from ∅ (omap (accept node_map) links)
                 = adj_from ∅ (omap (accept node_map) (dedup_links links)))
    by (apply adj_from_equiv, Hmem).
  assert (Hin : adj_from ∅ (map swap_pair (omap (accept node_map) links))
                = adj_from ∅ (map swap_pair (omap (accept node_map) (dedup_links links)))).
  { apply adj_from_equiv. intros p. rewrite !list_elem_of_fmap.
    split; intros (q & -> & Hq); exists q; split; auto; apply Hmem; auto. }
  rewrite Lo, Lo', Li, Li', Hout, Hin.
  split; [reflexivity|]. split; [reflexivity|]. split; [reflexivity|].
  split; [reflexivity|]. split; [exact Hmem|]. split; [apply dedup_pairs_nodup|].
  split; [reflexivity|]. split; [intros; apply weighted_stage_links|].
  split; [reflexivity|]. split; [reflexivity|]. split; [reflexivity|].
  split; [exact HW|]. split; [exact HL|]. rewrite Hout, Hin in HQ. exact HQ.
Qed.

(** Counterexample for C1 as stated.  Nodes [A] and [B]; the raw link
    [A -> B] given twice.  After removing the repeat, the weighted link list
    has one record instead of two, and the weighted degree of [A] is
    [0.02] instead of [0.04] (in [compute_quanzhong_metrics]); in
    [build_layers] it is [1.0] instead of [2.0]. *)
Lemma duplicate_links_coalesce_counterexample :
  let nodes := [NodeDict (mkNode (Some "A") None None); NodeDict (mkNode (Some "B") None None)] in
  let ab := LinkDict (Some (EStr "A")) (Some (EStr "B")) None in
  dedup_links [ab; ab] = [ab]
  /\ length (quanzhong_weighted nodes [ab; ab] ∅).1 = 2%nat
  /\ length (quanzhong_weighted nodes [ab] ∅).1 = 1%nat
  /\ default 0 ((quanzhong_weighted nodes [ab; ab] ∅).2 !! "A") == 0.04
  /\ default 0 ((quanzhong_weighted nodes [ab] ∅).2 !! "A") == 0.02
  /\ lay_wd (layer_links (index_nodes nodes).1 (index_nodes nodes).2 [ab; ab]) !! "A" = Some (Fin 2)
  /\ lay_wd (layer_links (index_nodes nodes).1 (index_nodes nodes).2 [ab]) !! "A" = Some (Fin 1).
Proof.
  vm_compute. repeat split; reflexivity.
Qed.

(* ------------------------------------------------------------------ *)
(** ** Edge weighting *)

Lemma jaccard_bounds (a b : gset string) : 0 <= jaccard a b <= 1.
Proof.
  unfold jaccard. destruct (bool_decide (a = ∅) && bool_decide (b = ∅)); [lra|].
  case_decide as Hu; [lra|].
  assert (Hsz : (size (a ∩ b) <= size (a ∪ b))%nat) by (apply subseteq_size; set_solver).
  assert (Hpos : (size (a ∪ b) <> 0)%nat).
  { intros E. apply Hu. apply leibniz_equiv, size_empty_iff, E. }
  pose proof (inject_nat_pos _ Hpos).
  split.
  - apply Qdiv_nonneg; [apply inject_nat_nonneg|lra].
  - apply Qle_shift_div_r; [lra|]. rewrite Qmult_1_l. rewrite <- Zle_Qle. lia.
Qed.

Lemma round6_between (a b : Z) (x : Q) :
  inject_Z a / inject_Z 1000000 <= x <= inject_Z b / inject_Z 1000000 ->
  inject_Z a / inject_Z 1000000 <= round6 x <= inject_Z b / inject_Z 1000000.
Proof.
  intros [Ha Hb]. unfold round6.
  set (y := x * inject_Z 1000000).
  assert (HM : 0 < inject_Z 1000000) by (vm_compute; reflexivity).
  assert (Hya : inject_Z a <= y).
  { unfold y. apply (Qmult_le_r _ _ (inject_Z 1000000)) in Ha; [|exact HM].
    assert (E : inject_Z a / inject_Z 1000000 * inject_Z 1000000 == inject_Z a)
      by (field; discriminate). rewrite E in Ha. exact Ha. }
  assert (Hyb : y <= inject_Z b).
  { unfold y. apply (Qmult_le_r _ _ (inject_Z 1000000)) in Hb; [|exact HM].
    assert (E : inject_Z b / inject_Z 1000000 * inject_Z 1000000 == inject_Z b)
      by (field; discriminate). rewrite E in Hb. exact Hb. }
  assert (Hfa : (a <= Qfloor y)%Z).
  { rewrite <- (Qfloor_Z a). apply Qfloor_resp_le, Hya. }
  assert (Hfb : (Qfloor y <= b)%Z).
  { pose proof (Qfloor_le y) as H. rewrite Zle_Qle. lra. }
  assert (Hz : forall z, (a <= z <= b)%Z ->
     inject_Z a / inject_Z 1000000 <= inject_Z z / inject_Z 1000000
       <= inject_Z b / inject_Z 1000000).
  { intros z [Hz1 Hz2]. rewrite Zle_Qle in Hz1, Hz2. split;
      (unfold Qdiv; apply Qmult_le_compat_r; [assumption|apply Qinv_le_0_compat; lra]). }
  assert (Hup : (1 # 2) <= y - inject_Z (Qfloor y) -> (Qfloor y + 1 <= b)%Z).
  { intros Hr. assert (Hlt : inject_Z (Qfloor y) < inject_Z b) by lra.
    rewrite <- Zlt_Qlt in Hlt. lia. }
  destruct (Qlt_le_dec (y - inject_Z (Qfloor y)) (1 # 2)); [apply Hz; lia|].
  destruct (Qlt_le_dec (1 # 2) (y - inject_Z (Qfloor y))).
  - apply Hz. pose proof (Hup ltac:(lra)). lia.
  - destruct (Z.even (Qfloor y)); apply Hz; [lia|]. pose proof (Hup ltac:(lra)). lia.
Qed.

Lemma round6_clamp (x : Q) : 0.02 <= x <= 1 -> 0.02 <= round6 x <= 1.
Proof.
  intros H. pose proof (round6_between 20000 1000000 x) as R.
  assert (E1 : inject_Z 20000 / inject_Z 1000000 == 0.02) by reflexivity.
  assert (E2 : inject_Z 1000000 / inject_Z 1000000 == 1) by reflexivity.
  rewrite E1, E2 in R. apply R, H.
Qed.

Lemma clamp_bounds (x : Q) : 0.02 <= Qmax 0.02 (Qmin 1.0 x) <= 1.
Proof.
  split; [apply Q.le_max_l|]. apply Q.max_lub; [lra|].
  pose proof (Q.le_min_l 1.0 x). lra.
Qed.

Lemma adj_from_empty_mem (P : list (string * string)) (s t : string) :
  t ∈ default ∅ (adj_from ∅ P !! s) <-> (s, t) ∈ P.
Proof.
  destruct (adj_from_spec P ∅ s) as [HN HS].
  destruct (adj_from ∅ P !! s) as [T|] eqn:E; simpl.
  - rewrite (HS T eq_refl t). rewrite lookup_empty. simpl. set_solver.
  - destruct (proj1 HN eq_refl) as [_ Hn]. split; [set_solver|intros H; destruct (Hn t H)].
Qed.

Lemma quanzhong_out_mem (node_map : gmap string Node) (links : list LinkVal) (s t : string) :
  t ∈ default ∅ (ls_out (quanzhong_links node_map links) !! s)
  <-> (s, t) ∈ ls_pairs (quanzhong_links node_map links).
Proof. rewrite quanzhong_links_spec. simpl. apply adj_from_empty_mem. Qed.

(** C6: for every accepted directed edge [(s, t)] of the quanzhong graph
    builder, the derived weighted edge has [reciprocal = 1] exactly when
    [(t, s)] is accepted too, [structural = 0.50 reciprocal + 0.25 shared_out
    + 0.25 shared_in] with the Jaccard similarities of the out- and
    in-neighbour sets (each in [0, 1]), and edge weight
    [clamp(0.65 structural + 0.35 semantic_sim, 0.02, 1.0)], which lies in
    [0.02, 1.0]; the stored record (rounded to 6 places) is in the weighted
    link list, and its weight also lies in [0.02, 1.0]. *)
Theorem edge_weight_synthesis (nodes : list NodeVal) (links : list LinkVal)
    (token_map : gmap string (gset string)) (s t : string) :
  let st := quanzhong_links (index_nodes nodes).2 links in
  (s, t) ∈ ls_pairs st ->
  let out_map := ls_out st in
  let in_map := ls_in st in
  let reciprocal : Q := if decide ((t, s) ∈ ls_pairs st) then 1 else 0 in
  let shared_out := jaccard (default ∅ (out_map !! s)) (default ∅ (out_map !! t)) in
  let shared_in := jaccard (default ∅ (in_map !! s)) (default ∅ (in_map !! t)) in
  let semantic_sim := jaccard (default ∅ (token_map !! s)) (default ∅ (token_map !! t)) in
  let structural := 0.50 * reciprocal + 0.25 * shared_out + 0.25 * shared_in in
  let w := Qmax 0.02 (Qmin 1.0 (0.65 * structural + 0.35 * semantic_sim)) in
  let rec := (edge_record out_map in_map token_map (s, t)).1 in
  (edge_record out_map in_map token_map (s, t)).2 = w
  /\ rec ∈ (quanzhong_weighted nodes links token_map).1
  /\ wl_weight rec = round6 w
  /\ wl_structural rec = round6 structural
  /\ wl_reciprocal rec = (if decide ((t, s) ∈ ls_pairs st) then 1 else 0)%Z
  /\ 0 <= shared_out <= 1 /\ 0 <= shared_in <= 1
  /\ 0.02 <= w <= 1
  /\ 0.02 <= wl_weight rec <= 1.
Proof.
  intros st Hin out_map in_map reciprocal shared_out shared_in semantic_sim structural w rec.
  assert (Hr : s ∈ default ∅ (out_map !! t) <-> (t, s) ∈ ls_pairs st)
    by apply quanzhong_out_mem.
  assert (Hmem : rec ∈ (quanzhong_weighted nodes links token_map).1).
  { unfold rec, quanzhong_weighted, out_map, in_map, st.
    destruct (index_nodes nodes) as [ids nm]. simpl.
    rewrite weighted_stage_links. apply list_elem_of_fmap. exists (s, t). split; [reflexivity|exact Hin]. }
  assert (Hw : 0.02 <= w <= 1) by apply clamp_bounds.
  assert (Hrec : wl_weight rec = round6 w /\ wl_structural rec = round6 structural
    /\ wl_reciprocal rec = (if decide ((t, s) ∈ ls_pairs st) then 1 else 0)%Z
    /\ (edge_record out_map in_map token_map (s, t)).2 = w).
  { unfold rec, w, structural, reciprocal, shared_out, shared_in, semantic_sim, edge_record.
    destruct (decide (s ∈ default ∅ (out_map !! t))) as [H1|H1];
    destruct (decide ((t, s) ∈ ls_pairs st)) as [H2|H2]; simpl; try tauto. }
  destruct Hrec as (R1 & R2 & R3 & R4).
  split; [exact R4|]. split; [exact Hmem|]. split; [exact R1|]. split; [exact R2|].
  split; [exact R3|]. split; [apply jaccard_bounds|]. split; [apply jaccard_bounds|].
  split; [exact Hw|]. rewrite R1. apply round6_clamp, Hw.
Qed.

Lemma edge_weight_synthesis_witness :
  let nodes := [NodeDict (mkNode (Some "A") None None); NodeDict (mkNode (Some "B") None None)] in
  let links := [LinkDict (Some (EStr "A")) (Some (EStr "B")) None;
                LinkDict (Some (EStr "B")) (Some (EStr "A")) None] in
  ("A", "B") ∈ ls_pairs (quanzhong_links (index_nodes nodes).2 links)
  /\ (edge_record (ls_out (quanzhong_links (index_nodes nodes).2 links))
        (ls_in (quanzhong_links (index_nodes nodes).2 links)) ∅ ("A", "B")).2
     = Qmax 0.02 (Qmin 1.0 (0.65 * (0.50 * 1 + 0.25 * jaccard {["B"]} {["A"]}
                                   + 0.25 * jaccard {["B"]} {["A"]}) + 0.35 * jaccard ∅ ∅)).
Proof.
  intros nodes links.
  assert (H : ("A", "B") ∈ ls_pairs (quanzhong_links (index_nodes nodes).2 links))
    by (vm_compute; left).
  split; [exact H|].
  destruct (edge_weight_synthesis nodes links ∅ "A" "B" H) as [E _].
  rewrite E. vm_compute. reflexivity.
Defined.

(* ------------------------------------------------------------------ *)
(** ** Sums *)

Lemma sum_nonneg (l : list Q) : Forall (fun x => 0 <= x) l -> 0 <= Py.sum l.
Proof.
  induction 1 as [|x l Hx _ IH]; [apply Qle_refl|]. rewrite sum_cons. lra.
Qed.

Lemma sum_elem_le (l : list Q) (x : Q) :
  Forall (fun x => 0 <= x) l -> In x l -> x <= Py.sum l.
Proof.
  induction 1 as [|y l Hy Hl IH]; [intros []|]. intros [->|Hin]; rewrite sum_cons.
  - pose proof (sum_nonneg l Hl). lra.
  - pose proof (IH Hin). lra.
Qed.

Lemma sum_map_mul (l : list Q) (q : Q) :
  Py.sum (map (fun c => c * q) l) == Py.sum l * q.
Proof.
  induction l as [|c l IH]; simpl map; [unfold Py.sum; simpl; ring|].
  rewrite !sum_cons, IH. ring.
Qed.

Lemma sum_map_const {A} (l : list A) (c : Q) :
  Py.sum (map (fun _ => c) l) == q_len l * c.
Proof.
  unfold q_len. induction l as [|a l IH]; simpl map; [reflexivity|].
  rewrite sum_cons, IH. simpl length. rewrite Nat2Z.inj_succ.
  unfold Z.succ. rewrite inject_Z_plus. change (inject_Z 1) with 1. ring.
Qed.

Lemma sum_map_ext {A} (f g : A -> Q) (l : list A) :
  (forall x, In x l -> f x == g x) -> Py.sum (map f l) == Py.sum (map g l).
Proof.
  induction l as [|x l IH]; intros H; simpl map; [reflexivity|].
  rewrite !sum_cons. rewrite (H x (or_introl eq_refl)), IH; [reflexivity|].
  intros y Hy. apply H. now right.
Qed.

Lemma q_len_pos {A} (l : list A) : l <> [] -> 0 < q_len l.
Proof.
  intros H. unfold q_len. apply inject_nat_pos. destruct l; [congruence|discriminate].
Qed.

Lemma q_len_map {A B} (f : A -> B) (l : list A) : q_len (map f l) = q_len l.
Proof. unfold q_len. now rewrite length_map. Qed.

(* ------------------------------------------------------------------ *)
(** ** Indicator weights *)

Section Weights.

Variable sqrt : Q -> Q.
Hypothesis sqrt_nonneg : forall x, 0 <= x -> 0 <= sqrt x.

Lemma pvariance_nonneg (vals : list Q) : 0 <= pvariance vals.
Proof.
  unfold pvariance. apply Qdiv_nonneg; [|apply inject_nat_nonneg].
  apply sum_nonneg, List.Forall_forall. intros z Hz.
  apply in_map_iff in Hz as [x [<- _]].
  set (d := x - _). destruct (Qlt_le_dec d 0).
  - assert (E : d * d == (- d) * (- d)) by ring. rewrite E. apply Qmult_le_0_compat; lra.
  - apply Qmult_le_0_compat; lra.
Qed.

Lemma cv_nonneg (vals : list Q) : 0 <= cv_of sqrt vals.
Proof.
  unfold cv_of. destruct (Qlt_le_dec eps9 _) as [H|H]; [|apply Qle_refl].
  apply Qdiv_nonneg; [|unfold eps9 in H; lra].
  destruct (1 <? length vals)%nat; [apply sqrt_nonneg, pvariance_nonneg|apply Qle_refl].
Qed.

(** A column of zeros has coefficient of variation [0]. *)
Lemma cv_zeros (vals : list Q) : Forall (fun x => x == 0) vals -> cv_of sqrt vals == 0.
Proof.
  intros Hz. unfold cv_of.
  assert (Havg : match vals with [] => 0 | _ => fmean vals end == 0).
  { destruct vals as [|v r]; [reflexivity|]. unfold fmean.
    assert (Hs : Py.sum (v :: r) == 0).
    { clear -Hz. induction Hz as [|x l Hx _ IH]; [reflexivity|]. rewrite sum_cons. lra. }
    rewrite Hs. reflexivity. }
  destruct (Qlt_le_dec eps9 _) as [H|H]; [|reflexivity].
  rewrite Havg in H. discriminate.
Qed.

Lemma cvs_nonneg (ind_norm : list (list Q)) :
  Forall (fun x => 0 <= x) (map (cv_of sqrt) ind_norm).
Proof. apply List.Forall_forall. intros z Hz. apply in_map_iff in Hz as [v [<- _]]. apply cv_nonneg. Qed.

Lemma k_weights_length (ind_norm : list (list Q)) :
  length (k_weights sqrt ind_norm) = length ind_norm.
Proof. unfold k_weights. destruct (Qle_bool _ _); now rewrite !length_map. Qed.

Lemma k_weights_fallback (ind_norm : list (list Q)) :
  Py.sum (map (cv_of sqrt) ind_norm) <= eps9 ->
  k_weights sqrt ind_norm = map (fun _ => 1 / q_len ind_norm) ind_norm.
Proof.
  intros H. unfold k_weights. apply Qle_bool_iff in H. now rewrite H.
Qed.

Lemma k_weights_share (ind_norm : list (list Q)) :
  eps9 < Py.sum (map (cv_of sqrt) ind_norm) ->
  k_weights sqrt ind_norm
  = map (fun c => c / Py.sum (map (cv_of sqrt) ind_norm)) (map (cv_of sqrt) ind_norm).
Proof.
  intros H. unfold k_weights. destruct (Qle_bool _ _) eqn:E; [|reflexivity].
  apply Qle_bool_iff in E. lra.
Qed.

Lemma k_weights_bounds (ind_norm : list (list Q)) :
  ind_norm <> [] ->
  Forall (fun w => 0 <= w <= 1) (k_weights sqrt ind_norm)
  /\ Py.sum (k_weights sqrt ind_norm) == 1.
Proof.
  intros Hne. set (t := Py.sum (map (cv_of sqrt) ind_norm)).
  destruct (Qlt_le_dec eps9 t) as [Ht|Ht].
  - rewrite k_weights_share by exact Ht. fold t. unfold eps9 in Ht. split.
    + apply List.Forall_forall. intros w Hw. apply in_map_iff in Hw as [c [<- Hc]].
      pose proof (sum_elem_le _ c (cvs_nonneg ind_norm) Hc) as Hle. fold t in Hle.
      apply in_map_iff in Hc as [v [<- _]]. pose proof (cv_nonneg v).
      split; [apply Qdiv_nonneg; lra|].
      apply Qle_shift_div_r; lra.
    + unfold Qdiv. rewrite sum_map_mul. fold t. field. lra.
  - rewrite k_weights_fallback by exact Ht. pose proof (q_len_pos _ Hne). split.
    + apply List.Forall_forall. intros w Hw. apply in_map_iff in Hw as [c [<- _]].
      split; [apply Qdiv_nonneg; lra|]. apply Qle_shift_div_r; [lra|].
      unfold q_len in *. assert (1 <= inject_Z (Z.of_nat (length ind_norm))).
      { change 1 with (inject_Z 1). rewrite <- Zle_Qle. destruct ind_norm; [congruence|simpl; lia]. }
      lra.
    + rewrite sum_map_const. field. lra.
Qed.

End Weights.

(** A constant column normalises to zeros. *)
Lemma minmax_constant (col : list Q) :
  (forall x y, In x col -> In y col -> x == y) -> Forall (fun z => z == 0) (minmax col).
Proof.
  intros Hc. destruct col as [|v0 rest]; [constructor|]. unfold minmax.
  assert (E : Qle_bool (Py.max_from v0 rest) (Py.min_from v0 rest) = true).
  { apply Qle_bool_iff. rewrite (Hc _ _ (max_from_in v0 rest) (min_from_in v0 rest)).
    apply Qle_refl. }
  rewrite E. apply List.Forall_forall. intros z Hz.
  apply in_map_iff in Hz as [? [<- _]]. reflexivity.
Qed.

Lemma cv_constant (sqrt : Q -> Q) (col : list Q) :
  (forall x y, In x col -> In y col -> x == y) -> cv_of sqrt (minmax col) == 0.
Proof. intros Hc. apply cv_zeros, minmax_constant, Hc. Qed.

Lemma nth_map_div (l : list Q) (t : Q) (k : nat) :
  nth k (map (fun c => c / t) l) 0 == nth k l 0 / t.
Proof.
  revert k. induction l as [|c l IH]; intros [|k]; simpl;
    [unfold Qdiv; ring|unfold Qdiv; ring|reflexivity|apply IH].
Qed.

Lemma Qmult_le_compat_l (x y z : Q) : x <= y -> 0 <= z -> z * x <= z * y.
Proof. intros H1 H2. rewrite !(Qmult_comm z). apply Qmult_le_compat_r; assumption. Qed.

Lemma Qsq_nonneg (d : Q) : 0 <= d * d.
Proof.
  destruct (Qlt_le_dec d 0).
  - assert (E : d * d == (- d) * (- d)) by ring. rewrite E. apply Qmult_le_0_compat; lra.
  - apply Qmult_le_0_compat; lra.
Qed.

Lemma Qsq_le_1 (d : Q) : -1 <= d <= 1 -> d * d <= 1.
Proof.
  intros [H1 H2]. destruct (Qlt_le_dec d 0).
  - assert (E : d * d == (- d) * (- d)) by ring. rewrite E.
    apply Qle_trans with ((- d) * 1); [apply Qmult_le_compat_l; lra|lra].
  - apply Qle_trans with (d * 1); [apply Qmult_le_compat_l; lra|lra].
Qed.

Lemma sum_le_len (l : list Q) : Forall (fun x => x <= 1) l -> Py.sum l <= q_len l.
Proof.
  unfold q_len. induction 1 as [|x l Hx _ IH]; [apply Qle_refl|].
  rewrite sum_cons. simpl length. rewrite Nat2Z.inj_succ. unfold Z.succ.
  rewrite inject_Z_plus. change (inject_Z 1) with 1. lra.
Qed.

(** Two entries at different values both count in a sum of nonnegative terms. *)
Lemma sum_two_le (f : Q -> Q) (l : list Q) (a b : Q) :
  (forall x, 0 <= f x) -> In a l -> In b l -> a <> b -> f a + f b <= Py.sum (map f l).
Proof.
  intros Hf. assert (Hl : forall l, Forall (fun x => 0 <= x) (map f l)).
  { intros l'. apply List.Forall_forall. intros z Hz. apply in_map_iff in Hz as [? [<- _]]. apply Hf. }
  induction l as [|x l IH]; intros Ha Hb Hab; [destruct Ha|].
  simpl map. rewrite sum_cons. destruct Ha as [<-|Ha]; destruct Hb as [<-|Hb].
  - congruence.
  - pose proof (sum_elem_le _ _ (Hl l) (in_map f _ _ Hb)). lra.
  - pose proof (sum_elem_le _ _ (Hl l) (in_map f _ _ Ha)). lra.
  - pose proof (IH Ha Hb Hab). pose proof (Hf x). lra.
Qed.

(** For a column that is not constant and has fewer than [10^9 / 2]
    entries, the normalised column has coefficient of variation above
    [1e-9] (for a square root that is at least its argument on [0, 1], as
    the real square root and its correctly rounded float are). *)
Lemma cv_nonconstant_pos (sqrt : Q -> Q)
    (sqrt_ge : forall x, 0 <= x <= 1 -> x <= sqrt x) (col : list Q) :
  (exists x y, In x col /\ In y col /\ ~ x == y) ->
  (2 * Z.of_nat (length col) < 1000000000)%Z ->
  eps9 < cv_of sqrt (minmax col).
Proof.
  intros Hnc Hn.
  destruct (minmax_nonconstant col Hnc) as [[a [Ha Ha0]] [b [Hb Hb1]]].
  pose proof (minmax_bounds col) as Hbd.
  set (z := minmax col) in *.
  assert (Hlenz : length z = length col) by apply minmax_length.
  assert (Hab : a <> b) by (intros ->; rewrite Ha0 in Hb1; discriminate).
  assert (Hz2 : (1 < length z)%nat).
  { destruct z as [|z0 [|z1 r]]; [destruct Ha| |simpl; lia].
    destruct Ha as [<-|[]]; destruct Hb as [<-|[]]. congruence. }
  assert (HnQ : q_len z < inject_Z 500000000).
  { unfold q_len. rewrite <- Zlt_Qlt. lia. }
  assert (Hpos : 0 < q_len z) by (apply q_len_pos; destruct z; [destruct Ha|discriminate]).
  assert (Hs1 : 1 <= Py.sum z).
  { rewrite <- Hb1. apply sum_elem_le; [|exact Hb].
    apply List.Forall_forall. intros x Hx. apply (proj1 (List.Forall_forall _ _) Hbd x Hx). }
  assert (Hsn : Py.sum z <= q_len z).
  { apply sum_le_len, List.Forall_forall. intros x Hx. apply (proj1 (List.Forall_forall _ _) Hbd x Hx). }
  set (mu := fmean z).
  assert (Hmu1 : mu <= 1).
  { unfold mu, fmean. apply Qle_shift_div_r; lra. }
  assert (Hmu0 : 1 / q_len z <= mu).
  { unfold mu, fmean. unfold Qdiv. apply Qmult_le_compat_r; [lra|].
    apply Qinv_le_0_compat; lra. }
  assert (Heps : eps9 < 1 / q_len z).
  { apply Qlt_shift_div_l; [lra|]. unfold eps9.
    apply Qlt_le_trans with ((1 # 1000000000) * inject_Z 500000000).
    - apply Qmult_lt_l; [reflexivity|exact HnQ].
    - unfold Qle; simpl; lia. }
  assert (Hsq : forall x, In x z -> (x - mu) * (x - mu) <= 1).
  { intros x Hx. apply Qsq_le_1. pose proof (proj1 (List.Forall_forall _ _) Hbd x Hx) as Hx01.
    cbv beta in Hx01. assert (0 <= mu).
    { apply Qle_trans with (1 / q_len z); [|exact Hmu0].
      apply Qlt_le_weak, Qlt_trans with eps9; [reflexivity|exact Heps]. }
    lra. }
  set (ss := Py.sum (map (fun x => (x - mu) * (x - mu)) z)).
  assert (Hss_lo : 1 # 2 <= ss).
  { apply Qle_trans with ((a - mu) * (a - mu) + (b - mu) * (b - mu)).
    - rewrite Ha0, Hb1. pose proof (Qsq_nonneg (mu - (1 # 2))).
      assert (E : (0 - mu) * (0 - mu) + (1 - mu) * (1 - mu)
                  == 2 * ((mu - (1 # 2)) * (mu - (1 # 2))) + (1 # 2)) by ring.
      rewrite E. lra.
    - apply (sum_two_le (fun x => (x - mu) * (x - mu))); [intros; apply Qsq_nonneg|exact Ha|exact Hb|exact Hab]. }
  assert (Hss_hi : ss <= q_len z).
  { unfold ss. rewrite <- (q_len_map (fun x => (x - mu) * (x - mu))). apply sum_le_len.
    apply List.Forall_forall. intros y Hy. apply in_map_iff in Hy as [x [<- Hx]]. apply Hsq, Hx. }
  assert (Hvar : 1 / q_len z * (1 # 2) <= pvariance z /\ pvariance z <= 1).
  { unfold pvariance. fold mu. fold ss. split.
    - apply Qle_shift_div_l; [lra|].
      assert (E : 1 / q_len z * (1 # 2) * q_len z == 1 # 2) by (field; lra). rewrite E. exact Hss_lo.
    - apply Qle_shift_div_r; lra. }
  unfold cv_of.
  assert (Havg : match z with [] => 0 | _ => fmean z end = mu) by (destruct z; [destruct Ha|reflexivity]).
  rewrite Havg. destruct (Qlt_le_dec eps9 mu) as [Hme|Hle]; [|lra].
  assert (E1 : (1 <? length z)%nat = true) by (apply Nat.ltb_lt, Hz2). rewrite E1.
  unfold pstdev.
  assert (Hsd : pvariance z <= sqrt (pvariance z)).
  { apply sqrt_ge. split; [apply pvariance_nonneg|apply Hvar]. }
  apply Qlt_le_trans with (pvariance z).
  - assert (0 < 1 / q_len z) by (apply Qlt_shift_div_l; lra).
    apply Qlt_le_trans with (1 / q_len z * (1 # 2)); [|apply Hvar].
    assert (eps9 * 2 < 1 / q_len z) by (unfold eps9 in *; apply Qlt_shift_div_l; [lra|];
      apply Qlt_le_trans with ((1 # 1000000000) * 2 * inject_Z 500000000);
      [apply Qmult_lt_l; [reflexivity|exact HnQ]|unfold Qle; simpl; lia]).
    unfold eps9 in *. lra.
  - apply Qle_shift_div_l; [unfold eps9 in Hme; lra|].
    apply Qle_trans with (pvariance z * 1).
    + apply Qmult_le_compat_l; [exact Hmu1|apply pvariance_nonneg].
    + rewrite Qmult_1_r. exact Hsd.
Qed.

(** C8: the coefficient-of-variation indicator weights (for any square root
    that is nonnegative on nonnegative inputs, and at least one indicator)
    number one per indicator, lie in [0, 1] and sum to 1.  A constant
    indicator has coefficient of variation 0, so its weight is 0 whenever
    the total CV is above the [1e-9] threshold; at or below it the weights
    are uniform, [1 / #indicators].  When every indicator is constant the
    total CV is 0, so the uniform fallback is taken; when some indicator is
    not constant and has fewer than [5 * 10^8] entries, the total CV is above
    the threshold (for a square root that is at least its argument on
    [0, 1]), so the constant indicators get weight 0. *)
Theorem indicator_weights_normalized (sqrt : Q -> Q)
    (sqrt_nonneg : forall x, 0 <= x -> 0 <= sqrt x)
    (rho : Q) (ind_raw : list (list Q)) (wd : list Q) :
  ind_raw <> [] ->
  let kw := k_weight (gra sqrt rho ind_raw wd) in
  let total_cv := Py.sum (map (cv_of sqrt) (map minmax ind_raw)) in
  let constant col := forall x y, In x col -> In y col -> x == y in
  length kw = length ind_raw
  /\ Forall (fun w => 0 <= w <= 1) kw
  /\ Py.sum kw == 1
  /\ (forall k col, nth_error ind_raw k = Some col -> constant col ->
        eps9 < total_cv -> nth k kw 0 == 0)
  /\ (total_cv <= eps9 -> Forall (fun w => w == 1 / q_len ind_raw) kw)
  /\ ((forall col, In col ind_raw -> constant col) -> total_cv == 0)
  /\ ((forall x, 0 <= x <= 1 -> x <= sqrt x) ->
      (exists col, In col ind_raw /\ (exists x y, In x col /\ In y col /\ ~ x == y)
                   /\ (2 * Z.of_nat (length col) < 1000000000)%Z) ->
      eps9 < total_cv).
Proof.
  intros Hne kw total_cv constant. unfold kw, gra. simpl k_weight.
  assert (Hne' : map minmax ind_raw <> []) by (destruct ind_raw; [congruence|discriminate]).
  destruct (k_weights_bounds sqrt sqrt_nonneg _ Hne') as [Hb Hs].
  split; [rewrite k_weights_length; apply length_map|].
  split; [exact Hb|]. split; [exact Hs|]. split; [|split; [|split]].
  - intros k col Hk Hc Ht. rewrite k_weights_share by exact Ht.
    rewrite nth_map_div.
    assert (Hk' : nth_error (map (cv_of sqrt) (map minmax ind_raw)) k
                  = Some (cv_of sqrt (minmax col))) by (rewrite !nth_error_map, Hk; reflexivity).
    rewrite (nth_error_nth _ _ 0 Hk'). rewrite (cv_constant sqrt col Hc).
    unfold Qdiv. ring.
  - intros Ht. rewrite k_weights_fallback by exact Ht. rewrite q_len_map.
    apply List.Forall_forall. intros w Hw. apply in_map_iff in Hw as [? [<- _]]. reflexivity.
  - intros Hall. unfold total_cv. rewrite map_map.
    rewrite (sum_map_ext _ (fun _ => 0)).
    + rewrite sum_map_const. ring.
    + intros col Hcol. apply cv_constant, Hall, Hcol.
  - intros Hge (col & Hin & Hnc & Hn).
    apply Qlt_le_trans with (cv_of sqrt (minmax col)).
    + apply cv_nonconstant_pos; assumption.
    + apply sum_elem_le; [apply cvs_nonneg; exact sqrt_nonneg|].
      apply in_map, in_map, Hin.
Qed.

(* ------------------------------------------------------------------ *)
(** ** Deviations and grey relational coefficients *)

Lemma in_all_deltas (ind_norm : list (list Q)) (col : list Q) (x : Q) :
  In col ind_norm -> In x col -> In (Qabs (1 - x)) (all_deltas ind_norm).
Proof.
  intros Hc Hx. unfold all_deltas. apply in_concat.
  exists (map (fun x => Qabs (1 - x)) col).
  split; [apply (in_map (map (fun x => Qabs (1 - x)))), Hc|apply (in_map (fun x => Qabs (1 - x))), Hx].
Qed.

Lemma all_deltas_nonneg (ind_norm : list (list Q)) (d : Q) :
  In d (all_deltas ind_norm) -> 0 <= d.
Proof.
  unfold all_deltas. intros Hd. apply in_concat in Hd as [l [Hl Hd]].
  apply in_map_iff in Hl as [col [<- _]]. apply in_map_iff in Hd as [x [<- _]].
  apply Qabs_nonneg.
Qed.

Lemma delta_min_le (ind_norm : list (list Q)) (d : Q) :
  In d (all_deltas ind_norm) -> delta_min ind_norm <= d.
Proof.
  unfold delta_min. destruct (all_deltas ind_norm) as [|d0 r]; [intros []|].
  apply min_from_le.
Qed.

Lemma delta_min_nonneg (ind_norm : list (list Q)) : 0 <= delta_min ind_norm.
Proof.
  pose proof (all_deltas_nonneg ind_norm) as H. unfold delta_min in *.
  destruct (all_deltas ind_norm) as [|d0 r]; [apply Qle_refl|].
  apply H, min_from_in.
Qed.

Lemma delta_max_pos (ind_norm : list (list Q)) : 0 < delta_max ind_norm.
Proof.
  unfold delta_max. destruct (Qle_bool _ eps9) eqn:E; [reflexivity|].
  apply Qle_bool_false in E. unfold eps9 in E. lra.
Qed.

Lemma delta_max_ge (ind_norm : list (list Q)) (d : Q) :
  In d (all_deltas ind_norm) -> d <= delta_max ind_norm.
Proof.
  intros Hd. unfold delta_max.
  assert (Hm : d <= match all_deltas ind_norm with [] => 1 | d0 :: r => Py.max_from d0 r end).
  { destruct (all_deltas ind_norm) as [|d0 r]; [destruct Hd|apply max_from_ge, Hd]. }
  destruct (Qle_bool _ eps9) eqn:E; [|exact Hm].
  apply Qle_bool_iff in E. unfold eps9 in E. lra.
Qed.

Section Gamma.

Variables dmin dmax rho : Q.
Hypothesis rho_pos : 0 < rho.
Hypothesis dmax_pos : 0 < dmax.
Hypothesis dmin_nonneg : 0 <= dmin.

Lemma gamma_den_pos (x : Q) : 0 < Qabs (1 - x) + rho * dmax.
Proof.
  pose proof (Qabs_nonneg (1 - x)). pose proof (Qmult_lt_0_compat _ _ rho_pos dmax_pos). lra.
Qed.

Lemma gamma_bounds (x : Q) :
  dmin <= Qabs (1 - x) <= dmax -> rho / (1 + rho) <= gamma dmin dmax rho x <= 1.
Proof.
  intros [H1 H2]. pose proof (gamma_den_pos x) as Hd. unfold gamma. split.
  - apply Qle_shift_div_l; [exact Hd|].
    apply Qle_trans with (rho / (1 + rho) * (dmax + rho * dmax)).
    + apply Qmult_le_compat_l; [lra|]. apply Qdiv_nonneg; lra.
    + assert (E : rho / (1 + rho) * (dmax + rho * dmax) == rho * dmax) by (field; lra).
      rewrite E. lra.
  - apply Qle_shift_div_r; [exact Hd|]. lra.
Qed.

Lemma gamma_one (x : Q) : dmin == 0 -> x == 1 -> gamma dmin dmax rho x == 1.
Proof.
  intros H0 H1. pose proof (Qmult_lt_0_compat _ _ rho_pos dmax_pos).
  unfold gamma. rewrite H0, H1. change (Qabs (1 - 1)) with 0. field. lra.
Qed.

Lemma gamma_lt_one (x : Q) : dmin < Qabs (1 - x) -> gamma dmin dmax rho x < 1.
Proof.
  intros H. pose proof (gamma_den_pos x) as Hd. unfold gamma.
  apply Qlt_shift_div_r; [exact Hd|]. lra.
Qed.

End Gamma.

(* ------------------------------------------------------------------ *)
(** ** Weighted sums of coefficients *)

Lemma fst_combine {A B} (l1 : list A) (l2 : list B) :
  length l1 = length l2 -> map fst (combine l1 l2) = l1.
Proof.
  revert l2. induction l1 as [|a l1 IH]; intros [|b l2] H; simpl in *; try congruence.
  f_equal. apply IH. lia.
Qed.

Lemma gamma_sum_eq (kw : list Q) (ind_norm : list (list Q)) (dmin dmax rho : Q) (i : nat) :
  gamma_sum kw ind_norm dmin dmax rho i
  == Py.sum (map (fun p => p.1 * gamma dmin dmax rho (nth i p.2 0)) (combine kw ind_norm)).
Proof.
  unfold gamma_sum.
  assert (G : forall L a, fold_left (fun acc '(w, col) => acc + w * gamma dmin dmax rho (nth i col 0)) L a
    == a + Py.sum (map (fun p => p.1 * gamma dmin dmax rho (nth i p.2 0)) L)).
  { induction L as [|[w col] L IH]; intros a; simpl fold_left; simpl map.
    - unfold Py.sum; simpl. ring.
    - rewrite IH, sum_cons. simpl. ring. }
  rewrite G. ring.
Qed.

Section WeightedSum.

Variable g : Q * list Q -> Q.

Lemma wsum_bounds (L : list (Q * list Q)) (lo : Q) :
  (forall p, In p L -> 0 <= p.1 /\ lo <= g p <= 1) ->
  lo * Py.sum (map fst L) <= Py.sum (map (fun p => p.1 * g p) L) <= Py.sum (map fst L).
Proof.
  induction L as [|p L IH]; intros H; simpl map.
  - unfold Py.sum; simpl. lra.
  - rewrite !sum_cons. destruct (H p (or_introl eq_refl)) as [Hw [Hg1 Hg2]].
    destruct (IH (fun q Hq => H q (or_intror Hq))) as [I1 I2].
    assert (p.1 * lo <= p.1 * g p) by (apply Qmult_le_compat_l; assumption).
    assert (p.1 * g p <= p.1 * 1) by (apply Qmult_le_compat_l; assumption).
    split; [|lra].
    assert (E : lo * (p.1 + Py.sum (map fst L)) == p.1 * lo + lo * Py.sum (map fst L)) by ring.
    rewrite E. lra.
Qed.

Lemma wsum_strict (L : list (Q * list Q)) :
  (forall p, In p L -> 0 <= p.1 /\ 0 <= g p < 1) ->
  0 < Py.sum (map fst L) ->
  Py.sum (map (fun p => p.1 * g p) L) < Py.sum (map fst L).
Proof.
  induction L as [|p L IH]; intros H Hpos; simpl map in *.
  - unfold Py.sum in Hpos; simpl in Hpos. lra.
  - rewrite !sum_cons in *. destruct (H p (or_introl eq_refl)) as [Hw [Hg0 Hg1]].
    assert (HL : forall q, In q L -> 0 <= q.1 /\ 0 <= g q <= 1).
    { intros q Hq. destruct (H q (or_intror Hq)) as [? [? ?]]. split; [assumption|lra]. }
    destruct (wsum_bounds L 0 HL) as [_ I2].
    destruct (Qlt_le_dec 0 p.1) as [Hp|Hp].
    + assert (p.1 * g p < p.1 * 1).
      { rewrite !(Qmult_comm p.1). apply Qmult_lt_compat_r; assumption. }
      lra.
    + assert (E : p.1 == 0) by lra. rewrite E in *.
      assert (0 < Py.sum (map fst L)) by lra.
      assert (Py.sum (map (fun p => p.1 * g p) L) < Py.sum (map fst L)).
      { apply IH; [|assumption]. intros q Hq. apply H. now right. }
      assert (E2 : 0 * g p == 0) by ring. lra.
Qed.

Lemma wsum_one (L : list (Q * list Q)) :
  (forall p, In p L -> g p == 1) ->
  Py.sum (map (fun p => p.1 * g p) L) == Py.sum (map fst L).
Proof.
  intros H. apply sum_map_ext. intros p Hp. rewrite (H p Hp). ring.
Qed.

End WeightedSum.

(* ------------------------------------------------------------------ *)
(** ** Grey relation and final score *)

Section Scores.

Variable sqrt : Q -> Q.
Hypothesis sqrt_nonneg : forall x, 0 <= x -> 0 <= sqrt x.
Variable rho : Q.
Hypothesis rho_pos : 0 < rho.
Variables (ind_raw : list (list Q)) (wd : list Q).
Hypothesis ind_raw_ne : ind_raw <> [].
Hypothesis ind_raw_len : Forall (fun col => length col = length wd) ind_raw.

Let ind_norm := map minmax ind_raw.
Let kw := k_weights sqrt ind_norm.

Lemma ind_norm_ne : ind_norm <> [].
Proof. unfold ind_norm. destruct ind_raw; [congruence|discriminate]. Qed.

Lemma kw_sum : Py.sum (map fst (combine kw ind_norm)) == 1.
Proof.
  rewrite fst_combine by apply k_weights_length.
  apply (k_weights_bounds sqrt sqrt_nonneg _ ind_norm_ne).
Qed.

Lemma combine_entry (i : nat) (p : Q * list Q) :
  (i < length wd)%nat -> In p (combine kw ind_norm) ->
  0 <= p.1 /\ In (Qabs (1 - nth i p.2 0)) (all_deltas ind_norm).
Proof.
  intros Hi Hp. destruct p as [w col]. simpl.
  pose proof (in_combine_l _ _ _ _ Hp) as Hw. pose proof (in_combine_r _ _ _ _ Hp) as Hc.
  split.
  - destruct (k_weights_bounds sqrt sqrt_nonneg _ ind_norm_ne) as [Hb _].
    apply (proj1 (List.Forall_forall _ _) Hb w Hw).
  - apply (in_all_deltas _ col); [exact Hc|]. apply nth_In.
    unfold ind_norm in Hc. apply in_map_iff in Hc as [c [<- Hc]].
    rewrite minmax_length. rewrite (proj1 (List.Forall_forall _ _) ind_raw_len c Hc). exact Hi.
Qed.

Lemma grey_bounds (i : nat) :
  (i < length wd)%nat ->
  rho / (1 + rho) <= gamma_sum kw ind_norm (delta_min ind_norm) (delta_max ind_norm) rho i <= 1.
Proof.
  intros Hi. rewrite gamma_sum_eq.
  destruct (wsum_bounds (fun p => gamma (delta_min ind_norm) (delta_max ind_norm) rho (nth i p.2 0))
              (combine kw ind_norm) (rho / (1 + rho))) as [B1 B2].
  - intros p Hp. destruct (combine_entry i p Hi Hp) as [Hw Hd]. split; [exact Hw|].
    apply gamma_bounds; [exact rho_pos|apply delta_max_pos|apply delta_min_nonneg|].
    split; [apply delta_min_le, Hd|apply delta_max_ge, Hd].
  - rewrite kw_sum in B1, B2. split; lra.
Qed.

End Scores.

(** C10: for any [rho > 0], any square root that is nonnegative on
    nonnegative inputs, at least one indicator and indicator columns with
    one value per node, every node's grey relation score lies in
    [[rho / (1 + rho), 1]], hence in (0, 1], and every node's final score
    [0.75 grey + 0.25 normalised weighted degree] lies in (0, 1]. *)
Theorem gra_scores_bounded (sqrt : Q -> Q) (sqrt_nonneg : forall x, 0 <= x -> 0 <= sqrt x)
    (rho : Q) (ind_raw : list (list Q)) (wd : list Q) :
  0 < rho ->
  ind_raw <> [] ->
  Forall (fun col => length col = length wd) ind_raw ->
  let o := gra sqrt rho ind_raw wd in
  length (grey_relation o) = length wd
  /\ length (final_score o) = length wd
  /\ Forall (fun g => 0 < rho / (1 + rho) <= g /\ g <= 1) (grey_relation o)
  /\ Forall (fun f => 0 < f <= 1) (final_score o).
Proof.
  intros Hrho Hne Hlen o. unfold o, gra. simpl grey_relation; simpl final_score.
  assert (Hlow : 0 < rho / (1 + rho)) by (apply Qlt_shift_div_l; lra).
  split; [rewrite length_map; apply length_seq|].
  split; [rewrite length_map; apply length_seq|]. split.
  - apply List.Forall_forall. intros g Hg. apply in_map_iff in Hg as [i [<- Hi]].
    apply in_seq in Hi. split; [split; [exact Hlow|]|];
      apply (grey_bounds sqrt sqrt_nonneg rho Hrho ind_raw wd Hne Hlen i); lia.
  - apply List.Forall_forall. intros f Hf. apply in_map_iff in Hf as [i [<- Hi]].
    apply in_seq in Hi.
    destruct (grey_bounds sqrt sqrt_nonneg rho Hrho ind_raw wd Hne Hlen i ltac:(lia)) as [G1 G2].
    assert (Hw : 0 <= nth i (minmax wd) 0 <= 1).
    { apply (proj1 (List.Forall_forall _ _) (minmax_bounds wd)). apply nth_In.
      rewrite minmax_length. lia. }
    split; lra.
Qed.

Lemma nth_map_seq (f : nat -> Q) (n i : nat) :
  (i < n)%nat -> nth i (map f (seq 0 n)) 0 = f i.
Proof.
  intros Hi. rewrite (nth_indep _ 0 (f 0%nat)) by (rewrite length_map, length_seq; exact Hi).
  rewrite map_nth, seq_nth by exact Hi. reflexivity.
Qed.

(** C2: with [rho > 0], at least one indicator and indicator columns with
    one value per node, if the normalised indicator vector of the node at
    position [i] is all ones and every other node's normalised value is
    below 1 on every indicator, then the grey relation score of [i] is 1
    and every other node's grey relation score is strictly smaller. *)
Theorem gra_ideal_node_dominates (sqrt : Q -> Q) (sqrt_nonneg : forall x, 0 <= x -> 0 <= sqrt x)
    (rho : Q) (ind_raw : list (list Q)) (wd : list Q) (i : nat) :
  0 < rho ->
  ind_raw <> [] ->
  Forall (fun col => length col = length wd) ind_raw ->
  (i < length wd)%nat ->
  Forall (fun col => nth i (minmax col) 0 == 1) ind_raw ->
  (forall j, (j < length wd)%nat -> j <> i -> Forall (fun col => nth j (minmax col) 0 < 1) ind_raw) ->
  let g := grey_relation (gra sqrt rho ind_raw wd) in
  nth i g 0 == 1 /\ (forall j, (j < length wd)%nat -> j <> i -> nth j g 0 < nth i g 0).
Proof.
  intros Hrho Hne Hlen Hi Hideal Hworse g. unfold g, gra. simpl grey_relation.
  set (ind_norm := map minmax ind_raw).
  set (kw := k_weights sqrt ind_norm).
  pose proof (kw_sum sqrt sqrt_nonneg ind_raw wd Hne Hlen) as Hsum. fold ind_norm kw in Hsum.
  assert (Hcol : forall p, In p (combine kw ind_norm) ->
            exists col, In col ind_raw /\ p.2 = minmax col).
  { intros [w c] Hp. apply in_combine_r in Hp. unfold ind_norm in Hp.
    apply in_map_iff in Hp as [col [<- Hc]]. exists col. split; [exact Hc|reflexivity]. }
  assert (Hdmin : delta_min ind_norm == 0).
  { destruct ind_raw as [|col0 rest] eqn:E; [congruence|].
    assert (Hd : In (Qabs (1 - nth i (minmax col0) 0)) (all_deltas ind_norm)).
    { apply (in_all_deltas _ (minmax col0)); [unfold ind_norm; left; reflexivity|].
      apply nth_In. rewrite minmax_length.
      inversion Hlen as [|? ? Hl0 _]. rewrite Hl0. exact Hi. }
    pose proof (delta_min_le _ _ Hd) as H1. pose proof (delta_min_nonneg ind_norm) as H0.
    inversion Hideal as [|? ? Hv _]. rewrite Hv in H1. change (Qabs (1 - 1)) with 0 in H1. lra. }
  assert (Hgi : gamma_sum kw ind_norm (delta_min ind_norm) (delta_max ind_norm) rho i == 1).
  { rewrite gamma_sum_eq. rewrite wsum_one; [exact Hsum|].
    intros p Hp. destruct (Hcol p Hp) as [col [Hc ->]].
    apply gamma_one; [exact Hrho|apply delta_max_pos|exact Hdmin|].
    apply (proj1 (List.Forall_forall _ _) Hideal col Hc). }
  rewrite nth_map_seq by exact Hi. split; [exact Hgi|].
  intros j Hj Hji. rewrite nth_map_seq by exact Hj. rewrite Hgi.
  rewrite gamma_sum_eq. rewrite <- Hsum. apply wsum_strict; [|lra].
  intros p Hp. destruct (combine_entry sqrt sqrt_nonneg ind_raw wd Hne Hlen j p Hj Hp) as [Hw Hd].
  split; [exact Hw|]. split.
  - destruct (gamma_bounds (delta_min ind_norm) (delta_max ind_norm) rho Hrho
                (delta_max_pos _) (delta_min_nonneg _) (nth j p.2 0)) as [G1 _].
    + split; [apply delta_min_le, Hd|apply delta_max_ge, Hd].
    + assert (0 < rho / (1 + rho)) by (apply Qlt_shift_div_l; lra). lra.
  - apply gamma_lt_one; [exact Hrho|apply delta_max_pos|].
    rewrite Hdmin. destruct (Hcol p Hp) as [col [Hc Hp2]]. rewrite Hp2.
    pose proof (proj1 (List.Forall_forall _ _) (Hworse j Hj Hji) col Hc) as Hx. cbv beta in Hx.
    rewrite Qabs_pos by lra. lra.
Qed.

(* ------------------------------------------------------------------ *)
(** ** Examples of the scoring stage *)

Lemma qsqrt_nonneg (x : Q) : 0 <= x -> 0 <= qsqrt x.
Proof.
  intros _. unfold qsqrt. apply Qdiv_nonneg; [|discriminate].
  change 0 with (inject_Z 0). rewrite <- Zle_Qle. apply Z.sqrt_nonneg.
Qed.

Lemma indicator_weights_normalized_witness :
  Py.sum (k_weight (gra qsqrt 0.5 ex_ind_raw ex_wd)) == 1.
Proof.
  destruct (indicator_weights_normalized qsqrt qsqrt_nonneg 0.5 ex_ind_raw ex_wd
              ltac:(discriminate)) as (_ & _ & H & _).
  exact H.
Defined.

Lemma gra_scores_bounded_witness :
  Forall (fun f => 0 < f <= 1) (final_score (gra qsqrt 0.5 ex_ind_raw ex_wd)).
Proof.
  destruct (gra_scores_bounded qsqrt qsqrt_nonneg 0.5 ex_ind_raw ex_wd
              ltac:(reflexivity) ltac:(discriminate) ltac:(repeat constructor))
    as (_ & _ & _ & H).
  exact H.
Defined.

Lemma gra_ideal_node_dominates_witness :
  nth 0 (grey_relation (gra qsqrt 0.5 ex_ind_raw ex_wd)) 0 == 1
  /\ nth 1 (grey_relation (gra qsqrt 0.5 ex_ind_raw ex_wd)) 0
     < nth 0 (grey_relation (gra qsqrt 0.5 ex_ind_raw ex_wd)) 0.
Proof.
  assert (Hw : forall j, (j < length ex_wd)%nat -> j <> 0%nat ->
             Forall (fun col => nth j (minmax col) 0 < 1) ex_ind_raw).
  { intros j Hj Hj0. destruct j as [|[|[|j]]]; simpl in Hj; try lia;
      repeat constructor; vm_compute; reflexivity. }
  destruct (gra_ideal_node_dominates qsqrt qsqrt_nonneg 0.5 ex_ind_raw ex_wd 0
              ltac:(reflexivity) ltac:(discriminate) ltac:(repeat constructor)
              ltac:(simpl; lia) ltac:(repeat constructor) Hw) as [H1 H2].
  split; [exact H1|]. apply H2; [simpl; lia|lia].
Defined.

(* ------------------------------------------------------------------ *)
(** ** Characters and stripping *)







(* ------------------------------------------------------------------ *)
(** ** Parsing digits *)







Lemma q_trunc_nonneg (q : Q) : 0 <= q -> q_trunc q = Qfloor q.
Proof. intros H. unfold q_trunc. apply Qle_bool_iff in H. now rewrite H. Qed.


(* ------------------------------------------------------------------ *)
(** ** Rounding integers to binary64 *)













(* ------------------------------------------------------------------ *)
(** ** [to_int] on the documented spellings *)

























(* ------------------------------------------------------------------ *)
(** ** The ranking order *)

Lemma ascii_compare_refl (c : Ascii.ascii) : Ascii.compare c c = Eq.
Proof. unfold Ascii.compare. apply N.compare_refl. Qed.

Lemma string_compare_refl (s : string) : String.compare s s = Eq.
Proof. induction s as [|c s IH]; simpl; [reflexivity|]. rewrite ascii_compare_refl. exact IH. Qed.

Lemma string_compare_trans (s1 s2 s3 : string) :
  String.compare s1 s2 = Lt -> String.compare s2 s3 = Lt -> String.compare s1 s3 = Lt.
Proof.
  revert s2 s3. induction s1 as [|c1 s1 IH]; intros [|c2 s2] [|c3 s3]; simpl;
    try discriminate; try reflexivity.
  unfold Ascii.compare.
  destruct (N.compare_spec (N_of_ascii c1) (N_of_ascii c2)) as [E12|L12|G12];
  destruct (N.compare_spec (N_of_ascii c2) (N_of_ascii c3)) as [E23|L23|G23];
  try discriminate; intros H1 H2.
  - rewrite E12, E23, N.compare_refl. exact (IH _ _ H1 H2).
  - rewrite (proj2 (N.compare_lt_iff _ _) (eq_ind_r (fun n => (n < _)%N) L23 E12)). reflexivity.
  - rewrite (proj2 (N.compare_lt_iff _ _) (eq_ind _ (fun n => (_ < n)%N) L12 _ E23)). reflexivity.
  - rewrite (proj2 (N.compare_lt_iff (N_of_ascii c1) (N_of_ascii c3)) ltac:(lia)). reflexivity.
Qed.

Lemma qcompare_case (a b : Q) (x : bool) :
  match a ?= b with Lt => true | Gt => false | Eq => x end = true
  <-> a < b \/ (a == b /\ x = true).
Proof.
  destruct (Qcompare_spec a b) as [E|L|G]; split; intros H.
  - right. split; assumption.
  - destruct H as [L|[_ H]]; [lra|exact H].
  - left. exact L.
  - reflexivity.
  - discriminate.
  - destruct H as [L|[E _]]; lra.
Qed.

Lemma key_lt_iff (a1 b1 c1 a2 b2 c2 : Q) (s1 s2 : string) :
  key_lt (a1, b1, c1, s1) (a2, b2, c2, s2) = true
  <-> a1 < a2 \/ (a1 == a2 /\ (b1 < b2 \/ (b1 == b2 /\ (c1 < c2 \/ (c1 == c2
        /\ String.compare s1 s2 = Lt))))).
Proof.
  unfold key_lt. rewrite qcompare_case, qcompare_case, qcompare_case.
  destruct (String.compare s1 s2); intuition discriminate.
Qed.

Lemma key_lt_false (a1 b1 c1 a2 b2 c2 : Q) (s1 s2 : string) :
  key_lt (a1, b1, c1, s1) (a2, b2, c2, s2) = false
  /\ key_lt (a2, b2, c2, s2) (a1, b1, c1, s1) = false
  <-> a1 == a2 /\ b1 == b2 /\ c1 == c2 /\ s1 = s2.
Proof.
  rewrite <- !not_true_iff_false, !key_lt_iff. split.
  - intros [H1 H2].
    destruct (Qcompare_spec a1 a2) as [Ea|La|Ga]; [|tauto|tauto].
    destruct (Qcompare_spec b1 b2) as [Eb|Lb|Gb];
      [|tauto|exfalso; apply H2; right; split; [lra|left; exact Gb]].
    destruct (Qcompare_spec c1 c2) as [Ec|Lc|Gc];
      [|tauto|exfalso; apply H2; right; split; [lra|right; split; [lra|left; exact Gc]]].
    repeat split; try assumption.
    destruct (String.compare s1 s2) eqn:Es.
    + apply String.compare_eq_iff. exact Es.
    + tauto.
    + exfalso. apply H2. right. split; [lra|]. right. split; [lra|]. right. split; [lra|].
      rewrite String.compare_antisym, Es. reflexivity.
  - intros (Ea & Eb & Ec & ->). rewrite string_compare_refl. split; intuition (discriminate || lra).
Qed.

Lemma rank_rows_scores (nm : gmap string RankMetrics) (nodes : list Node) (r : RankRow) :
  In r (rank_rows nm nodes) ->
  r_quanzhong_score r = match nm !! r_id r with Some m => m_quanzhong_score m | None => 0 end
  /\ r_grey_relation r = match nm !! r_id r with Some m => m_grey_relation m | None => 0 end
  /\ r_association_weight r = match nm !! r_id r with Some m => m_association_weight m | None => 0 end.
Proof.
  unfold rank_rows. rewrite in_flat_map. intros [node [_ Hr]].
  destruct (String.eqb (node_key node) "") ; [destruct Hr|].
  destruct Hr as [<-|[]]. simpl. auto.
Qed.

(** C5 (amended). The sort key of [quanzhong_rank.py] (lines 72-79) is
    compared by a strict weak order: no key is below itself, and the order
    is transitive. Two rows tie exactly when their composite scores, grey
    relations and association weights are equal and their handles are equal
    after lower-casing; in particular every two rows with the same [id] and
    the same [handle] tie, whatever else their node records hold. *)
Theorem rank_key_weak_order :
  (forall k, key_lt k k = false)
  /\ (forall k1 k2 k3, key_lt k1 k2 = true -> key_lt k2 k3 = true -> key_lt k1 k3 = true)
  /\ (forall r1 r2, rank_tie r1 r2 = true <->
        r_quanzhong_score r1 == r_quanzhong_score r2
        /\ r_grey_relation r1 == r_grey_relation r2
        /\ r_association_weight r1 == r_association_weight r2
        /\ Py.lower (r_handle r1) = Py.lower (r_handle r2))
  /\ (forall nm nodes r1 r2, In r1 (rank_rows nm nodes) -> In r2 (rank_rows nm nodes) ->
        r_id r1 = r_id r2 -> r_handle r1 = r_handle r2 -> rank_tie r1 r2 = true).
Proof.
  assert (Htie : forall r1 r2, rank_tie r1 r2 = true <->
        r_quanzhong_score r1 == r_quanzhong_score r2
        /\ r_grey_relation r1 == r_grey_relation r2
        /\ r_association_weight r1 == r_association_weight r2
        /\ Py.lower (r_handle r1) = Py.lower (r_handle r2)).
  { intros r1 r2. unfold rank_tie, rank_key.
    rewrite andb_true_iff, !negb_true_iff, key_lt_false.
    split; intros (Ha & Hb & Hc & Hs); repeat split; try assumption; lra. }
  split; [|split; [|split; [exact Htie|]]].
  - intros [[[a b] c] s]. apply not_true_iff_false. rewrite key_lt_iff.
    rewrite string_compare_refl. intuition (discriminate || lra).
  - intros [[[a1 b1] c1] s1] [[[a2 b2] c2] s2] [[[a3 b3] c3] s3].
    rewrite !key_lt_iff. intros H1 H2.
    destruct H1 as [L1|[E1 [L1|[F1 [L1|[G1 S1]]]]]];
    destruct H2 as [L2|[E2 [L2|[F2 [L2|[G2 S2]]]]]];
    first [ left; lra
          | right; split; [lra|];
            first [ left; lra
                  | right; split; [lra|];
                    first [ left; lra
                          | right; split; [lra|]; eauto using string_compare_trans ] ] ].
  - intros nm nodes r1 r2 H1 H2 Hid Hh. apply Htie.
    destruct (rank_rows_scores nm nodes r1 H1) as (A1 & B1 & C1).
    destruct (rank_rows_scores nm nodes r2 H2) as (A2 & B2 & C2).
    rewrite A1, B1, C1, A2, B2, C2, Hid, Hh. repeat split; reflexivity.
Qed.

(** C5 counterexample: two node records with the same [id] and [handle]
    but different names give two distinct rows whose sort keys tie. *)
Lemma rank_key_weak_order_counterexample :
  let nodes := [mkNode (Some "a") (Some "a") (Some "X"); mkNode (Some "a") (Some "a") (Some "Y")] in
  let nm := {[ "a" := mkRankMetrics 0.4 0.7 0.3 ]} : gmap string RankMetrics in
  exists r1 r2, rank_rows nm nodes = [r1; r2] /\ r1 <> r2 /\ rank_tie r1 r2 = true.
Proof.
  vm_compute. eexists. eexists. split; [reflexivity|]. split; [|reflexivity].
  intros E. injection E. discriminate.
Qed.

(* ------------------------------------------------------------------ *)
(** ** Stable sorting *)


Lemma insert_by_perm {A} (lt : A -> A -> bool) (x : A) (l : list A) :
  Permutation (insert_by lt x l) (x :: l).
Proof.
  induction l as [|y r IH]; simpl; [reflexivity|].
  destruct (lt x y); [reflexivity|].
  rewrite IH. apply perm_swap.
Qed.

Lemma sort_by_perm {A} (lt : A -> A -> bool) (l : list A) :
  Permutation (sort_by lt l) l.
Proof.
  unfold sort_by.
  assert (G : forall acc, Permutation (fold_left (fun acc x => insert_by lt x acc) l acc) (l ++ acc)).
  { induction l as [|x r IH]; intros acc; simpl; [reflexivity|].
    rewrite IH, insert_by_perm. apply Permutation_sym, Permutation_middle. }
  rewrite G, app_nil_r. reflexivity.
Qed.


Section SortBy.
Context {A : Type} (lt : A -> A -> bool).
Hypothesis lt_irrefl : forall x, lt x x = false.
Hypothesis lt_trans : forall x y z, lt x y = true -> lt y z = true -> lt x z = true.

Lemma insert_by_sorted (x : A) (l : list A) :
  StronglySorted (fun a b => lt b a = false) l ->
  StronglySorted (fun a b => lt b a = false) (insert_by lt x l).
Proof.
  induction l as [|y r IH]; intros H; simpl.
  - repeat constructor.
  - apply StronglySorted_inv in H as [Hr Hy].
    destruct (lt x y) eqn:Exy.
    + constructor; [constructor; assumption|].
      constructor.
      * destruct (lt y x) eqn:Eyx; [|reflexivity].
        rewrite <- (lt_irrefl x). symmetry. exact (lt_trans _ _ _ Exy Eyx).
      * apply List.Forall_forall. intros z Hz.
        pose proof (proj1 (List.Forall_forall _ _) Hy z Hz) as Hyz. cbv beta in Hyz.
        destruct (lt z x) eqn:Ezx; [|reflexivity].
        rewrite (lt_trans _ _ _ Ezx Exy) in Hyz. discriminate.
    + constructor; [apply IH, Hr|].
      apply List.Forall_forall. intros z Hz.
      apply (Permutation_in _ (insert_by_perm lt x r)) in Hz.
      destruct Hz as [<-|Hz]; [exact Exy|].
      exact (proj1 (List.Forall_forall _ _) Hy z Hz).
Qed.

Lemma sort_by_sorted (l : list A) :
  StronglySorted (fun a b => lt b a = false) (sort_by lt l).
Proof.
  unfold sort_by.
  assert (G : forall acc, StronglySorted (fun a b => lt b a = false) acc ->
    StronglySorted (fun a b => lt b a = false) (fold_left (fun acc x => insert_by lt x acc) l acc)).
  { induction l as [|x r IH]; intros acc Hacc; simpl; [exact Hacc|].
    apply IH, insert_by_sorted, Hacc. }
  apply G. constructor.
Qed.

End SortBy.

Lemma strongly_sorted_nth {A} (R : A -> A -> Prop) (l : list A) (i j : nat) (a b : A) :
  StronglySorted R l -> (i < j)%nat -> nth_error l i = Some a -> nth_error l j = Some b -> R a b.
Proof.
  intros H. revert i j. induction H as [|x r Hr IH Hx]; intros i j Hij Hi Hj.
  - destruct i; discriminate.
  - destruct j as [|j]; [lia|]. simpl in Hj.
    destruct i as [|i]; simpl in Hi.
    + injection Hi as <-. apply nth_error_In in Hj.
      exact (proj1 (List.Forall_forall _ _) Hx b Hj).
    + apply (IH i j); [lia|assumption|assumption].
Qed.


(* ------------------------------------------------------------------ *)
(** ** Quantile thresholds *)

Lemma quantile_index (l : list Q) (q : Q) :
  l <> [] -> 0 <= q <= 1 ->
  let k := Z.to_nat (Qfloor (inject_Z (Z.of_nat (length l) - 1) * q)) in
  (k < length l)%nat
  /\ Z.of_nat k = Qfloor (inject_Z (Z.of_nat (length l) - 1) * q)
  /\ quantile_threshold l q = nth k l 0.
Proof.
  intros Hne [Hq0 Hq1] k.
  assert (Hn : (1 <= length l)%nat) by (destruct l; [congruence|simpl; lia]).
  set (x := inject_Z (Z.of_nat (length l) - 1) * q).
  assert (Hm : 0 <= inject_Z (Z.of_nat (length l) - 1)).
  { change 0 with (inject_Z 0). rewrite <- Zle_Qle. lia. }
  assert (Hx0 : 0 <= x) by (apply Qmult_le_0_compat; assumption).
  assert (Hx1 : x <= inject_Z (Z.of_nat (length l) - 1)).
  { pose proof (Qmult_le_compat_l q 1 _ Hq1 Hm). unfold x. lra. }
  assert (Hf0 : (0 <= Qfloor x)%Z).
  { rewrite <- (Qfloor_Z 0). apply Qfloor_resp_le. exact Hx0. }
  assert (Hf1 : (Qfloor x <= Z.of_nat (length l) - 1)%Z).
  { pose proof (Qfloor_le x). rewrite Zle_Qle. lra. }
  unfold k. fold x. split; [lia|]. split; [lia|].
  unfold quantile_threshold. destruct l as [|v r]; [congruence|].
  rewrite q_trunc_nonneg by exact Hx0. fold x.
  f_equal. f_equal. lia.
Qed.

(** Extra: [quantile_threshold] (build_circle_layers.py, lines 56-60)
    gives 0.0 for an empty list; for a non-empty list and [0 <= q <= 1] it
    returns the value at position [floor((n - 1) * q)], which is a valid
    position, so the threshold is one of the values. *)
Theorem quantile_threshold_pick (l : list Q) (q : Q) :
  l <> [] -> 0 <= q <= 1 ->
  quantile_threshold [] q = 0
  /\ exists k, (k < length l)%nat
       /\ Z.of_nat k = Qfloor (inject_Z (Z.of_nat (length l) - 1) * q)
       /\ quantile_threshold l q = nth k l 0
       /\ In (quantile_threshold l q) l.
Proof.
  intros Hne Hq. split; [reflexivity|].
  destruct (quantile_index l q Hne Hq) as (Hk & Hz & He).
  eexists. split; [exact Hk|]. split; [exact Hz|]. split; [exact He|].
  rewrite He. apply nth_In, Hk.
Qed.

Lemma quantile_threshold_pick_witness :
  exists k, (k < 5)%nat /\ Z.of_nat k = 3%Z
    /\ quantile_threshold [1; 2; 3; 4; 5] 0.8 = nth k [1; 2; 3; 4; 5] 0.
Proof.
  destruct (quantile_threshold_pick [1; 2; 3; 4; 5] 0.8 ltac:(discriminate)
              ltac:(split; vm_compute; discriminate)) as [_ [k (Hk & Hz & He & _)]].
  exists k. split; [exact Hk|]. split; [exact Hz|]. exact He.
Defined.

(** Extra: on a list sorted upwards, as [build_layers] passes it,
    [quantile_threshold] is monotone in the quantile: for
    [0 <= q <= q' <= 1] the [q]-threshold is at most the [q']-threshold. *)
Theorem quantile_threshold_monotone (l : list Q) (q q' : Q) :
  StronglySorted Qle l -> 0 <= q -> q <= q' -> q' <= 1 ->
  quantile_threshold l q <= quantile_threshold l q'.
Proof.
  intros Hs Hq Hqq Hq'.
  destruct l as [|v r]; [apply Qle_refl|].
  destruct (quantile_index (v :: r) q ltac:(discriminate) ltac:(lra)) as (Hk & Hz & ->).
  destruct (quantile_index (v :: r) q' ltac:(discriminate) ltac:(lra)) as (Hk' & Hz' & ->).
  set (k := Z.to_nat _) in *. set (k' := Z.to_nat _) in Hk', Hz' |- *.
  assert (Hle : (k <= k')%nat).
  { enough (Z.of_nat k <= Z.of_nat k')%Z by lia. rewrite Hz, Hz'.
    apply Qfloor_resp_le. apply Qmult_le_compat_l; [exact Hqq|].
    change 0 with (inject_Z 0). rewrite <- Zle_Qle. simpl length. lia. }
  destruct (Nat.eq_dec k k') as [<-|Hne]; [apply Qle_refl|].
  apply (strongly_sorted_nth Qle (v :: r) k k'); [exact Hs|lia| |];
    apply nth_error_nth'; assumption.
Qed.

Lemma quantile_threshold_monotone_witness :
  quantile_threshold [1; 2; 3; 4; 5] 0.2 <= quantile_threshold [1; 2; 3; 4; 5] 0.8.
Proof.
  apply quantile_threshold_monotone.
  - repeat constructor; vm_compute; discriminate.
  - vm_compute; discriminate.
  - vm_compute; discriminate.
  - vm_compute; discriminate.
Defined.

(* ------------------------------------------------------------------ *)
(** ** Circle layers: ranking and layers *)

Lemma string_ltb_iff (s1 s2 : string) : String.ltb s1 s2 = true <-> String.compare s1 s2 = Lt.
Proof. unfold String.ltb. destruct (String.compare s1 s2); split; congruence. Qed.

Lemma layer_row_lt_fin_iff (r1 r2 : LayerRow) :
  layer_row_lt_fin r1 r2 = true
  <-> infl r2 < infl r1
      \/ (infl r1 == infl r2 /\ String.compare (lr_id r1) (lr_id r2) = Lt).
Proof.
  unfold layer_row_lt_fin. destruct (Qeq_bool (- infl r1) (- infl r2)) eqn:E.
  - apply Qeq_bool_iff in E. rewrite string_ltb_iff. split.
    + intros H. right. split; [lra|exact H].
    + intros [H|[_ H]]; [lra|exact H].
  - assert (E' : ~ (- infl r1 == - infl r2)).
    { intros C. rewrite (proj2 (Qeq_bool_iff _ _) C) in E. discriminate. }
    rewrite negb_true_iff. split.
    + intros H. apply Qle_bool_false in H. left. lra.
    + intros [H|[H _]]; [|exfalso; apply E'; lra].
      apply not_true_iff_false. rewrite Qle_bool_iff. lra.
Qed.

Lemma layer_row_lt_fin_irrefl (r : LayerRow) : layer_row_lt_fin r r = false.
Proof.
  apply not_true_iff_false. rewrite layer_row_lt_fin_iff, string_compare_refl.
  intros [H|[_ H]]; [lra|discriminate].
Qed.

Lemma layer_row_lt_fin_trans (r1 r2 r3 : LayerRow) :
  layer_row_lt_fin r1 r2 = true -> layer_row_lt_fin r2 r3 = true -> layer_row_lt_fin r1 r3 = true.
Proof.
  rewrite !layer_row_lt_fin_iff. intros [H1|[E1 S1]] [H2|[E2 S2]].
  - left. lra.
  - left. lra.
  - left. lra.
  - right. split; [lra|]. exact (string_compare_trans _ _ _ S1 S2).
Qed.

(** On rows with finite influence scores the float comparison of the sort
    key is the comparison of the rational scores. *)
Lemma layer_row_lt_fin_eq (r1 r2 : LayerRow) :
  is_fin (lr_influence r1) = true -> is_fin (lr_influence r2) = true ->
  layer_row_lt r1 r2 = layer_row_lt_fin r1 r2.
Proof.
  unfold layer_row_lt, layer_row_lt_fin, infl.
  destruct (lr_influence r1), (lr_influence r2); try discriminate. intros _ _. reflexivity.
Qed.

Lemma insert_by_ext {A} (lt lt' : A -> A -> bool) (x : A) (l : list A) :
  (forall y, In y l -> lt x y = lt' x y) -> insert_by lt x l = insert_by lt' x l.
Proof.
  induction l as [|y r IH]; intros H; simpl; [reflexivity|].
  rewrite (H y (or_introl eq_refl)).
  destruct (lt' x y); [reflexivity|]. f_equal. apply IH. intros z Hz. apply H. right. exact Hz.
Qed.

(** Two comparisons that agree on the elements of a list sort it alike. *)
Lemma sort_by_ext {A} (lt lt' : A -> A -> bool) (l : list A) :
  (forall x y, In x l -> In y l -> lt x y = lt' x y) -> sort_by lt l = sort_by lt' l.
Proof.
  unfold sort_by.
  assert (G : forall l acc, (forall x y, In x (l ++ acc) -> In y (l ++ acc) -> lt x y = lt' x y) ->
     fold_left (fun acc x => insert_by lt x acc) l acc
     = fold_left (fun acc x => insert_by lt' x acc) l acc).
  { clear l. induction l as [|x r IH]; intros acc H; [reflexivity|]. cbn [fold_left].
    assert (E : insert_by lt x acc = insert_by lt' x acc).
    { apply insert_by_ext. intros y Hy. apply H; [left; reflexivity|].
      right. apply in_or_app. right. exact Hy. }
    rewrite E. apply IH.
    assert (M : forall a, In a (r ++ insert_by lt' x acc) -> In a ((x :: r) ++ acc)).
    { intros a Ha. apply in_app_or in Ha as [Ha|Ha]; [right; apply in_or_app; left; exact Ha|].
      apply (Permutation_in _ (insert_by_perm lt' x acc)) in Ha as [<-|Ha]; [left; reflexivity|].
      right. apply in_or_app. right. exact Ha. }
    intros a b Ha Hb. apply H; apply M; assumption. }
  intros H. apply G. rewrite app_nil_r. exact H.
Qed.




Lemma nth_error_combine_seq {A} (l : list A) (s i : nat) :
  nth_error (combine (seq s (length l)) l) i = option_map (fun r => ((s + i)%nat, r)) (nth_error l i).
Proof.
  revert s i. induction l as [|x r IH]; intros s i; [destruct i; reflexivity|].
  destruct i as [|i]; simpl; [f_equal; f_equal; lia|].
  rewrite IH. destruct (nth_error r i); simpl; [f_equal; f_equal; lia|reflexivity].
Qed.

Lemma combine_seq_length {A} (l : list A) (s : nat) :
  length (combine (seq s (length l)) l) = length l.
Proof. rewrite length_combine, length_seq. lia. Qed.



Lemma layered_rows_rows (f : nat -> LayerRow -> LayeredRow) (rows : list LayerRow) (s : nat) :
  (forall i r, ly_row (f i r) = r) ->
  map ly_row (map (fun '(i, r) => f i r) (combine (seq s (length rows)) rows)) = rows.
Proof.
  intros Hf. revert s. induction rows as [|r rows IH]; intros s; [reflexivity|].
  simpl. rewrite Hf, IH. reflexivity.
Qed.


(** With finite influence scores, the rows of [build_layers] are the rows
    of [layer_rows] sorted by the key on the rational scores, each with its
    position and the layer of its score under the four thresholds. *)
Lemma build_layers_unfold (alpha beta : Q) (nodes : list NodeVal) (links : list LinkVal)
    (out : list LayeredRow) :
  build_layers alpha beta nodes links = Some out ->
  exists rows q80 q60 q40 q20,
    Permutation rows (layer_rows alpha beta nodes links)
    /\ (forall r, In r rows -> lr_influence r = Fin (infl r))
    /\ StronglySorted (fun a b => layer_row_lt_fin b a = false) rows
    /\ q80 = quantile_threshold (sort_by q_lt (map infl rows)) 0.80
    /\ q60 = quantile_threshold (sort_by q_lt (map infl rows)) 0.60
    /\ q40 = quantile_threshold (sort_by q_lt (map infl rows)) 0.40
    /\ q20 = quantile_threshold (sort_by q_lt (map infl rows)) 0.20
    /\ out = map (fun '(i, r) =>
                    let li := layer_index_of q80 q60 q40 q20 (infl r) in
                    mkLayeredRow r i (layer_name li) li)
               (combine (seq 1 (length rows)) rows).
Proof.
  unfold build_layers. set (rows0 := layer_rows alpha beta nodes links).
  destruct (forallb (fun r => is_fin (lr_influence r)) rows0) eqn:Hf; [|discriminate].
  intros Hs. injection Hs as <-.
  assert (Hfin : forall r, In r rows0 -> is_fin (lr_influence r) = true)
    by (apply forallb_forall; exact Hf).
  assert (Hsort : sort_by layer_row_lt rows0 = sort_by layer_row_lt_fin rows0).
  { apply sort_by_ext. intros x y Hx Hy. apply layer_row_lt_fin_eq; auto. }
  exists (sort_by layer_row_lt rows0). eexists _, _, _, _.
  split; [apply sort_by_perm|]. split.
  - intros r Hr. apply (Permutation_in _ (sort_by_perm _ _)) in Hr.
    pose proof (Hfin r Hr) as H. unfold infl. destruct (lr_influence r); [reflexivity|discriminate..].
  - split; [rewrite Hsort; apply sort_by_sorted; [exact layer_row_lt_fin_irrefl|exact layer_row_lt_fin_trans]|].
    repeat split; reflexivity.
Qed.

Lemma build_layers_rows (alpha beta : Q) (nodes : list NodeVal) (links : list LinkVal)
    (out : list LayeredRow) :
  build_layers alpha beta nodes links = Some out ->
  Permutation (map ly_row out) (layer_rows alpha beta nodes links)
  /\ (forall x, In x out -> lr_influence (ly_row x) = Fin (infl (ly_row x))).
Proof.
  intros Hb. destruct (build_layers_unfold _ _ _ _ _ Hb)
    as (rows & q80 & q60 & q40 & q20 & Hperm & Hfin & _ & _ & _ & _ & _ & Hout).
  assert (E : map ly_row out = rows).
  { rewrite Hout. apply layered_rows_rows. reflexivity. }
  split; [rewrite E; exact Hperm|].
  intros x Hx. apply Hfin. rewrite <- E. apply in_map, Hx.
Qed.

Lemma build_layers_in (alpha beta : Q) (nodes : list NodeVal) (links : list LinkVal)
    (out : list LayeredRow) (x : LayeredRow) :
  build_layers alpha beta nodes links = Some out -> In x out ->
  In (ly_row x) (layer_rows alpha beta nodes links) /\ lr_influence (ly_row x) = Fin (infl (ly_row x)).
Proof.
  intros Hb Hx. destruct (build_layers_rows _ _ _ _ _ Hb) as [Hp Hf].
  split; [|apply Hf, Hx].
  apply (Permutation_in _ Hp). apply in_map, Hx.
Qed.








Lemma filter_length_mono {A} (f g : A -> bool) (l : list A) :
  (forall x, f x = true -> g x = true) ->
  (length (List.filter f l) <= length (List.filter g l))%nat.
Proof.
  intros H. induction l as [|x r IH]; simpl; [lia|].
  destruct (f x) eqn:E; [rewrite (H x E); simpl; lia|]. destruct (g x); simpl; lia.
Qed.






(* ------------------------------------------------------------------ *)
(** ** Circle layers: score ranges *)

Lemma fle_trans (a b c : PyFloat) : fle a b = true -> fle b c = true -> fle a c = true.
Proof.
  destruct a, b, c; simpl; intros H1 H2; try discriminate; try reflexivity.
  rewrite Qle_bool_iff in *. lra.
Qed.

Lemma fle_refl (a : PyFloat) : a <> NaN -> fle a a = true.
Proof. destruct a; simpl; intros H; try reflexivity; [apply Qle_bool_iff, Qle_refl|congruence]. Qed.

Lemma flt_fle (a b : PyFloat) : flt a b = true -> fle a b = true.
Proof.
  destruct a, b; simpl; intros H; try discriminate; try reflexivity.
  apply negb_true_iff, Qle_bool_false in H. apply Qle_bool_iff. lra.
Qed.

Lemma flt_false_fle (a b : PyFloat) : a <> NaN -> b <> NaN -> flt a b = false -> fle b a = true.
Proof.
  destruct a, b; simpl; intros Ha Hb H; try discriminate; try reflexivity; try congruence.
  apply negb_false_iff in H. exact H.
Qed.

Lemma fmin_from_nan (l : list PyFloat) : fmin_from NaN l = NaN.
Proof. induction l as [|v r IH]; simpl; [reflexivity|]. destruct v; exact IH. Qed.

Lemma fmax_from_nan (l : list PyFloat) : fmax_from NaN l = NaN.
Proof. induction l as [|v r IH]; simpl; [reflexivity|]. exact IH. Qed.

(** [min(values)] started from a value that is not NaN is not NaN and is
    at most every value that is not NaN. *)
Lemma fmin_from_spec (cur : PyFloat) (l : list PyFloat) :
  cur <> NaN ->
  fmin_from cur l <> NaN /\ fle (fmin_from cur l) cur = true
  /\ (forall v, In v l -> v <> NaN -> fle (fmin_from cur l) v = true).
Proof.
  revert cur. induction l as [|v r IH]; intros cur Hc; simpl.
  - split; [exact Hc|]. split; [apply fle_refl, Hc|]. intros v [].
  - set (cur' := if flt v cur then v else cur).
    assert (Hc' : cur' <> NaN).
    { unfold cur'. destruct (flt v cur) eqn:E; [|exact Hc]. intros ->. discriminate. }
    destruct (IH cur' Hc') as (H1 & H2 & H3).
    split; [exact H1|]. split.
    + unfold cur' in H2. destruct (flt v cur) eqn:E; [|exact H2].
      exact (fle_trans _ _ _ H2 (flt_fle _ _ E)).
    + intros u [<-|Hu] Hn; [|apply H3; assumption].
      unfold cur' in H2. destruct (flt v cur) eqn:E; [exact H2|].
      exact (fle_trans _ _ _ H2 (flt_false_fle _ _ Hn Hc E)).
Qed.

Lemma fmax_from_spec (cur : PyFloat) (l : list PyFloat) :
  cur <> NaN ->
  fmax_from cur l <> NaN /\ fle cur (fmax_from cur l) = true
  /\ (forall v, In v l -> v <> NaN -> fle v (fmax_from cur l) = true).
Proof.
  revert cur. induction l as [|v r IH]; intros cur Hc; simpl.
  - split; [exact Hc|]. split; [apply fle_refl, Hc|]. intros v [].
  - set (cur' := if flt cur v then v else cur).
    assert (Hc' : cur' <> NaN).
    { unfold cur'. destruct (flt cur v) eqn:E; [|exact Hc]. intros ->. destruct cur; discriminate. }
    destruct (IH cur' Hc') as (H1 & H2 & H3).
    split; [exact H1|]. split.
    + unfold cur' in H2. destruct (flt cur v) eqn:E; [|exact H2].
      exact (fle_trans _ _ _ (flt_fle _ _ E) H2).
    + intros u [<-|Hu] Hn; [|apply H3; assumption].
      unfold cur' in H2. destruct (flt cur v) eqn:E; [exact H2|].
      exact (fle_trans _ _ _ (flt_false_fle _ _ Hc Hn E) H2).
Qed.

(** Every value of [minmax] on floats is NaN or a finite value in
    [0, 1]. *)
Lemma minmax_f_bounds (values : list PyFloat) (v : PyFloat) :
  In v (minmax_f values) -> v = NaN \/ exists a, v = Fin a /\ 0 <= a <= 1.
Proof.
  intros Hv. destruct values as [|v0 rest]; [destruct Hv|].
  unfold minmax_f in Hv.
  destruct (fle (fmax_from v0 rest) (fmin_from v0 rest)) eqn:Ehl.
  { apply in_map_iff in Hv as (x & <- & _). right. exists 0. split; [reflexivity|lra]. }
  apply in_map_iff in Hv as (x & <- & Hx).
  assert (Hn : v0 = NaN \/ v0 <> NaN) by (destruct v0; [right|right|right|left]; congruence).
  destruct Hn as [->|Hn].
  { left. rewrite fmin_from_nan. destruct x; reflexivity. }
  destruct (fmin_from_spec v0 rest Hn) as (Hlo & Hlo0 & Hlor).
  destruct (fmax_from_spec v0 rest Hn) as (Hhi & Hhi0 & Hhir).
  assert (Hx' : x = NaN \/ (fle (fmin_from v0 rest) x = true /\ fle x (fmax_from v0 rest) = true)).
  { destruct Hx as [<-|Hx]; [right; split; assumption|].
    assert (Hxn : x = NaN \/ x <> NaN) by (destruct x; [right|right|right|left]; congruence).
    destruct Hxn as [->|Hxn]; [left; reflexivity|right; split; [apply Hlor|apply Hhir]; assumption]. }
  revert Ehl Hlo Hhi Hx'.
  generalize (fmin_from v0 rest) (fmax_from v0 rest). intros lo hi Ehl Hlo Hhi Hx'.
  destruct Hx' as [->|[Hlx Hxh]]; [left; destruct (fsub hi lo); reflexivity|].
  destruct lo as [a| | |], hi as [b| | |], x as [c| | |]; simpl in Ehl, Hlx, Hxh |- *;
    try discriminate; try congruence;
    try (left; reflexivity); try (right; eexists; split; [reflexivity|lra]).
  apply Qle_bool_false in Ehl. apply Qle_bool_iff in Hlx, Hxh.
  destruct (Qeq_bool (Qred (b + - a)) 0) eqn:E.
  { apply Qeq_bool_iff in E. rewrite Qred_correct in E. lra. }
  right. eexists. split; [reflexivity|]. rewrite !Qred_correct. split.
  - apply Qle_shift_div_l; lra.
  - apply Qle_shift_div_r; lra.
Qed.

Lemma zip_dict_lookup_in (ks : list string) (vs : list Q) (k : string) (v : Q) :
  zip_dict ks vs !! k = Some v -> In v vs.
Proof.
  unfold zip_dict.
  assert (Hgen : forall m : gmap string Q, fold_left (fun m kv => <[kv.1 := kv.2]> m) (combine ks vs) m !! k = Some v ->
                           m !! k = Some v \/ In v vs).
  { revert vs. induction ks as [|k0 ks IH]; intros [|v0 vs] m H; simpl in *; auto.
    destruct (IH vs _ H) as [Hm|Hm]; [|auto].
    destruct (decide (k0 = k)) as [->|Hne].
    - rewrite lookup_insert_eq in Hm. injection Hm as ->. auto.
    - rewrite lookup_insert_ne in Hm by exact Hne. auto. }
  intros H. destruct (Hgen ∅ H) as [Hm|Hm]; [rewrite lookup_empty in Hm; discriminate|exact Hm].
Qed.

Lemma zip_dict_f_lookup_in (ks : list string) (vs : list PyFloat) (k : string) (v : PyFloat) :
  zip_dict_f ks vs !! k = Some v -> In v vs.
Proof.
  unfold zip_dict_f.
  assert (Hgen : forall m : gmap string PyFloat,
             fold_left (fun m kv => <[kv.1 := kv.2]> m) (combine ks vs) m !! k = Some v ->
             m !! k = Some v \/ In v vs).
  { revert vs. induction ks as [|k0 ks IH]; intros [|v0 vs] m H; simpl in *; auto.
    destruct (IH vs _ H) as [Hm|Hm]; [|auto].
    destruct (decide (k0 = k)) as [->|Hne].
    - rewrite lookup_insert_eq in Hm. injection Hm as ->. auto.
    - rewrite lookup_insert_ne in Hm by exact Hne. auto. }
  intros H. destruct (Hgen ∅ H) as [Hm|Hm]; [rewrite lookup_empty in Hm; discriminate|exact Hm].
Qed.

Lemma norm_lookup_unit (ks : list string) (vals : list Q) (k : string) :
  0 <= default 0 (zip_dict ks (minmax vals) !! k) <= 1.
Proof.
  destruct (zip_dict ks (minmax vals) !! k) as [v|] eqn:E; simpl; [|lra].
  apply zip_dict_lookup_in in E.
  exact (proj1 (List.Forall_forall _ _) (minmax_bounds vals) v E).
Qed.

Lemma norm_f_lookup (ks : list string) (vals : list PyFloat) (k : string) :
  let v := default (Fin 0) (zip_dict_f ks (minmax_f vals) !! k) in
  v = NaN \/ exists a, v = Fin a /\ 0 <= a <= 1.
Proof.
  destruct (zip_dict_f ks (minmax_f vals) !! k) as [v|] eqn:E; simpl.
  - apply zip_dict_f_lookup_in in E. exact (minmax_f_bounds _ _ E).
  - right. exists 0. split; [reflexivity|lra].
Qed.

Lemma round6_unit (x : Q) : 0 <= x <= 1 -> 0 <= round6 x <= 1.
Proof.
  intros H.
  assert (E0 : inject_Z 0 / inject_Z 1000000 == 0) by reflexivity.
  assert (E1 : inject_Z 1000000 / inject_Z 1000000 == 1) by reflexivity.
  pose proof (round6_between 0 1000000 x ltac:(lra)). lra.
Qed.


(** The scores of one row of [layer_score_rows]: the normalised weighted
    degree [w] is NaN or in [0, 1]; the other normalised values are in
    [0, 1]. *)
Lemma layer_score_rows_in (alpha beta : Q) ids nm st rc pr (r : LayerRow) :
  In r (layer_score_rows alpha beta ids nm st rc pr) ->
  exists nid w c p d b,
    In nid ids /\ lr_id r = nid
    /\ (w = NaN \/ exists a, w = Fin a /\ 0 <= a <= 1)
    /\ 0 <= c <= 1 /\ 0 <= p <= 1 /\ 0 <= d <= 1 /\ 0 <= b <= 1
    /\ lr_association r = fround6 (fadd (fmul (Fin 0.7) w) (Fin (0.3 * c)))
    /\ lr_centrality r = round6 (0.5 * p + 0.35 * d + 0.15 * b)
    /\ lr_influence r = fround6 (fadd (fmul (Fin alpha) (fadd (fmul (Fin 0.7) w) (Fin (0.3 * c))))
                                      (Fin (beta * (0.5 * p + 0.35 * d + 0.15 * b))))
    /\ lr_cross_follow_ratio r
       = round6 (inject_Z (Z.of_nat (default 0%nat (rc !! nid)))
                 / inject_Z (Z.of_nat (Nat.max 1 (size (default ∅ (lay_out st !! nid)))))).
Proof.
  unfold layer_score_rows. intros Hr. apply in_map_iff in Hr as (nid & <- & Hnid).
  do 6 eexists. split; [exact Hnid|].
  destruct (nm !! nid) as [nd|]; cbn;
    (split; [reflexivity|]);
    (split; [apply norm_f_lookup|]); (split; [apply norm_lookup_unit|]);
    (split; [apply norm_lookup_unit|]); (split; [apply norm_lookup_unit|]);
    (split; [apply norm_lookup_unit|]); repeat split; reflexivity.
Qed.







(* ------------------------------------------------------------------ *)
(** ** Reciprocal counts and cross-follow ratios *)

Lemma zero_map_lookup (ids : list string) (m : gmap string nat) (k : string) :
  fold_left (fun m k => <[k := 0%nat]> m) ids m !! k
  = if decide (k ∈ ids) then Some 0%nat else m !! k.
Proof.
  revert m. induction ids as [|x r IH]; intros m; cbn [fold_left].
  - destruct (decide (k ∈ [])) as [H|H]; [apply elem_of_nil in H; contradiction|reflexivity].
  - rewrite IH. destruct (decide (k ∈ r)) as [H|H]; destruct (decide (k ∈ x :: r)) as [H'|H'].
    + reflexivity.
    + exfalso. apply H'. apply list_elem_of_further, H.
    + destruct (decide (x = k)) as [->|Hne]; [rewrite lookup_insert_eq; reflexivity|].
      exfalso. apply elem_of_cons in H' as [H'|H']; [congruence|contradiction].
    + destruct (decide (x = k)) as [->|Hne].
      * exfalso. apply H'. apply list_elem_of_here.
      * rewrite lookup_insert_ne by exact Hne. reflexivity.
Qed.

Lemma ratio_unit (a b : nat) :
  (a <= b)%nat ->
  0 <= inject_Z (Z.of_nat a) / inject_Z (Z.of_nat (Nat.max 1 b)) <= 1.
Proof.
  intros Hab.
  assert (Hb : 0 < inject_Z (Z.of_nat (Nat.max 1 b))).
  { change 0 with (inject_Z 0). rewrite <- Zlt_Qlt. lia. }
  split.
  - apply Qle_shift_div_l; [exact Hb|]. rewrite Qmult_0_l.
    change 0 with (inject_Z 0). rewrite <- Zle_Qle. lia.
  - apply Qle_shift_div_r; [exact Hb|]. rewrite Qmult_1_l. rewrite <- Zle_Qle. lia.
Qed.

(** One pass of the inner loop of lines 107-109 adds, at the key [s], the
    number of targets [t] that follow [s] back. *)
Lemma layer_reciprocal_inner (out_map : gmap string (gset string)) (s : string)
    (ts : list string) (rc : gmap string nat) (v : nat) :
  rc !! s = Some v ->
  fold_left (fun rc t => if decide (s ∈ default ∅ (out_map !! t))
                         then <[s := S (default 0%nat (rc !! s))]> rc else rc) ts rc
  = <[s := (v + length (List.filter (fun t => bool_decide (s ∈ default ∅ (out_map !! t))) ts))%nat]> rc.
Proof.
  revert rc v. induction ts as [|t ts IH]; intros rc v Hv; simpl.
  - rewrite Nat.add_0_r. symmetry. apply insert_id, Hv.
  - destruct (decide (s ∈ default ∅ (out_map !! t))) as [H|H].
    + rewrite (bool_decide_eq_true_2 _ H). rewrite Hv. simpl.
      rewrite (IH _ (S v)) by apply lookup_insert_eq.
      rewrite insert_insert_eq. f_equal. simpl. lia.
    + rewrite (bool_decide_eq_false_2 _ H). apply IH, Hv.
Qed.

Lemma layer_reciprocal_outer (out_map : gmap string (gset string)) (l : list string)
    (rc : gmap string nat) (k : string) :
  (forall s, In s l -> exists v, rc !! s = Some v) ->
  fold_left (fun rc s =>
       fold_left (fun rc t => if decide (s ∈ default ∅ (out_map !! t))
                              then <[s := S (default 0%nat (rc !! s))]> rc else rc)
         (elements (default ∅ (out_map !! s))) rc) l rc !! k
  = match rc !! k with
    | Some v => Some (v + count_occ string_dec l k
                          * length (List.filter (fun t => bool_decide (k ∈ default ∅ (out_map !! t)))
                                      (elements (default ∅ (out_map !! k)))))%nat
    | None => None
    end.
Proof.
  revert rc. induction l as [|x l IH]; intros rc Hrc; cbn [fold_left].
  - simpl. destruct (rc !! k); [f_equal; lia|reflexivity].
  - destruct (Hrc x (or_introl eq_refl)) as [vx Hx].
    rewrite (layer_reciprocal_inner _ _ _ _ vx Hx).
    rewrite IH.
    2: { intros s Hs. destruct (decide (x = s)) as [->|Hne];
         [rewrite lookup_insert_eq; eexists; reflexivity|].
         rewrite lookup_insert_ne by exact Hne. apply Hrc. right. exact Hs. }
    destruct (string_dec x k) as [->|Hne].
    + rewrite lookup_insert_eq, Hx. rewrite count_occ_cons_eq by reflexivity. f_equal. rewrite Nat.mul_succ_l. lia.
    + rewrite lookup_insert_ne by exact Hne. rewrite count_occ_cons_neq by exact Hne. reflexivity.
Qed.

(** The reciprocal counts of [build_layers], key by key. *)
Lemma layer_reciprocal_lookup_gen (node_ids : list string) (out_map : gmap string (gset string))
    (s : string) :
  layer_reciprocal node_ids out_map !! s
  = if decide (s ∈ node_ids)
    then Some (count_occ string_dec node_ids s
               * length (List.filter (fun t => bool_decide (s ∈ default ∅ (out_map !! t)))
                           (elements (default ∅ (out_map !! s)))))%nat
    else None.
Proof.
  unfold layer_reciprocal. rewrite layer_reciprocal_outer.
  - rewrite zero_map_lookup, lookup_empty. case_decide; reflexivity.
  - intros x Hx. rewrite zero_map_lookup. case_decide as H; [eexists; reflexivity|].
    exfalso. apply H, list_elem_of_In, Hx.
Qed.

(** Extra: [reciprocal_count] of [build_layers] (build_circle_layers.py,
    lines 106-109) has exactly the node ids as keys; the count of [s] is
    the number of ids [t] that [s] follows and that follow [s] back,
    times the number of times [s] occurs in the node id list (a
    repeated node record counts its mutual follows again). *)
Theorem layer_reciprocal_lookup (node_ids : list string) (out_map : gmap string (gset string))
    (s : string) :
  layer_reciprocal node_ids out_map !! s
  = if decide (s ∈ node_ids)
    then Some (count_occ string_dec node_ids s
               * length (List.filter (fun t => bool_decide (s ∈ default ∅ (out_map !! t)))
                           (elements (default ∅ (out_map !! s)))))%nat
    else None.
Proof. apply layer_reciprocal_lookup_gen. Qed.

(** Extra: with distinct node ids, every row of [build_layers]
    (build_circle_layers.py, lines 106-143), before and after sorting, has
    a cross-follow ratio in [0, 1]. *)
Theorem build_layers_cross_ratio_unit (alpha beta : Q) (nodes : list NodeVal) (links : list LinkVal) :
  NoDup (index_nodes nodes).1 ->
  (forall r, In r (layer_rows alpha beta nodes links) -> 0 <= lr_cross_follow_ratio r <= 1)
  /\ (forall out x, build_layers alpha beta nodes links = Some out -> In x out ->
        0 <= lr_cross_follow_ratio (ly_row x) <= 1).
Proof.
  intros Hnd.
  assert (G : forall r, In r (layer_rows alpha beta nodes links) -> 0 <= lr_cross_follow_ratio r <= 1).
  { unfold layer_rows. destruct (index_nodes nodes) as [ids nm]. cbn [fst] in Hnd.
    intros r Hr. apply layer_score_rows_in in Hr.
    destruct Hr as (nid & w & c & p & d & b & Hin & _ & _ & _ & _ & _ & _ & _ & _ & _ & Ecr).
    rewrite Ecr. apply round6_unit, ratio_unit.
    rewrite layer_reciprocal_lookup_gen.
    case_decide as H; simpl; [|lia].
    apply NoDup_ListNoDup in Hnd.
    pose proof (proj1 (NoDup_count_occ string_dec _) Hnd nid) as Hc.
    set (out := lay_out _).
    assert (Hf : (length (List.filter (fun t => bool_decide (nid ∈ default ∅ (out !! t)))
                            (elements (default ∅ (out !! nid))))
                  <= size (default ∅ (out !! nid)))%nat).
    { unfold size, set_size. simpl. apply filter_length_le. }
    nia. }
  split; [exact G|]. intros out x Hb Hx. apply G. exact (proj1 (build_layers_in _ _ _ _ _ _ Hb Hx)).
Qed.

Lemma reciprocal_counts_fold (out_map : gmap string (gset string)) (pairs : list (string * string))
    (rc : gmap string nat) (s : string) :
  default 0%nat (fold_left
    (fun rc '(s, t) =>
       if decide (s ∈ default ∅ (out_map !! t))
       then <[s := S (default 0%nat (rc !! s))]> rc else rc) pairs rc !! s)
  = (default 0%nat (rc !! s)
     + length (List.filter (fun p => bool_decide (p.1 = s) && bool_decide (s ∈ default ∅ (out_map !! p.2)))
                 pairs))%nat.
Proof.
  revert rc. induction pairs as [|[a t] pairs IH]; intros rc; cbn [fold_left].
  - simpl. lia.
  - rewrite IH. cbn [List.filter fst snd].
    destruct (decide (a ∈ default ∅ (out_map !! t))) as [H|H].
    + destruct (decide (a = s)) as [->|Hne].
      * rewrite lookup_insert_eq, (bool_decide_eq_true_2 (s = s) eq_refl),
          (bool_decide_eq_true_2 _ H). simpl. lia.
      * rewrite lookup_insert_ne by exact Hne. rewrite (bool_decide_eq_false_2 _ Hne). reflexivity.
    + destruct (decide (a = s)) as [->|Hne].
      * rewrite (bool_decide_eq_false_2 _ H), andb_false_r. reflexivity.
      * rewrite (bool_decide_eq_false_2 _ Hne). reflexivity.
Qed.

(** Extra: [reciprocal_count] of [compute_quanzhong_metrics]
    (quanzhong_model.py, lines 149-163 and 190-193): the count of [s] is
    the number of accepted raw links [s -> t] whose reverse [t -> s] is an
    accepted link too; a repeated raw link is counted once per
    occurrence. *)
Theorem quanzhong_reciprocal_count (nodes : list NodeVal) (links : list LinkVal) (s : string) :
  let st := quanzhong_links (index_nodes nodes).2 links in
  default 0%nat (reciprocal_counts (index_nodes nodes).1 (ls_out st) (ls_pairs st) !! s)
  = length (List.filter (fun p => bool_decide (p.1 = s) && bool_decide ((p.2, s) ∈ ls_pairs st))
              (ls_pairs st)).
Proof.
  intros st. unfold reciprocal_counts. rewrite reciprocal_counts_fold.
  rewrite zero_map_lookup, lookup_empty.
  replace (default 0%nat (if decide (s ∈ (index_nodes nodes).1) then Some 0%nat else None)) with 0%nat
    by (case_decide; reflexivity).
  simpl. f_equal. apply List.filter_ext. intros [a t]. simpl. f_equal.
  apply bool_decide_ext. apply quanzhong_out_mem.
Qed.

Lemma nodup_snd_filter (pairs : list (string * string)) (s : string) :
  List.NoDup pairs -> List.NoDup (map snd (List.filter (fun p => bool_decide (p.1 = s)) pairs)).
Proof.
  induction 1 as [|[a t] r Hn Hd IH]; simpl; [constructor|].
  case_bool_decide as E; simpl; [|exact IH].
  constructor; [|exact IH]. subst a.
  intros Hin. apply in_map_iff in Hin as ([a t'] & Et & Hin). simpl in Et. subst t'.
  apply List.filter_In in Hin as [Hin Ha]. apply bool_decide_eq_true_1 in Ha. simpl in Ha. subst a.
  contradiction.
Qed.

(** Extra: when no accepted raw link repeats another one, every node's
    cross-follow ratio in [compute_quanzhong_metrics] (quanzhong_model.py,
    lines 190-197) lies in [0, 1]. *)
Theorem quanzhong_cross_ratio_unit (nodes : list NodeVal) (links : list LinkVal) (s : string) :
  let st := quanzhong_links (index_nodes nodes).2 links in
  NoDup (ls_pairs st) ->
  0 <= quanzhong_cross_ratio (ls_out st)
         (reciprocal_counts (index_nodes nodes).1 (ls_out st) (ls_pairs st)) s <= 1.
Proof.
  intros st Hnd. apply NoDup_ListNoDup in Hnd.
  unfold quanzhong_cross_ratio. apply ratio_unit.
  unfold reciprocal_counts. rewrite reciprocal_counts_fold, zero_map_lookup, lookup_empty.
  replace (default 0%nat (if decide (s ∈ (index_nodes nodes).1) then Some 0%nat else None)) with 0%nat
    by (case_decide; reflexivity).
  simpl.
  set (L := map snd (List.filter (fun p => bool_decide (p.1 = s)) (ls_pairs st))).
  assert (HL : length L = length (List.filter (fun p => bool_decide (p.1 = s)) (ls_pairs st)))
    by apply length_map.
  assert (Hsub : list_to_set (C := gset string) L ⊆ default ∅ (ls_out st !! s)).
  { intros t Ht. apply elem_of_list_to_set, list_elem_of_In in Ht.
    apply in_map_iff in Ht as ([a t'] & Et & Hin). simpl in Et. subst t'.
    apply List.filter_In in Hin as [Hin Ha]. apply bool_decide_eq_true_1 in Ha. simpl in Ha. subst a.
    apply quanzhong_out_mem. apply list_elem_of_In, Hin. }
  apply subseteq_size in Hsub.
  rewrite size_list_to_set in Hsub by (apply NoDup_ListNoDup, nodup_snd_filter, Hnd).
  assert (Hm : (length (List.filter (fun p => bool_decide (p.1 = s) && bool_decide (s ∈ default ∅ (ls_out st !! p.2))) (ls_pairs st))
                <= length (List.filter (fun p => bool_decide (p.1 = s)) (ls_pairs st)))%nat).
  { apply filter_length_mono. intros p Hp. apply andb_prop in Hp. apply Hp. }
  lia.
Qed.

Lemma build_layers_cross_ratio_unit_witness :
  let nodes := [NodeDict (mkNode (Some "A") None None); NodeDict (mkNode (Some "B") None None);
                NodeDict (mkNode (Some "C") None None)] in
  let links := [LinkDict (Some (EStr "A")) (Some (EStr "B")) None;
                LinkDict (Some (EStr "B")) (Some (EStr "A")) None;
                LinkDict (Some (EStr "A")) (Some (EStr "C")) None] in
  exists out x, build_layers 0.6 0.4 nodes links = Some out /\ In x out
    /\ 0 <= lr_cross_follow_ratio (ly_row x) <= 1.
Proof.
  intros nodes links.
  destruct (build_layers 0.6 0.4 nodes links) as [out|] eqn:E; [|vm_compute in E; discriminate E].
  destruct out as [|x rest]; [vm_compute in E; discriminate E|].
  exists (x :: rest), x. split; [reflexivity|]. split; [left; reflexivity|].
  apply (proj2 (build_layers_cross_ratio_unit 0.6 0.4 nodes links
                  ltac:(apply (bool_decide_unpack _); vm_compute; reflexivity)) _ x E).
  left. reflexivity.
Defined.

Lemma quanzhong_cross_ratio_unit_witness :
  let nodes := [NodeDict (mkNode (Some "A") None None); NodeDict (mkNode (Some "B") None None)] in
  let links := [LinkDict (Some (EStr "A")) (Some (EStr "B")) None;
                LinkDict (Some (EStr "B")) (Some (EStr "A")) None] in
  let st := quanzhong_links (index_nodes nodes).2 links in
  0 <= quanzhong_cross_ratio (ls_out st)
         (reciprocal_counts (index_nodes nodes).1 (ls_out st) (ls_pairs st)) "A" <= 1.
Proof.
  intros nodes links st.
  apply (quanzhong_cross_ratio_unit nodes links "A").
  apply (bool_decide_unpack _). vm_compute. reflexivity.
Defined.

(* ------------------------------------------------------------------ *)
(** ** The node loop *)

(** Extra: the node loop of [compute_quanzhong_metrics]
    (quanzhong_model.py, lines 138-147) and [build_layers]
    (build_circle_layers.py, lines 69-78) keeps the dict records with a
    non-empty key, in input order: [node_ids] lists their keys (a repeated
    key again), the keys of [node_map] are exactly the listed ids, and
    [node_map] maps each key to the last kept record with that key. *)
Theorem index_nodes_spec (nodes : list NodeVal) :
  (index_nodes nodes).1 = map node_key (omap node_record nodes)
  /\ (forall k, (index_nodes nodes).2 !! k
                = last (List.filter (fun nd => String.eqb (node_key nd) k) (omap node_record nodes)))
  /\ (forall k, is_Some ((index_nodes nodes).2 !! k) <-> k ∈ (index_nodes nodes).1).
Proof.
  assert (H : (index_nodes nodes).1 = map node_key (omap node_record nodes)
              /\ forall k, (index_nodes nodes).2 !! k
                 = last (List.filter (fun nd => String.eqb (node_key nd) k) (omap node_record nodes))).
  { induction nodes as [|nv nodes IH] using rev_ind; [split; [reflexivity|intros k; reflexivity]|].
    rewrite index_nodes_snoc, omap_app. destruct IH as [IH1 IH2]. simpl.
    destruct (node_record nv) as [nd|]; simpl; rewrite ?app_nil_r; [|split; assumption].
    split; [rewrite IH1, map_app; reflexivity|].
    intros k. rewrite List.filter_app. simpl.
    destruct (String.eqb (node_key nd) k) eqn:E.
    - apply String.eqb_eq in E. subst k. rewrite lookup_insert_eq, last_snoc. reflexivity.
    - apply String.eqb_neq in E. rewrite lookup_insert_ne by exact E. rewrite app_nil_r. apply IH2. }
  destruct H as [H1 H2]. split; [exact H1|]. split; [exact H2|].
  intros k. rewrite H2, H1. clear H1 H2.
  induction (omap node_record nodes) as [|nd l IH] using rev_ind.
  - simpl. split; [intros [? E]; discriminate|intros E; apply elem_of_nil in E; contradiction].
  - rewrite List.filter_app, map_app. simpl.
    rewrite elem_of_app, list_elem_of_singleton.
    destruct (String.eqb (node_key nd) k) eqn:E.
    + apply String.eqb_eq in E. rewrite last_snoc. split; [intros _; right; symmetry; exact E|intros _; eexists; reflexivity].
    + apply String.eqb_neq in E. rewrite app_nil_r, IH. split; [intros Hk; left; exact Hk|].
      intros [Hk|Hk]; [exact Hk|congruence].
Qed.

(* ------------------------------------------------------------------ *)
(** ** Weighted degree of the circle layers *)








(* ------------------------------------------------------------------ *)
(** ** Weighted degree of the quanzhong model *)

(** Extra: weighted degree of [compute_quanzhong_metrics]
    (quanzhong_model.py, lines 149-163 and 199-221). Every node id has a
    weighted degree, equal to the sum of the (unrounded) edge weights of
    the accepted raw links that have the node as an endpoint, a repeated
    raw link counted again; with distinct node ids the weighted degrees
    add up to twice the total edge weight of the accepted raw links. *)
Theorem quanzhong_weighted_degree (nodes : list NodeVal) (links : list LinkVal)
    (token_map : gmap string (gset string)) :
  let ids := (index_nodes nodes).1 in
  let st := quanzhong_links (index_nodes nodes).2 links in
  let w := fun p => (edge_record (ls_out st) (ls_in st) token_map p).2 in
  let wd := (weighted_stage ids (ls_out st) (ls_in st) token_map (ls_pairs st)).2 in
  (forall k, k ∈ ids -> exists v, wd !! k = Some v
     /\ v == Py.sum (map (fun p => if String.eqb p.1 k || String.eqb p.2 k then w p else 0) (ls_pairs st)))
  /\ (NoDup ids -> sumL ids wd == 2 * Py.sum (map w (ls_pairs st))).
Proof.
  assert (Hnm : forall k, is_Some ((index_nodes nodes).2 !! k) <-> k ∈ (index_nodes nodes).1)
    by (intros k; apply index_nodes_dom).
  exact (quanzhong_degree_gen (index_nodes nodes).1 (index_nodes nodes).2 links token_map Hnm).
Qed.

Lemma quanzhong_weighted_degree_witness :
  let nodes := [NodeDict (mkNode (Some "A") None None); NodeDict (mkNode (Some "B") None None);
                NodeDict (mkNode (Some "C") None None)] in
  let links := [LinkDict (Some (EStr "A")) (Some (EStr "B")) None;
                LinkDict (Some (EStr "B")) (Some (EStr "A")) None;
                LinkDict (Some (EStr "C")) (Some (EStr "B")) None] in
  let st := quanzhong_links (index_nodes nodes).2 links in
  sumL (index_nodes nodes).1
    (weighted_stage (index_nodes nodes).1 (ls_out st) (ls_in st) ∅ (ls_pairs st)).2
  == 2 * Py.sum (map (fun p => (edge_record (ls_out st) (ls_in st) ∅ p).2) (ls_pairs st)).
Proof.
  intros nodes links st.
  destruct (quanzhong_weighted_degree nodes links ∅) as [_ H].
  apply H. apply (bool_decide_unpack _). vm_compute. reflexivity.
Defined.

Lemma jaccard_comm (a b : gset string) : jaccard a b = jaccard b a.
Proof.
  unfold jaccard. rewrite andb_comm, (union_comm_L a b), (intersection_comm_L a b). reflexivity.
Qed.

(** Extra: a mutual follow gets one edge weight (quanzhong_model.py,
    lines 199-209): when both [s -> t] and [t -> s] are accepted links,
    their weighted link records have the same weight, structural score,
    semantic similarity and reciprocal flag (1), and the same unrounded
    edge weight. *)
Theorem edge_record_mutual (nodes : list NodeVal) (links : list LinkVal)
    (token_map : gmap string (gset string)) (s t : string) :
  let st := quanzhong_links (index_nodes nodes).2 links in
  (s, t) ∈ ls_pairs st -> (t, s) ∈ ls_pairs st ->
  let r1 := edge_record (ls_out st) (ls_in st) token_map (s, t) in
  let r2 := edge_record (ls_out st) (ls_in st) token_map (t, s) in
  wl_weight r1.1 = wl_weight r2.1
  /\ wl_structural r1.1 = wl_structural r2.1
  /\ wl_semantic_similarity r1.1 = wl_semantic_similarity r2.1
  /\ wl_reciprocal r1.1 = 1%Z /\ wl_reciprocal r2.1 = 1%Z
  /\ r1.2 = r2.2.
Proof.
  intros st Hst Hts. cbv zeta. unfold edge_record.
  apply quanzhong_out_mem in Hst, Hts. fold st in Hst, Hts.
  destruct (decide (s ∈ default ∅ (ls_out st !! t))) as [_|C]; [|contradiction].
  destruct (decide (t ∈ default ∅ (ls_out st !! s))) as [_|C]; [|contradiction].
  cbn [fst snd wl_weight wl_structural wl_semantic_similarity wl_reciprocal].
  rewrite (jaccard_comm (default ∅ (ls_out st !! t))),
          (jaccard_comm (default ∅ (ls_in st !! t))),
          (jaccard_comm (default ∅ (token_map !! t))).
  repeat split; reflexivity.
Qed.

Lemma edge_record_mutual_witness :
  let nodes := [NodeDict (mkNode (Some "A") None None); NodeDict (mkNode (Some "B") None None);
                NodeDict (mkNode (Some "C") None None)] in
  let links := [LinkDict (Some (EStr "A")) (Some (EStr "B")) None;
                LinkDict (Some (EStr "B")) (Some (EStr "A")) None;
                LinkDict (Some (EStr "A")) (Some (EStr "C")) None] in
  let st := quanzhong_links (index_nodes nodes).2 links in
  wl_weight (edge_record (ls_out st) (ls_in st) ∅ ("A", "B")).1
  = wl_weight (edge_record (ls_out st) (ls_in st) ∅ ("B", "A")).1.
Proof.
  intros nodes links st.
  destruct (edge_record_mutual nodes links ∅ "A" "B") as [H _].
  - vm_compute. left.
  - vm_compute. right. left.
  - exact H.
Defined.

(* ------------------------------------------------------------------ *)
(** ** The ranked top 300 *)

Lemma key_lt_irrefl (k : Q * Q * Q * string) : key_lt k k = false.
Proof.
  destruct k as [[[a b] c] s]. apply not_true_iff_false. rewrite key_lt_iff.
  rewrite string_compare_refl. intuition (discriminate || lra).
Qed.

Lemma key_lt_trans (k1 k2 k3 : Q * Q * Q * string) :
  key_lt k1 k2 = true -> key_lt k2 k3 = true -> key_lt k1 k3 = true.
Proof.
  destruct k1 as [[[a1 b1] c1] s1], k2 as [[[a2 b2] c2] s2], k3 as [[[a3 b3] c3] s3].
  rewrite !key_lt_iff. intros H1 H2.
  destruct H1 as [L1|[E1 [L1|[F1 [L1|[G1 S1]]]]]];
  destruct H2 as [L2|[E2 [L2|[F2 [L2|[G2 S2]]]]]];
  first [ left; lra
        | right; split; [lra|];
          first [ left; lra
                | right; split; [lra|];
                  first [ left; lra
                        | right; split; [lra|]; eauto using string_compare_trans ] ] ].
Qed.

Lemma nth_error_firstn' {A} (n i : nat) (l : list A) :
  nth_error (firstn n l) i = if (i <? n)%nat then nth_error l i else None.
Proof.
  revert n i. induction l as [|x l IH]; intros n i.
  - rewrite firstn_nil. destruct i, (_ <? _)%nat; reflexivity.
  - destruct n as [|n]; [destruct i; reflexivity|].
    destruct i as [|i]; [reflexivity|]. simpl. rewrite IH. reflexivity.
Qed.

(** Extra: the [top300] list of quanzhong_rank.py (lines 45-87) holds the
    first [min 300 n] of the [n] rows, ranked [1, 2, ...] in list order and
    sorted by the key (no later row's key is below an earlier row's key);
    every listed row is one of the rows, and a row whose key is strictly
    below the key of a listed row is listed too. *)
Theorem top300_spec (nm : gmap string RankMetrics) (nodes : list Node) :
  let rows := rank_rows nm nodes in
  let out := top300 nm nodes in
  length out = Nat.min 300 (length rows)
  /\ (forall i a, nth_error out i = Some a -> rk_rank a = S i)
  /\ (forall i j a b, (i < j)%nat -> nth_error out i = Some a -> nth_error out j = Some b ->
        key_lt (rank_key (rk_row b)) (rank_key (rk_row a)) = false)
  /\ (forall a, In a out -> In (rk_row a) rows)
  /\ (forall r a, In r rows -> In a out -> key_lt (rank_key r) (rank_key (rk_row a)) = true ->
        exists a', In a' out /\ rk_row a' = r).
Proof.
  cbv zeta. unfold top300.
  set (lt := fun r1 r2 => key_lt (rank_key r1) (rank_key r2)).
  set (rows := rank_rows nm nodes).
  assert (Hperm : Permutation (sort_by lt rows) rows) by apply sort_by_perm.
  assert (Hsort : StronglySorted (fun a b => lt b a = false) (sort_by lt rows)).
  { apply sort_by_sorted; unfold lt; [intros x; apply key_lt_irrefl|intros x y z; apply key_lt_trans]. }
  set (srt := sort_by lt rows) in *.
  assert (Hnth : forall i a, nth_error (firstn 300 (map (fun '(i, r) => mkRankedRow r i)
                                   (combine (seq 1 (length srt)) srt))) i = Some a ->
                 (i < 300)%nat /\ nth_error srt i = Some (rk_row a) /\ rk_rank a = S i).
  { intros i a Ha. rewrite nth_error_firstn' in Ha.
    destruct (i <? 300)%nat eqn:Ei; [|discriminate]. apply Nat.ltb_lt in Ei.
    rewrite nth_error_map, nth_error_combine_seq in Ha.
    destruct (nth_error srt i) as [r|]; [|discriminate]. injection Ha as <-. simpl. auto. }
  assert (Hin : forall a, In a (firstn 300 (map (fun '(i, r) => mkRankedRow r i)
                                   (combine (seq 1 (length srt)) srt))) ->
                exists i, nth_error (firstn 300 (map (fun '(i, r) => mkRankedRow r i)
                                   (combine (seq 1 (length srt)) srt))) i = Some a).
  { intros a Ha. apply In_nth_error, Ha. }
  split; [|split; [|split; [|split]]].
  - rewrite length_firstn, length_map, combine_seq_length, (Permutation_length Hperm). reflexivity.
  - intros i a Ha. apply Hnth in Ha. apply Ha.
  - intros i j a b Hij Ha Hb. apply Hnth in Ha as (_ & Ha & _). apply Hnth in Hb as (_ & Hb & _).
    exact (strongly_sorted_nth _ srt i j _ _ Hsort Hij Ha Hb).
  - intros a Ha. destruct (Hin a Ha) as [i Hi]. apply Hnth in Hi as (_ & Hi & _).
    apply (Permutation_in _ Hperm). apply nth_error_In with i. exact Hi.
  - intros r a Hr Ha Hlt. destruct (Hin a Ha) as [i Hi]. apply Hnth in Hi as (Hi300 & Hi & _).
    apply (Permutation_in _ (Permutation_sym Hperm)), In_nth_error in Hr as [p Hp].
    destruct (Nat.lt_ge_cases p 300) as [Hp300|Hp300].
    + exists (mkRankedRow r (S p)). split; [|reflexivity].
      apply nth_error_In with p. rewrite nth_error_firstn'.
      rewrite (proj2 (Nat.ltb_lt p 300) Hp300), nth_error_map, nth_error_combine_seq, Hp. reflexivity.
    + exfalso. assert (Hip : (i < p)%nat) by lia.
      pose proof (strongly_sorted_nth _ srt i p _ _ Hsort Hip Hi Hp) as H. cbv beta in H.
      unfold lt in H. rewrite H in Hlt. discriminate.
Qed.


(* ------------------------------------------------------------------ *)
(** ** Mutual and bridge out-edges *)

Lemma filter_elements_size (O I : gset string) :
  length (List.filter (fun t => bool_decide (t ∈ I)) (elements O)) = size (O ∩ I).
Proof.
  assert (Hnd : List.NoDup (List.filter (fun t => bool_decide (t ∈ I)) (elements O))).
  { apply List.NoDup_filter, NoDup_ListNoDup, NoDup_elements. }
  assert (E : O ∩ I = list_to_set (List.filter (fun t => bool_decide (t ∈ I)) (elements O))).
  { apply leibniz_equiv. intros t. rewrite elem_of_intersection, elem_of_list_to_set, list_elem_of_In,
      List.filter_In, <- list_elem_of_In, elem_of_elements, bool_decide_eq_true. reflexivity. }
  rewrite E, size_list_to_set by (apply NoDup_ListNoDup, Hnd). reflexivity.
Qed.

Lemma layer_in_mem (node_ids : list string) (node_map : gmap string Node) (links : list LinkVal)
    (s t : string) :
  t ∈ default ∅ (lay_in (layer_links node_ids node_map links) !! s)
  <-> s ∈ default ∅ (lay_out (layer_links node_ids node_map links) !! t).
Proof.
  destruct (layer_links_adj node_ids node_map links) as [Ho Hi]. rewrite Ho, Hi.
  rewrite !adj_from_empty_mem. rewrite !list_elem_of_In, in_map_iff. split.
  - intros ([a b] & E & H). unfold swap_pair in E. simpl in E. injection E as -> ->. exact H.
  - intros H. exists (t, s). split; [reflexivity|exact H].
Qed.

(** Extra: in [build_layers] (build_circle_layers.py, lines 85-113), with
    distinct node ids, the out-neighbours of a node split into mutual
    follows and bridge edges: its [reciprocal_count] plus its
    [bridge_degree] (out-neighbours that do not follow it back) equals its
    out-degree. *)
Theorem layer_mutual_bridge_split (nodes : list NodeVal) (links : list LinkVal) (s : string) :
  let ids := (index_nodes nodes).1 in
  let st := layer_links ids (index_nodes nodes).2 links in
  NoDup ids -> s ∈ ids ->
  (default 0%nat (layer_reciprocal ids (lay_out st) !! s)
   + size (default ∅ (lay_out st !! s) ∖ default ∅ (lay_in st !! s)))%nat
  = size (default ∅ (lay_out st !! s)).
Proof.
  intros ids st Hnd Hs. rewrite layer_reciprocal_lookup_gen, decide_True by exact Hs. simpl.
  apply NoDup_ListNoDup in Hnd.
  assert (Hc : count_occ string_dec ids s = 1%nat).
  { pose proof (proj1 (NoDup_count_occ string_dec _) Hnd s).
    assert (0 < count_occ string_dec ids s)%nat by (apply count_occ_In, list_elem_of_In, Hs). lia. }
  rewrite Hc, Nat.mul_1_l.
  set (Os := default ∅ (lay_out st !! s)). set (Is := default ∅ (lay_in st !! s)).
  rewrite (List.filter_ext _ (fun t => bool_decide (t ∈ Is))).
  2: { intros t. apply bool_decide_ext. unfold Is, st. rewrite layer_in_mem. reflexivity. }
  rewrite size_difference_alt, filter_elements_size.
  pose proof (subseteq_size (Os ∩ Is) Os ltac:(set_solver)). lia.
Qed.

Lemma layer_mutual_bridge_split_witness :
  let nodes := [NodeDict (mkNode (Some "A") None None); NodeDict (mkNode (Some "B") None None);
                NodeDict (mkNode (Some "C") None None)] in
  let links := [LinkDict (Some (EStr "A")) (Some (EStr "B")) None;
                LinkDict (Some (EStr "B")) (Some (EStr "A")) None;
                LinkDict (Some (EStr "A")) (Some (EStr "C")) None] in
  let ids := (index_nodes nodes).1 in
  let st := layer_links ids (index_nodes nodes).2 links in
  (default 0%nat (layer_reciprocal ids (lay_out st) !! "A")
   + size (default ∅ (lay_out st !! "A") ∖ default ∅ (lay_in st !! "A")))%nat
  = size (default ∅ (lay_out st !! "A")).
Proof.
  intros nodes links ids st.
  apply (layer_mutual_bridge_split nodes links "A").
  - apply (bool_decide_unpack _). vm_compute. reflexivity.
  - apply (bool_decide_unpack _). vm_compute. reflexivity.
Defined.
